(** * 3D-Model-Maker: the generation orchestration core of [src/index.tsx]

    The development embeds the [App] component's state cells, its refs and
    its event handlers as functions on an explicit state, and proves the
    properties the specification states about the generation ledger, the
    pipeline orchestrator, the reconstruction job client and image
    normalisation.

    Modelling conventions.
    - Every [useState] cell and every [useRef] cell is a field of [App].
      A state setter takes effect at once; a functional updater
      ([setSteps (prev => ...)]) is applied once, to the current value, at
      the call.
    - React renders the component again after every event that changed a
      cell, so the handler of a click reads the cells as they are.  The part
      of an [async] handler that runs after an [await] still belongs to the
      render of its click: what it reads of that render (the [files] its
      [performGeneration] maps over, the [initialSteps] array) is carried by
      its [Task].
    - Every render creates its own [initialSteps] array, and [updateStep]
      writes the step objects in place: [Renders] keeps the arrays of the
      earlier renders as their objects now are, and records which objects the
      step list shares with them.  The renders that follow a write of the
      step list are part of that write; a render after any other change is
      the event [Render].
    - An [async] function is cut at its [await]s.  A suspended call is a
      [Task]; the event that settles the awaited promise resumes it with a
      [Completion].  Completions of different tasks interleave freely; a
      completion whose value has another shape than the await expects leaves
      the task suspended.
    - [performance.now ()] is an integer reading [now : Z] (milliseconds)
      supplied by the event that runs the code; one reading serves a whole
      synchronous segment.  Divisions by 1000 and [toFixed 2] are kept
      symbolic: a duration is stored as its millisecond count.
    - [setInterval] handles are positive integers, as in browsers.
    - The requests a handler starts are logged, so that statements can speak
      about them; [console.error] is not.
    - The handlers can be invoked in any state: the buttons' visibility
      and [disabled] attributes are not modelled.
    - The 3D viewer, the DOM and the rendering are not modelled. *)

From Stdlib Require Import ZArith Lia Ascii.
From stdpp Require Import base list strings pretty.

Local Open Scope Z_scope.

(** ** JavaScript helpers *)

Module Js.

(** Truthiness of a string: every string but the empty one. *)
Definition truthy_string (s : string) : bool :=
  match s with EmptyString => false | String _ _ => true end.

(** Truthiness of a number: every number but zero. *)
Definition truthy_number (n : Z) : bool := negb (n =? 0).

(** Truthiness of [string | null]. *)
Definition truthy_ostring (o : option string) : bool :=
  match o with Some s => truthy_string s | None => false end.

(** Truthiness of [number | null]. *)
Definition truthy_onumber (o : option Z) : bool :=
  match o with Some n => truthy_number n | None => false end.

(** [a || b] on strings. *)
Definition or_string (a b : string) : string :=
  if truthy_string a then a else b.

(** [Math.round (a / b)] for integers [a >= 0], [b > 0]: the nearest
    integer, a half rounded up.  (The source divides in double precision;
    for image dimensions the double quotient rounds as the exact one.) *)
Definition round_div (a b : Z) : Z := (2 * a + b) / (2 * b).

(** [arr.slice (0, n)]: a negative [n] counts from the end. *)
Definition slice0 {A} (l : list A) (n : Z) : list A :=
  if n <? 0 then take (Z.to_nat (Z.of_nat (length l) + n)) l
  else take (Z.to_nat n) l.

(** [arr.join (sep)]. *)
Fixpoint join (sep : string) (l : list string) : string :=
  match l with
  | [] => ""
  | [x] => x
  | x :: rest => x +:+ sep +:+ join sep rest
  end.

Definition newline : string := String (Ascii.ascii_of_nat 10) EmptyString.

(** [c.toUpperCase ()] on one ASCII character. *)
Definition upper_ascii (c : Ascii.ascii) : Ascii.ascii :=
  let n := Ascii.nat_of_ascii c in
  if (97 <=? n)%nat && (n <=? 122)%nat then Ascii.ascii_of_nat (n - 32) else c.

(** [s.charAt (0).toUpperCase () + s.slice (1)]. *)
Definition capitalize (s : string) : string :=
  match s with
  | EmptyString => EmptyString
  | String c rest => String (upper_ascii c) rest
  end.

End Js.

(** [sub] occurs in [s]. *)
Definition contains (s sub : string) : Prop :=
  exists pre post, s = pre +:+ sub +:+ post.

(** ** Image normalisation: the dimensions computed by [resizeImage] *)

(** The [width] and [height] given to the canvas for an image of the given
    dimensions (index.tsx, lines 225-240). *)

Definition resizeImage_dims (width height maxSize : Z) : Z * Z :=
  if height <? width then
    if maxSize <? width
    then (maxSize, Js.round_div (height * maxSize) width)
    else (width, height)
  else
    if maxSize <? height
    then (Js.round_div (width * maxSize) height, maxSize)
    else (width, height).

(** ** Data model *)

Record File := { file_name : string; file_type : string; file_data : string }.

Record InlineData := { data : string; mimeType : string }.

Record GeneratedImage := { label : string; url : string }.

Inductive StepStatus := Pending | Loading | Done | Error.

Definition StepStatus_eqb (a b : StepStatus) : bool :=
  match a, b with
  | Pending, Pending | Loading, Loading | Done, Done | Error, Error => true
  | _, _ => false
  end.

(** The [time] field of a step: the number [0] of [initialSteps], or the
    string [(ms / 1000).toFixed (2)] for an elapsed time of [ms]
    milliseconds (['0.00'] is [TimeFixed2 0]). *)
Inductive StepTime := TimeNumber (n : Z) | TimeFixed2 (elapsed_ms : Z).

Record Step := { name : string; status : StepStatus; time : StepTime }.

(** The [initialSteps] array as a render creates it (lines 38-41).  The
    arrays of the renders, with what has been written to their objects since,
    are kept in [Renders] below. *)
Definition initialSteps : list Step :=
  [ {| name := "Generate View Images"; status := Pending; time := TimeNumber 0 |};
    {| name := "Generate 3D Model"; status := Pending; time := TimeNumber 0 |} ].

Inductive InputMethod := upload | url_input.

(** The consumer-facing cells of the generator. *)
Record Signals := {
  steps : list Step;
  generatedImages : list GeneratedImage;
  modelUrl : option string;
  error : option string;
  isLoading : bool;
  totalGenerationTime : option Z
}.

(** The input cells. *)
Record Inputs := {
  files : list File;
  isDragging : bool;
  inputMethod : InputMethod;
  productUrl : string;
  isFetchingUrl : bool;
  urlError : option string
}.

(** The [useRef] cells. *)
Record Refs := {
  generationId : Z;
  falCancelUrl : option string;
  timerIntervalRef : option positive;
  stepStartRef : option Z;
  generationStartRef : option Z
}.

(** The browser's interval table: the running intervals, each with the
    step index its callback closed over, and the next handle. *)
Record Browser := {
  intervals : list (positive * nat);
  nextHandle : positive
}.

(** The [initialSteps] arrays (lines 38-41).  Each render creates a new
    array of two new step objects, and the handlers of that render close over
    it.  [updateStep] copies the step list shallowly and writes the step
    object itself (lines 51-57 and 71-76), so the write shows in the
    [initialSteps] array the object comes from, and a closure of that render
    that does [setSteps (initialSteps)] afterwards installs the written
    object.
    - [superseded]: the arrays of the renders before the current one, by
      render number, as their objects now are.  The current render has the
      number [length superseded]; nothing has written its array, since
      every write of the step list is followed by a render.
    - [held]: for each position of the step list, the render whose
      [initialSteps] object it holds, or [None] for an object of its own. *)
Record Renders := {
  superseded : list (list Step);
  held : list (option nat)
}.

Record App := {
  sig : Signals; inp : Inputs; refs : Refs; env : Browser; renders : Renders
}.

Definition initialApp : App :=
  {| sig := {| steps := []; generatedImages := []; modelUrl := None;
               error := None; isLoading := false; totalGenerationTime := None |};
     inp := {| files := []; isDragging := false; inputMethod := upload;
               productUrl := ""; isFetchingUrl := false; urlError := None |};
     refs := {| generationId := 0; falCancelUrl := None; timerIntervalRef := None;
                stepStartRef := None; generationStartRef := None |};
     env := {| intervals := []; nextHandle := 1%positive |};
     renders := {| superseded := []; held := [] |} |}.

(** *** Cell writes *)

Definition upd_sig (f : Signals -> Signals) (s : App) : App :=
  {| sig := f (sig s); inp := inp s; refs := refs s; env := env s;
     renders := renders s |}.
Definition upd_inp (f : Inputs -> Inputs) (s : App) : App :=
  {| sig := sig s; inp := f (inp s); refs := refs s; env := env s;
     renders := renders s |}.
Definition upd_refs (f : Refs -> Refs) (s : App) : App :=
  {| sig := sig s; inp := inp s; refs := f (refs s); env := env s;
     renders := renders s |}.
Definition upd_env (f : Browser -> Browser) (s : App) : App :=
  {| sig := sig s; inp := inp s; refs := refs s; env := f (env s);
     renders := renders s |}.
Definition upd_renders (f : Renders -> Renders) (s : App) : App :=
  {| sig := sig s; inp := inp s; refs := refs s; env := env s;
     renders := f (renders s) |}.

Definition setSteps (v : list Step) : App -> App :=
  upd_sig (fun x => {| steps := v; generatedImages := generatedImages x;
    modelUrl := modelUrl x; error := error x; isLoading := isLoading x;
    totalGenerationTime := totalGenerationTime x |}).
Definition setGeneratedImages (v : list GeneratedImage) : App -> App :=
  upd_sig (fun x => {| steps := steps x; generatedImages := v;
    modelUrl := modelUrl x; error := error x; isLoading := isLoading x;
    totalGenerationTime := totalGenerationTime x |}).
Definition setModelUrl (v : option string) : App -> App :=
  upd_sig (fun x => {| steps := steps x; generatedImages := generatedImages x;
    modelUrl := v; error := error x; isLoading := isLoading x;
    totalGenerationTime := totalGenerationTime x |}).
Definition setError (v : option string) : App -> App :=
  upd_sig (fun x => {| steps := steps x; generatedImages := generatedImages x;
    modelUrl := modelUrl x; error := v; isLoading := isLoading x;
    totalGenerationTime := totalGenerationTime x |}).
Definition setIsLoading (v : bool) : App -> App :=
  upd_sig (fun x => {| steps := steps x; generatedImages := generatedImages x;
    modelUrl := modelUrl x; error := error x; isLoading := v;
    totalGenerationTime := totalGenerationTime x |}).
Definition setTotalGenerationTime (v : option Z) : App -> App :=
  upd_sig (fun x => {| steps := steps x; generatedImages := generatedImages x;
    modelUrl := modelUrl x; error := error x; isLoading := isLoading x;
    totalGenerationTime := v |}).

Definition setFiles (v : list File) : App -> App :=
  upd_inp (fun x => {| files := v; isDragging := isDragging x;
    inputMethod := inputMethod x; productUrl := productUrl x;
    isFetchingUrl := isFetchingUrl x; urlError := urlError x |}).
Definition setIsDragging (v : bool) : App -> App :=
  upd_inp (fun x => {| files := files x; isDragging := v;
    inputMethod := inputMethod x; productUrl := productUrl x;
    isFetchingUrl := isFetchingUrl x; urlError := urlError x |}).
Definition setInputMethod (v : InputMethod) : App -> App :=
  upd_inp (fun x => {| files := files x; isDragging := isDragging x;
    inputMethod := v; productUrl := productUrl x;
    isFetchingUrl := isFetchingUrl x; urlError := urlError x |}).
Definition setProductUrl (v : string) : App -> App :=
  upd_inp (fun x => {| files := files x; isDragging := isDragging x;
    inputMethod := inputMethod x; productUrl := v;
    isFetchingUrl := isFetchingUrl x; urlError := urlError x |}).
Definition setIsFetchingUrl (v : bool) : App -> App :=
  upd_inp (fun x => {| files := files x; isDragging := isDragging x;
    inputMethod := inputMethod x; productUrl := productUrl x;
    isFetchingUrl := v; urlError := urlError x |}).
Definition setUrlError (v : option string) : App -> App :=
  upd_inp (fun x => {| files := files x; isDragging := isDragging x;
    inputMethod := inputMethod x; productUrl := productUrl x;
    isFetchingUrl := isFetchingUrl x; urlError := v |}).

Definition set_generationId (v : Z) : App -> App :=
  upd_refs (fun x => {| generationId := v; falCancelUrl := falCancelUrl x;
    timerIntervalRef := timerIntervalRef x; stepStartRef := stepStartRef x;
    generationStartRef := generationStartRef x |}).
Definition set_falCancelUrl (v : option string) : App -> App :=
  upd_refs (fun x => {| generationId := generationId x; falCancelUrl := v;
    timerIntervalRef := timerIntervalRef x; stepStartRef := stepStartRef x;
    generationStartRef := generationStartRef x |}).
Definition set_timerIntervalRef (v : option positive) : App -> App :=
  upd_refs (fun x => {| generationId := generationId x; falCancelUrl := falCancelUrl x;
    timerIntervalRef := v; stepStartRef := stepStartRef x;
    generationStartRef := generationStartRef x |}).
Definition set_stepStartRef (v : option Z) : App -> App :=
  upd_refs (fun x => {| generationId := generationId x; falCancelUrl := falCancelUrl x;
    timerIntervalRef := timerIntervalRef x; stepStartRef := v;
    generationStartRef := generationStartRef x |}).
Definition set_generationStartRef (v : option Z) : App -> App :=
  upd_refs (fun x => {| generationId := generationId x; falCancelUrl := falCancelUrl x;
    timerIntervalRef := timerIntervalRef x; stepStartRef := stepStartRef x;
    generationStartRef := v |}).

(** [setInterval (callback, 100)] where the callback closed over [index]:
    a fresh handle is registered and returned. *)
Definition setInterval (index : nat) (s : App) : App * positive :=
  let h := nextHandle (env s) in
  (upd_env (fun b => {| intervals := (h, index) :: intervals b;
                        nextHandle := Pos.succ h |}) s, h).

(** [clearInterval (h)]. *)
Definition clearInterval (h : positive) : App -> App :=
  upd_env (fun b => {| intervals := filter (fun e => e.1 <> h) (intervals b);
                       nextHandle := nextHandle b |}).

(** *** The renders and their [initialSteps] arrays *)

(** The render that is current: the handlers of the next click close over
    it. *)
Definition currentRender (s : App) : nat := length (superseded (renders s)).

(** The [initialSteps] array of render [r], as its objects now are: the
    two pending steps as long as the render is current. *)
Definition initialStepsOf (r : nat) (s : App) : list Step :=
  default initialSteps (superseded (renders s) !! r).

(** React renders again: the render that was current is superseded, its
    array being as it was created. *)
Definition rerender : App -> App :=
  upd_renders (fun c => {| superseded := superseded c ++ [initialSteps];
                           held := held c |}).

(** The step list becomes the array [init] of render [r]. *)
Definition holdInitialSteps (r : nat) (init : list Step) : App -> App :=
  upd_renders (fun c => {| superseded := superseded c;
                           held := (fun _ => Some r) <$> init |}).

(** [setSteps (initialSteps)] in a closure of render [r] (lines 378 and
    403). *)
Definition installInitialSteps (r : nat) (s : App) : App :=
  rerender (holdInitialSteps r (initialStepsOf r s) (setSteps (initialStepsOf r s) s)).

(** The step object at [index] has been written and now is [v]: the
    [initialSteps] array that holds the object shows the write. *)
Definition writeThrough (index : nat) (v : Step) : App -> App :=
  upd_renders (fun c =>
    {| superseded := match held c !! index with
                     | Some (Some r) => alter (<[index := v]>) r (superseded c)
                     | _ => superseded c
                     end;
       held := held c |}).

(** The positions of the step list that [fresh] selects get objects of
    their own ([{ ...s, .. }] in a [map]). *)
Definition releaseSteps (fresh : nat -> Step -> bool) (s : App) : App :=
  upd_renders (fun c =>
    {| superseded := superseded c;
       held := imap (fun i h => match steps (sig s) !! i with
                                | Some st => if fresh i st then None else h
                                | None => h
                                end) (held c) |}) s.

(** ** Effects: requests, exceptions, early return *)

(** The asynchronous operations a handler starts.  The HTTP requests are the
    network requests; the others are local. *)
Inductive Request :=
  | ReadFile (f : File)
  | GenerateContent (model : string) (prompt_subject : string)
  | DecodeImage (image_url : string)
  | HttpPost (target : string) (front_image_url back_image_url left_image_url : option string)
  | HttpGet (target : string)
  | HttpPut (target : string)
  | ReadBody
  | Sleep (ms : Z).

Definition is_network_request (r : Request) : bool :=
  match r with
  | GenerateContent _ _ | HttpPost _ _ _ _ | HttpGet _ | HttpPut _ => true
  | ReadFile _ | DecodeImage _ | ReadBody | Sleep _ => false
  end.

(** How a synchronous piece of a handler ends: it runs on with a value,
    throws an [Error] with a message, or executes [return]. *)
Inductive Outcome (A : Type) :=
  | Normal (a : A)
  | Thrown (msg : string)
  | Returned.
Arguments Normal {A} a.
Arguments Thrown {A} msg.
Arguments Returned {A}.

Definition M (A : Type) : Type := App -> App * list Request * Outcome A.

#[global] Instance M_ret : MRet M := fun A a s => (s, [], Normal a).

#[global] Instance M_bind : MBind M := fun A B f m s =>
  match m s with
  | (s1, out1, Normal a) =>
      match f a s1 with (s2, out2, r) => (s2, out1 ++ out2, r) end
  | (s1, out1, Thrown msg) => (s1, out1, Thrown msg)
  | (s1, out1, Returned) => (s1, out1, Returned)
  end.

Definition write (f : App -> App) : M unit := fun s => (f s, [], Normal tt).
Definition read {A} (f : App -> A) : M A := fun s => (s, [], Normal (f s)).
Definition throw {A} (msg : string) : M A := fun s => (s, [], Thrown msg).
Definition early_return {A} : M A := fun s => (s, [], Returned).
Definition request (r : Request) : M unit := fun s => (s, [r], Normal tt).
Definition requests (l : list Request) : M unit := fun s => (s, l, Normal tt).
Definition when_ (b : bool) (m : M unit) : M unit := if b then m else mret tt.

(** ** The generation ledger: [updateStep] and its interval callback *)

Definition TypeError_read_status : string :=
  "Cannot read properties of undefined (reading 'status')".
Definition TypeError_set_status : string :=
  "Cannot set properties of undefined (setting 'status')".

(** [if (timerIntervalRef.current) { clearInterval (..); .. = null }]. *)
Definition stopTimer : M unit :=
  t ← read (fun s => timerIntervalRef (refs s));
  match t with
  | Some h => _ ← write (clearInterval h); write (set_timerIntervalRef None)
  | None => mret tt
  end.

(** [timerIntervalRef.current = setInterval (...)], the right-hand side. *)
Definition startInterval (index : nat) : M positive :=
  fun s => let '(s', h) := setInterval index s in (s', [], Normal h).

(** [updateStep (index, newStatus)] (lines 44-80).  [newSteps[index]] is
    [undefined] when the index is out of range, and the first access to its
    [status] then throws a [TypeError].  [newSteps] is a shallow copy of the
    step list: the assignments to [stepToUpdate] write the object the list
    shares with the [initialSteps] array it came from. *)
Definition updateStep (index : nat) (newStatus : StepStatus) (now : Z) : M unit :=
  _ ← stopTimer;
  prev ← read (fun s => steps (sig s));
  match newStatus with
  | Loading =>
      _ ← write (set_stepStartRef (Some now));
      match prev !! index with
      | None => throw TypeError_set_status
      | Some stepToUpdate =>
          let written := {| name := name stepToUpdate; status := Loading;
                            time := TimeFixed2 0 |} in
          h ← startInterval index;
          _ ← write (set_timerIntervalRef (Some h));
          _ ← write (setSteps (<[index := written]> prev));
          _ ← write (writeThrough index written);
          write rerender
      end
  | _ => (* 'done' or 'error' *)
      match prev !! index with
      | None => throw TypeError_read_status
      | Some stepToUpdate =>
          start ← read (fun s => stepStartRef (refs s));
          let time' :=
            if StepStatus_eqb (status stepToUpdate) Loading && Js.truthy_onumber start
            then TimeFixed2 (now - default 0 start)
            else time stepToUpdate in
          let written := {| name := name stepToUpdate; status := newStatus;
                            time := time' |} in
          _ ← write (setSteps (<[index := written]> prev));
          _ ← write (writeThrough index written);
          _ ← write rerender;
          write (set_stepStartRef None)
      end
  end.

(** The callback registered by [updateStep (index, 'loading')], run at
    clock reading [now]. *)
Definition intervalCallback (index : nat) (now : Z) (s : App) : App :=
  match stepStartRef (refs s) with
  | None => s
  | Some start =>
      let elapsed := now - start in
      let ticking := fun (i : nat) (st : Step) =>
                       (i =? index)%nat && StepStatus_eqb (status st) Loading in
      rerender
        (setSteps (imap (fun i st =>
                           if ticking i st
                           then {| name := name st; status := status st;
                                   time := TimeFixed2 elapsed |}
                           else st) (steps (sig s)))
           (releaseSteps ticking s))
  end.

Fixpoint interval_index (h : positive) (l : list (positive * nat)) : option nat :=
  match l with
  | [] => None
  | (h', i) :: rest => if (h' =? h)%positive then Some i else interval_index h rest
  end.

(** The browser fires interval [h]; nothing happens when [h] is not running. *)
Definition tick (h : positive) (now : Z) (s : App) : App :=
  match interval_index h (intervals (env s)) with
  | Some index => intervalCallback index now s
  | None => s
  end.

(** ** The remote job's JSON bodies *)

Record LogLine := { message : option string }.

(** The body of the submission response. *)
Record SubmitResult := {
  cancel_url : option string;
  status_url : string;
  response_url : string
}.

(** The body of a status response. *)
Record PollBody := {
  poll_status : option string;
  poll_logs : option (list LogLine)
}.

Record ModelMesh := { mesh_url : option string }.

(** The body of the result response. *)
Record ResultData := {
  result_status : option string;
  model_mesh : option ModelMesh;
  result_logs : option (list LogLine)
}.

(** [logs?.map (log => log.message).join ('\n')]: [undefined] without
    logs, and a missing message joins as the empty string. *)
Definition joined_logs (logs : option (list LogLine)) : option string :=
  (fun l => Js.join Js.newline ((fun log => default "" (message log)) <$> l)) <$> logs.

(** [joined || fallback]. *)
Definition logs_or (logs : option (list LogLine)) (fallback : string) : string :=
  Js.or_string (default "" (joined_logs logs)) fallback.

(** [resultData.model_mesh?.url]. *)
Definition result_mesh_url (d : ResultData) : option string :=
  m ← model_mesh d; mesh_url m.

(** ** Suspended calls and the values that resume them *)

Inductive Value :=
  | VUnit
  | VParts (imageParts : list InlineData)
  | VViews (frontPart backPart leftPart : InlineData)
  | VResized (frontResized backResized leftResized : string)
  | VResponse (ok : bool) (http_status : Z)
  | VText (body : string)
  | VSubmit (submitResult : SubmitResult)
  | VPoll (pollBody : PollBody)
  | VResult (resultData : ResultData)
  | VImageUrl (imageUrl : option string)
  | VBlob (blob_type blob_data : string).

(** The awaited promise is fulfilled with a value or rejected with an
    [Error] carrying a message. *)
Inductive Completion :=
  | Resolved (v : Value)
  | Rejected (msg : string).

(** The [await]s of [performGeneration], in program order. *)
Inductive GenPC :=
  | AwaitParts                                  (* Promise.all (files.map (fileToGenerativePart)) *)
  | AwaitViews                                  (* Promise.all (viewPromises) *)
  | AwaitResize                                 (* Promise.all (resizePromises) *)
  | AwaitSubmit                                 (* fetch (FAL_HUNYUAN_API_URL, POST) *)
  | AwaitSubmitText                             (* submitResponse.text () *)
  | AwaitSubmitJson                             (* submitResponse.json () *)
  | AwaitPoll (submitResult : SubmitResult)     (* fetch (statusUrl) *)
  | AwaitPollJson (submitResult : SubmitResult) (* pollRes.json () *)
  | AwaitResult (submitResult : SubmitResult)   (* fetch (submitResult.response_url) *)
  | AwaitResultJson (submitResult : SubmitResult) (* resultResponse.json () *)
  | AwaitDelay (submitResult : SubmitResult).   (* setTimeout (resolve, 5000) *)

Definition FAL_HUNYUAN_API_URL : string :=
  "https://queue.fal.run/fal-ai/hunyuan3d/v2/multi-view".

Definition await (c : Completion) : M Value :=
  match c with
  | Resolved v => mret v
  | Rejected msg => throw msg
  end.

(** ** [performGeneration] (lines 254-361) *)

(** [if (generationId.current !== currentGenerationId) return;] *)
Definition guard (currentGenerationId : Z) : M unit :=
  g ← read (fun s => generationId (refs s));
  if g =? currentGenerationId then mret tt else early_return.

(** What [generateSingleView] returns for the image part of a response. *)
Definition generateSingleView (viewName : string) (imagePart : InlineData) : GeneratedImage :=
  {| label := Js.capitalize viewName;
     url := "data:" +:+ mimeType imagePart +:+ ";base64," +:+ data imagePart |}.

(** The message it throws when the response holds no image part. *)
Definition generateSingleView_error (viewName : string) : string :=
  "Gemini failed to generate the " +:+ viewName +:+ ".".

(** The head of the polling loop: the staleness check, then the status
    request. *)
Definition pollLoopHead (g : Z) (submitResult : SubmitResult) : M (option GenPC) :=
  _ ← guard g;
  _ ← request (HttpGet (status_url submitResult));
  mret (Some (AwaitPoll submitResult)).

(** The code after the polling loop, reached with the mesh address of
    [finalResult]. *)
Definition afterPolling (g : Z) (mesh : string) (now : Z) : M (option GenPC) :=
  _ ← guard g;
  _ ← updateStep 1 Done now;
  _ ← write (setModelUrl (Some mesh));
  start ← read (fun s => generationStartRef (refs s));
  _ ← when_ (Js.truthy_onumber start)
        (_ ← write (setTotalGenerationTime (Some (now - default 0 start)));
         write (set_generationStartRef None));
  mret None.

(** The [try] block resumed at [pc] by completion [c]; the value is the
    next [await], or [None] when the block runs to its end. *)
Definition generationBody (g : Z) (pc : GenPC) (c : Completion) (now : Z)
  : M (option GenPC) :=
  v ← await c;
  match pc, v with
  | AwaitParts, VParts imageParts =>
      _ ← request (GenerateContent "gemini-2.5-flash-image-preview" "front view");
      _ ← request (GenerateContent "gemini-2.5-flash-image-preview" "back view");
      _ ← request (GenerateContent "gemini-2.5-flash-image-preview" "left side view");
      mret (Some AwaitViews)
  | AwaitViews, VViews frontPart backPart leftPart =>
      let results := [ generateSingleView "front view" frontPart;
                       generateSingleView "back view" backPart;
                       generateSingleView "left side view" leftPart ] in
      _ ← guard g;
      _ ← write (setGeneratedImages results);
      _ ← updateStep 0 Done now;
      _ ← updateStep 1 Loading now;
      _ ← request (DecodeImage (url (generateSingleView "front view" frontPart)));
      _ ← request (DecodeImage (url (generateSingleView "back view" backPart)));
      _ ← request (DecodeImage (url (generateSingleView "left side view" leftPart)));
      mret (Some AwaitResize)
  | AwaitResize, VResized frontResized backResized leftResized =>
      _ ← guard g;
      _ ← request (HttpPost FAL_HUNYUAN_API_URL
                     (Some frontResized) (Some backResized) (Some leftResized));
      mret (Some AwaitSubmit)
  | AwaitSubmit, VResponse ok _ =>
      _ ← guard g;
      _ ← request ReadBody;
      mret (Some (if ok then AwaitSubmitJson else AwaitSubmitText))
  | AwaitSubmitText, VText body =>
      throw ("Fal.ai submission failed: " +:+ body)
  | AwaitSubmitJson, VSubmit submitResult =>
      _ ← write (set_falCancelUrl (cancel_url submitResult));
      pollLoopHead g submitResult
  | AwaitPoll submitResult, VResponse _ _ =>
      _ ← request ReadBody;
      mret (Some (AwaitPollJson submitResult))
  | AwaitPollJson submitResult, VPoll pollBody =>
      if bool_decide (poll_status pollBody = Some "COMPLETED") then
        _ ← request (HttpGet (response_url submitResult));
        mret (Some (AwaitResult submitResult))
      else if bool_decide (poll_status pollBody = Some "ERROR") then
        throw (logs_or (poll_logs pollBody) "Polling error.")
      else
        _ ← request (Sleep 5000);
        mret (Some (AwaitDelay submitResult))
  | AwaitResult submitResult, VResponse _ _ =>
      _ ← request ReadBody;
      mret (Some (AwaitResultJson submitResult))
  | AwaitResultJson submitResult, VResult resultData =>
      match bool_decide (result_status resultData = Some "ERROR"),
            result_mesh_url resultData with
      | false, Some mesh => afterPolling g mesh now
      | _, _ =>
          throw ("Generation failed: " +:+ logs_or (result_logs resultData) "Unknown error")
      end
  | AwaitDelay submitResult, VUnit => pollLoopHead g submitResult
  | _, _ => mret (Some pc)   (* a value of another shape never settles this await *)
  end.

(** [{ ...s, status: 'error' }] for a loading step. *)
Definition markLoadingAsError (s : Step) : Step :=
  if StepStatus_eqb (status s) Loading
  then {| name := name s; status := Error; time := time s |}
  else s.

(** The [catch] block. *)
Definition generationCatch (g : Z) (msg : string) : M unit :=
  _ ← guard g;
  _ ← write (setError (Some (Js.or_string msg "An unknown error occurred.")));
  _ ← write (releaseSteps (fun _ st => StepStatus_eqb (status st) Loading));
  _ ← write (fun s => setSteps (markLoadingAsError <$> steps (sig s)) s);
  _ ← write rerender;
  start ← read (fun s => generationStartRef (refs s));
  when_ (Js.truthy_onumber start) (write (set_generationStartRef None)).

(** The [finally] block. *)
Definition generationFinally (g : Z) : M unit :=
  cur ← read (fun s => generationId (refs s));
  when_ (cur =? g)
    (_ ← write (setIsLoading false); write (set_falCancelUrl None)).

(** [try body catch (e) handler finally fin] around one synchronous segment
    of an [async] function: a segment that stops at an [await] leaves the
    function suspended; otherwise the function ends through [fin], after
    [handler] when the segment threw. *)
Definition trySegment {PC} (body : M (option PC)) (handler : string -> M unit)
    (fin : M unit) (s : App) : App * list Request * option PC :=
  match body s with
  | (s1, out1, Normal (Some pc)) => (s1, out1, Some pc)
  | (s1, out1, Normal None) | (s1, out1, Returned) =>
      match fin s1 with (s2, out2, _) => (s2, out1 ++ out2, None) end
  | (s1, out1, Thrown msg) =>
      match handler msg s1 with
      | (s2, out2, _) =>
          match fin s2 with (s3, out3, _) => (s3, out1 ++ out2 ++ out3, None) end
      end
  end.

(** A suspended [performGeneration] resumes. *)
Definition resumeGeneration (g : Z) (pc : GenPC) (c : Completion) (now : Z)
  : App -> App * list Request * option GenPC :=
  trySegment (generationBody g pc c now) (generationCatch g) (generationFinally g).

(** The call [performGeneration ()] up to its first [await]; the result
    holds the captured [currentGenerationId].  [selected] is the [files] of
    the render whose [performGeneration] is called (line 261). *)
Definition performGeneration (now : Z) (selected : list File) (s : App)
  : App * list Request * Z * option GenPC :=
  let s0 := set_generationId (generationId (refs s) + 1) s in
  let currentGenerationId := generationId (refs s0) in
  let '(s1, out, pc) :=
    trySegment
      (_ ← updateStep 0 Loading now;
       _ ← requests (ReadFile <$> selected);
       mret (Some AwaitParts))
      (generationCatch currentGenerationId)
      (generationFinally currentGenerationId) s0 in
  (s1, out, currentGenerationId, pc).

(** ** The orchestrator's handlers *)

Inductive UrlPC :=
  | AwaitFindImage                        (* generateContent (findImagePrompt) *)
  | AwaitExtractUrl                       (* generateContent (extractUrlPrompt) *)
  | AwaitImageFetch (imageUrl : string)   (* fetch (imageUrl) *)
  | AwaitImageBlob (imageUrl : string).   (* imageFetchResponse.blob () *)

Inductive DownloadPC := AwaitAsset | AwaitAssetBlob.

(** The suspended calls.  The two handlers that await their cancel
    request go on in the closure of the render of the click: [render] is its
    number, and [selected] the [files] it closed over. *)
Inductive Task :=
  | GenerationTask (currentGenerationId : Z) (pc : GenPC)
  | RerunTask (render : nat) (selected : list File)
                             (* rerunImageGenerationStep, at its cancel request *)
  | CancelTask (render : nat)
                             (* handleCancelGeneration, at its cancel request *)
  | UrlFetchTask (pc : UrlPC)
  | DownloadTask (pc : DownloadPC).

(** Lines 399-408, in a closure of render [r]. *)
Definition resetStateForGeneration (r : nat) (s : App) : App :=
  set_generationStartRef None
    (setTotalGenerationTime None
      (set_falCancelUrl None
        (setGeneratedImages []
          (installInitialSteps r
            (setModelUrl None
              (setError None
                (setIsLoading true s))))))).

(** Lines 410-416, in a closure of render [r]. *)
Definition reset (r : nat) (s : App) : App :=
  setIsLoading false (resetStateForGeneration r (setFiles [] s)).

(** The call [performGeneration ()] of a handler: the promise is not
    awaited; the suspended call, if any, is left behind. *)
Definition spawnGeneration (r : App * list Request * Z * option GenPC)
  : App * list Request * list Task :=
  let '(s, out, g, pc) := r in
  (s, out, match pc with Some pc => [GenerationTask g pc] | None => [] end).

(** Lines 363-368. *)
Definition startGeneration (now : Z) (s : App) : App * list Request * list Task :=
  if bool_decide (length (files (inp s)) = 0%nat) || isLoading (sig s) then (s, [], [])
  else
    spawnGeneration
      (performGeneration now (files (inp s))
         (set_generationStartRef (Some now)
            (resetStateForGeneration (currentRender s) s))).

(** [rerunImageGenerationStep] after its best-effort cancel request, in
    the closure of render [r], whose [files] were [selected]. *)
Definition rerunContinue (now : Z) (r : nat) (selected : list File) (s : App)
  : App * list Request * list Task :=
  spawnGeneration
    (performGeneration now selected
       (set_generationStartRef (Some now)
         (setTotalGenerationTime None
           (setIsLoading true
             (setGeneratedImages []
               (installInitialSteps r
                 (setModelUrl None
                   (setError None s)))))))).

(** Lines 370-384. *)
Definition rerunImageGenerationStep (now : Z) (s : App) : App * list Request * list Task :=
  match falCancelUrl (refs s) with
  | Some u => if Js.truthy_string u
              then (s, [HttpPut u], [RerunTask (currentRender s) (files (inp s))])
              else rerunContinue now (currentRender s) (files (inp s)) s
  | None => rerunContinue now (currentRender s) (files (inp s)) s
  end.

(** [handleCancelGeneration] after its best-effort cancel request. *)
Definition cancelContinue (r : nat) (s : App) : App :=
  reset r (stopTimer s).1.1.

(** Lines 386-397. *)
Definition handleCancelGeneration (s : App) : App * list Request * list Task :=
  let s1 := set_generationId (generationId (refs s) + 1) s in
  match falCancelUrl (refs s1) with
  | Some u => if Js.truthy_string u then (s1, [HttpPut u], [CancelTask (currentRender s1)])
              else (cancelContinue (currentRender s1) s1, [], [])
  | None => (cancelContinue (currentRender s1) s1, [], [])
  end.

(** Lines 82-87. *)
Definition handleFileChange (selectedFiles : option (list File)) (s : App) : App :=
  match selectedFiles with
  | Some selected =>
      let newFiles := Js.slice0 selected (3 - Z.of_nat (length (files (inp s)))) in
      setFiles (files (inp s) ++ newFiles) s
  | None => s
  end.

Definition handleDragOver : App -> App := setIsDragging true.
Definition handleDragLeave : App -> App := setIsDragging false.
Definition handleDrop (dropped : option (list File)) (s : App) : App :=
  handleFileChange dropped (setIsDragging false s).

(** [prev.filter ((_, i) => i !== index)]. *)
Definition removeFile (index : nat) (s : App) : App :=
  setFiles (delete index (files (inp s))) s.

(** *** [handleUrlFetch] (lines 120-194) *)

Fixpoint occurs (c : Ascii.ascii) (s : string) : bool :=
  match s with
  | EmptyString => false
  | String a r => bool_decide (a = c) || occurs c r
  end.

(** [s.substring (s.lastIndexOf (c) + 1)]. *)
Fixpoint after_last (c : Ascii.ascii) (s : string) : string :=
  match s with
  | EmptyString => EmptyString
  | String a r =>
      if occurs c r then after_last c r
      else if bool_decide (a = c) then r else String a r
  end.

(** [s.split (c)[0]]. *)
Fixpoint before_first (c : Ascii.ascii) (s : string) : string :=
  match s with
  | EmptyString => EmptyString
  | String a r => if bool_decide (a = c) then EmptyString else String a (before_first c r)
  end.

Definition image_filename (imageUrl : string) : string :=
  Js.or_string (before_first "?"%char (after_last "/"%char imageUrl)) "product-image.jpg".

Definition urlFetchBody (pc : UrlPC) (c : Completion) : M (option UrlPC) :=
  v ← await c;
  match pc, v with
  | AwaitFindImage, VText firstResponseText =>
      _ ← request (GenerateContent "gemini-2.5-flash-lite" firstResponseText);
      mret (Some AwaitExtractUrl)
  | AwaitExtractUrl, VImageUrl imageUrl =>
      match imageUrl with
      | Some u =>
          if Js.truthy_string u
          then _ ← request (HttpGet u); mret (Some (AwaitImageFetch u))
          else throw "Gemini could not find an image URL on the provided page."
      | None => throw "Gemini could not find an image URL on the provided page."
      end
  | AwaitImageFetch imageUrl, VResponse ok http_status =>
      if ok then _ ← request ReadBody; mret (Some (AwaitImageBlob imageUrl))
      else throw ("Failed to fetch the image from the extracted URL. Status: "
                  +:+ pretty http_status)
  | AwaitImageBlob imageUrl, VBlob blob_type blob_data =>
      let imageFile := {| file_name := image_filename imageUrl;
                          file_type := blob_type; file_data := blob_data |} in
      _ ← write (fun s => setFiles (Js.slice0 (files (inp s) ++ [imageFile]) 3) s);
      _ ← write (setProductUrl "");
      _ ← write (setInputMethod upload);
      mret None
  | _, _ => mret (Some pc)
  end.

Definition urlFetchCatch (msg : string) : M unit :=
  write (setUrlError
           (Some (Js.or_string msg "An unexpected error occurred while fetching the image."))).

Definition urlFetchFinally : M unit := write (setIsFetchingUrl false).

Definition resumeUrlFetch (pc : UrlPC) (c : Completion)
  : App -> App * list Request * option UrlPC :=
  trySegment (urlFetchBody pc c) urlFetchCatch urlFetchFinally.

(** [handleUrlFetch] up to its first [await]; [parses] tells whether
    [new URL (productUrl)] succeeds. *)
Definition handleUrlFetch (parses : bool) (s : App) : App * list Request * list Task :=
  if negb (Js.truthy_string (productUrl (inp s))) || isFetchingUrl (inp s)
     || bool_decide (3 <= length (files (inp s)))%nat
  then (s, [], [])
  else if negb parses then (setUrlError (Some "Please enter a valid URL.") s, [], [])
  else
    (setError None (setUrlError None (setIsFetchingUrl true s)),
     [GenerateContent "gemini-2.5-flash-lite" (productUrl (inp s))],
     [UrlFetchTask AwaitFindImage]).

(** *** [downloadAsset] (lines 196-211) *)

Definition resumeDownload (pc : DownloadPC) (c : Completion) (s : App)
  : App * list Request * option DownloadPC :=
  match c, pc with
  | Rejected _, _ => (setError (Some "Failed to download asset.") s, [], None)
  | Resolved _, AwaitAsset => (s, [ReadBody], Some AwaitAssetBlob)
  | Resolved _, AwaitAssetBlob => (s, [], None)
  end.

(** ** The whole application as a transition system *)

Record System := { app : App; tasks : list Task; network : list Request }.

Definition initialSystem : System :=
  {| app := initialApp; tasks := []; network := [] |}.

Inductive Event :=
  | ClickGenerate (now : Z)
  | ClickRerun (now : Z)
  | ClickCancel
  | ClickCreateAnother
  | SelectFiles (selectedFiles : option (list File))
  | DropFiles (dropped : option (list File))
  | DragOver
  | DragLeave
  | ClickRemove (index : nat)
  | TypeProductUrl (v : string)
  | ChooseInputMethod (m : InputMethod)
  | ClickFetchImage (parses : bool)
  | ClickDownload (asset : string)
  | ModelLoadError
  | Settle (task : nat) (c : Completion) (now : Z)
  | Tick (h : positive) (now : Z)
  | Render.

Definition optional_task {PC} (mk : PC -> Task) (pc : option PC) : list Task :=
  match pc with Some pc => [mk pc] | None => [] end.

(** Task [t] resumes with completion [c]; the result lists the suspended
    calls that take its place. *)
Definition settle (t : Task) (c : Completion) (now : Z) (s : App)
  : App * list Request * list Task :=
  match t with
  | GenerationTask g pc =>
      let '(s', out, pc') := resumeGeneration g pc c now s in
      (s', out, optional_task (GenerationTask g) pc')
  | RerunTask r selected => rerunContinue now r selected s
  | CancelTask r => (cancelContinue r s, [], [])
  | UrlFetchTask pc =>
      let '(s', out, pc') := resumeUrlFetch pc c s in
      (s', out, optional_task UrlFetchTask pc')
  | DownloadTask pc =>
      let '(s', out, pc') := resumeDownload pc c s in
      (s', out, optional_task DownloadTask pc')
  end.

Definition handler_result (sy : System) (r : App * list Request * list Task) : System :=
  {| app := r.1.1; tasks := tasks sy ++ r.2; network := network sy ++ r.1.2 |}.

Definition pure_handler (sy : System) (s : App) : System :=
  {| app := s; tasks := tasks sy; network := network sy |}.

Definition step (sy : System) (e : Event) : System :=
  match e with
  | ClickGenerate now => handler_result sy (startGeneration now (app sy))
  | ClickRerun now => handler_result sy (rerunImageGenerationStep now (app sy))
  | ClickCancel => handler_result sy (handleCancelGeneration (app sy))
  | ClickCreateAnother => pure_handler sy (reset (currentRender (app sy)) (app sy))
  | SelectFiles selected => pure_handler sy (handleFileChange selected (app sy))
  | DropFiles dropped => pure_handler sy (handleDrop dropped (app sy))
  | DragOver => pure_handler sy (handleDragOver (app sy))
  | DragLeave => pure_handler sy (handleDragLeave (app sy))
  | ClickRemove index => pure_handler sy (removeFile index (app sy))
  | TypeProductUrl v => pure_handler sy (setProductUrl v (app sy))
  | ChooseInputMethod m => pure_handler sy (setInputMethod m (app sy))
  | ClickFetchImage parses => handler_result sy (handleUrlFetch parses (app sy))
  | ClickDownload asset =>
      {| app := app sy; tasks := tasks sy ++ [DownloadTask AwaitAsset];
         network := network sy ++ [HttpGet asset] |}
  | ModelLoadError => pure_handler sy (setError (Some "Failed to load the 3D model.") (app sy))
  | Settle i c now =>
      match tasks sy !! i with
      | Some t =>
          let '(s', out, ts) := settle t c now (app sy) in
          {| app := s'; tasks := delete i (tasks sy) ++ ts; network := network sy ++ out |}
      | None => sy
      end
  | Tick h now => pure_handler sy (tick h now (app sy))
  | Render => pure_handler sy (rerender (app sy))
  end.

Definition run (sy : System) (es : list Event) : System := foldl step sy es.

Definition reachable (sy : System) : Prop := exists es, sy = run initialSystem es.

(** ** Predicates of the statements *)

(** Every run of [m] relates the state before to the state after by [R]. *)
Definition respects (R : App -> App -> Prop) {A} (m : M A) : Prop :=
  forall s, R s (m s).1.1.

(** The input cells are untouched. *)
Definition same_inputs (s s' : App) : Prop := inp s' = inp s.

(** The generation id is untouched. *)
Definition same_generation (s s' : App) : Prop :=
  generationId (refs s') = generationId (refs s).

(** At most three reference images. *)
Definition files_bounded (s : App) : Prop := (length (files (inp s)) <= 3)%nat.

(** The interval table holds the interval [timerIntervalRef] names, and
    nothing else; its handle is older than the next one. *)
Definition timer_inv (s : App) : Prop :=
  match timerIntervalRef (refs s) with
  | Some h => (exists index, intervals (env s) = [(h, index)])
              /\ (h < nextHandle (env s))%positive
  | None => intervals (env s) = []
  end.


(** [s'] has the timer invariant if [s] has it. *)
Definition keeps_timer_inv (s s' : App) : Prop := timer_inv s -> timer_inv s'.

(** [s'] has at most three reference images if [s] has. *)
Definition keeps_files_bounded (s s' : App) : Prop :=
  files_bounded s -> files_bounded s'.

(** The awaits inside the polling loop. *)
Definition in_poll_loop (pc : GenPC) : bool :=
  match pc with
  | AwaitPoll _ | AwaitPollJson _ | AwaitResult _ | AwaitResultJson _ | AwaitDelay _ => true
  | _ => false
  end.

(** How many awaits of the polling loop a continuation standing at [pc]
    can still reach before it comes to a comparison of the ids: the status
    response, its body, the result response and its body are awaited one
    after the other (lines 320-325), and the delay is the last await of an
    iteration (line 334). *)
Definition awaits_left (pc : GenPC) : nat :=
  match pc with
  | AwaitPoll _ => 4
  | AwaitPollJson _ => 3
  | AwaitResult _ => 2
  | AwaitResultJson _ => 1
  | AwaitDelay _ => 1
  | _ => 0
  end.

(** A suspended [performGeneration] that captured [g]. *)
Definition captured (t : Task) : option Z :=
  match t with GenerationTask g _ => Some g | _ => None end.

(** The id a suspended [performGeneration] holds is not ahead of the
    live one. *)
Definition task_bounded (s : App) (t : Task) : Prop :=
  forall g, captured t = Some g -> g <= generationId (refs s).

Definition tasks_bounded (sy : System) : Prop :=
  Forall (task_bounded (app sy)) (tasks sy).

(** A handler's result: the id has not gone back and the calls it
    suspends are bounded. *)
Definition spawn_ok (s : App) (r : App * list Request * list Task) : Prop :=
  generationId (refs s) <= generationId (refs r.1.1)
  /\ Forall (task_bounded r.1.1) r.2.

(** The status of a step after the failure handler ran. *)
Definition failed_status (st : StepStatus) : StepStatus :=
  match st with Loading => Error | other => other end.

(** Interval firings, as events. *)
Definition ticks (l : list (positive * Z)) : list Event :=
  (fun t => Tick t.1 t.2) <$> l.

(** The run started from [sy0] at the reading [start] is the last
    suspended call of [sy]; it is current, stands at [pc], and the steps have
    the statuses [sts]. *)
Definition in_flight (sy0 sy : System) (start : Z) (pc : GenPC)
    (sts : list StepStatus) : Prop :=
  tasks sy = tasks sy0 ++ [GenerationTask (generationId (refs (app sy0)) + 1) pc]
  /\ generationId (refs (app sy)) = generationId (refs (app sy0)) + 1
  /\ status <$> steps (sig (app sy)) = sts
  /\ modelUrl (sig (app sy)) = None
  /\ error (sig (app sy)) = None
  /\ isLoading (sig (app sy)) = true
  /\ generationStartRef (refs (app sy)) = Some start
  /\ totalGenerationTime (sig (app sy)) = None.

(** One round of the polling loop that finds the job still running: the
    status response, its body, the delay, with the clock readings and the
    interval firings in between. *)
Record WaitingRound := {
  round_response : bool * Z;
  round_body : PollBody;
  round_clock : Z * Z * Z;
  round_ticks : list (positive * Z) * list (positive * Z) * list (positive * Z)
}.

Definition still_running (r : WaitingRound) : Prop :=
  poll_status (round_body r) <> Some "COMPLETED"
  /\ poll_status (round_body r) <> Some "ERROR".

Definition round_events (i : nat) (r : WaitingRound) : list Event :=
  Settle i (Resolved (VResponse (round_response r).1 (round_response r).2))
    (round_clock r).1.1
  :: ticks (round_ticks r).1.1
  ++ Settle i (Resolved (VPoll (round_body r))) (round_clock r).1.2
  :: ticks (round_ticks r).1.2
  ++ Settle i (Resolved VUnit) (round_clock r).2
  :: ticks (round_ticks r).2.

(** *** The events of one run of the pipeline *)

(** What the environment chooses in a run: the clock reading of each
    event, the interval firings after each event, and the payloads. *)
Record Choices := {
  run_clock : nat -> Z;
  run_firings : nat -> list (positive * Z);
  run_parts : list InlineData;
  run_views : InlineData * InlineData * InlineData;
  run_resized : string * string * string;
  run_job : SubmitResult;
  run_rounds : list WaitingRound
}.

(** Generate is clicked, the files are read, the three views arrive and are
    resized: the job is being submitted.  [i] is the position of the new
    suspended call. *)
Definition submitting_events (i : nat) (ch : Choices) : list Event :=
  ClickGenerate (run_clock ch 0) :: ticks (run_firings ch 0)
  ++ Settle i (Resolved (VParts (run_parts ch))) (run_clock ch 1)
  :: ticks (run_firings ch 1)
  ++ Settle i (Resolved (VViews (run_views ch).1.1 (run_views ch).1.2 (run_views ch).2))
       (run_clock ch 2)
  :: ticks (run_firings ch 2)
  ++ Settle i (Resolved (VResized (run_resized ch).1.1 (run_resized ch).1.2
                           (run_resized ch).2)) (run_clock ch 3)
  :: ticks (run_firings ch 3).

(** The submission is refused with [body]. *)
Definition submission_refused_events (i : nat) (ch : Choices)
    (http_status : Z) (body : string) : list Event :=
  submitting_events i ch
  ++ Settle i (Resolved (VResponse false http_status)) (run_clock ch 4)
  :: ticks (run_firings ch 4)
  ++ [Settle i (Resolved (VText body)) (run_clock ch 5)].

(** The job is accepted, and the polls of [run_rounds] find it running. *)
Definition polling_events (i : nat) (ch : Choices) : list Event :=
  submitting_events i ch
  ++ Settle i (Resolved (VResponse true 200)) (run_clock ch 4)
  :: ticks (run_firings ch 4)
  ++ Settle i (Resolved (VSubmit (run_job ch))) (run_clock ch 5)
  :: ticks (run_firings ch 5)
  ++ (run_rounds ch ≫= round_events i).

(** The next status body is [pollBody], reporting ERROR. *)
Definition poll_failed_events (i : nat) (ch : Choices) (pollBody : PollBody)
  : list Event :=
  polling_events i ch
  ++ Settle i (Resolved (VResponse true 200)) (run_clock ch 6)
  :: ticks (run_firings ch 6)
  ++ [Settle i (Resolved (VPoll pollBody)) (run_clock ch 7)].

(** The next status body is [pollBody], reporting COMPLETED, and the
    result response arrives. *)
Definition completed_events (i : nat) (ch : Choices) (pollBody : PollBody)
  : list Event :=
  polling_events i ch
  ++ Settle i (Resolved (VResponse true 200)) (run_clock ch 6)
  :: ticks (run_firings ch 6)
  ++ Settle i (Resolved (VPoll pollBody)) (run_clock ch 7)
  :: ticks (run_firings ch 7)
  ++ [Settle i (Resolved (VResponse true 200)) (run_clock ch 8)].

(** ** Scenarios *)

Module Scenario.

Definition photo : File :=
  {| file_name := "chair.png"; file_type := "image/png"; file_data := "iVBOR" |}.

Definition part : InlineData := {| data := "AAAA"; mimeType := "image/png" |}.

Definition job : SubmitResult :=
  {| cancel_url := Some "https://queue.fal.run/requests/1/cancel";
     status_url := "https://queue.fal.run/requests/1/status";
     response_url := "https://queue.fal.run/requests/1" |}.

Definition in_progress : PollBody :=
  {| poll_status := Some "IN_PROGRESS"; poll_logs := None |}.

Definition completed : PollBody :=
  {| poll_status := Some "COMPLETED"; poll_logs := None |}.

Definition failed : PollBody :=
  {| poll_status := Some "ERROR";
     poll_logs := Some [ {| message := Some "out of memory" |};
                         {| message := Some "worker stopped" |} ] |}.

(** [{model_mesh: {url: null}}]. *)
Definition no_mesh : ResultData :=
  {| result_status := None; model_mesh := Some {| mesh_url := None |};
     result_logs := None |}.

Definition mesh : ResultData :=
  {| result_status := None;
     model_mesh := Some {| mesh_url := Some "https://fal.media/files/model.glb" |};
     result_logs := None |}.

(** One image is selected and the user clicks Generate. *)
Definition started : list Event :=
  [ SelectFiles (Some [photo]); ClickGenerate 1000 ].

(** Stage 1 succeeds: stage 2 is loading and the resize is awaited. *)
Definition views_done : list Event :=
  started ++
  [ Tick 1 1100;
    Settle 0 (Resolved (VParts [part])) 1200;
    Settle 0 (Resolved (VViews part part part)) 5000;
    Tick 2 5100 ].

(** The job is being submitted. *)
Definition submitting : list Event :=
  views_done ++ [ Settle 0 (Resolved (VResized "front" "back" "left")) 5200 ].

(** The job is accepted and the first status request is in flight. *)
Definition polling : list Event :=
  submitting ++
  [ Settle 0 (Resolved (VResponse true 200)) 5300;
    Settle 0 (Resolved (VSubmit job)) 5350 ].

(** The status body of the first poll is being read. *)
Definition poll_answered : list Event :=
  polling ++ [ Tick 2 5400; Settle 0 (Resolved (VResponse true 200)) 5450 ].

(** The result body is being read after a COMPLETED status. *)
Definition result_answered : list Event :=
  poll_answered ++
  [ Settle 0 (Resolved (VPoll completed)) 5500;
    Settle 0 (Resolved (VResponse true 200)) 5600 ].

(** The user cancels while the first status request is in flight; the
    status response then arrives for the superseded continuation, which
    is task 1 from then on. *)
Definition cancelled_while_polling : list Event :=
  polling ++ [ ClickCancel; Settle 0 (Resolved (VResponse true 200)) 5400 ].


End Scenario.

(** ** Further functions of the component *)

(** [s.split (c)] for a one-character separator. *)
Fixpoint split_on (c : Ascii.ascii) (s : string) : list string :=
  match s with
  | EmptyString => [EmptyString]
  | String a r =>
      if bool_decide (a = c) then EmptyString :: split_on c r
      else match split_on c r with
           | seg :: rest => String a seg :: rest
           | [] => [String a EmptyString]
           end
  end.

(** The [data] of the part [fileToGenerativePart] builds from the data URL
    [readerResult] the file reader hands over (line 112):
    [readerResult.split (',')[1]], [None] standing for [undefined]. *)
Definition fileToGenerativePart_data (readerResult : string) : option string :=
  split_on ","%char readerResult !! 1%nat.

(** [s.replace (a, b)] for one-character strings [a] and [b]: a string
    pattern replaces the first occurrence only. *)
Fixpoint replace_first (a b : Ascii.ascii) (s : string) : string :=
  match s with
  | EmptyString => EmptyString
  | String x r =>
      if bool_decide (x = a) then String b r else String x (replace_first a b r)
  end.

(** [c.toLowerCase ()] on one ASCII character. *)
Definition lower_ascii (c : Ascii.ascii) : Ascii.ascii :=
  let n := Ascii.nat_of_ascii c in
  if (65 <=? n)%nat && (n <=? 90)%nat then Ascii.ascii_of_nat (n + 32) else c.

(** [s.toLowerCase ()] on an ASCII string (the labels are ASCII). *)
Fixpoint toLowerCase (s : string) : string :=
  match s with
  | EmptyString => EmptyString
  | String c r => String (lower_ascii c) (toLowerCase r)
  end.

(** The file name the download button of a generated image passes to
    [downloadAsset] (line 597):
    [`${img.label.replace (' ', '-').toLowerCase ()}.png`]. *)
Definition image_download_name (img : GeneratedImage) : string :=
  toLowerCase (replace_first " "%char "-"%char (label img)) +:+ ".png".

(** The number of occurrences of [c] in [s]. *)
Fixpoint count_char (c : Ascii.ascii) (s : string) : nat :=
  match s with
  | EmptyString => 0%nat
  | String a r => ((if bool_decide (a = c) then 1 else 0) + count_char c r)%nat
  end.

(** ** Predicates of the further statements *)

(** A suspended [handleUrlFetch]. *)
Definition url_fetch (t : Task) : option UrlPC :=
  match t with UrlFetchTask pc => Some pc | _ => None end.

(** The ids held by the suspended [performGeneration] calls. *)
Definition captured_ids (l : list Task) : list Z := omap captured l.

(** The requests of one round of the polling loop that finds the job
    running: the status body is read, the delay is started, and the status
    is requested again. *)
Definition round_requests (submitResult : SubmitResult) : list Request :=
  [ReadBody; Sleep 5000; HttpGet (status_url submitResult)].

(** The step list holds the two steps of [initialSteps], whatever their
    status and time. *)
Definition steps_ready (s : App) : Prop :=
  name <$> steps (sig s) = name <$> initialSteps.

(** [s'] holds the two steps if [s] does. *)
Definition keeps_steps_ready (s s' : App) : Prop := steps_ready s -> steps_ready s'.

(** What a handler may add to the suspended calls: no [performGeneration],
    or one that holds the id after the live one. *)
Definition fresh_spawn (s : App) (ts : list Task) : Prop :=
  captured_ids ts = [] \/ captured_ids ts = [generationId (refs s) + 1].

(** As many URL fetches are suspended as the flag [isFetchingUrl] says. *)
Definition url_fetch_flagged (sy : System) : Prop :=
  length (omap url_fetch (tasks sy))
  = (if isFetchingUrl (inp (app sy)) then 1 else 0)%nat.

(** The consumer-facing cells a restart of the pipeline leaves before
    [performGeneration] runs. *)
Definition restarted (now : Z) (s s' : App) : Prop :=
  generationId (refs s') = generationId (refs s) + 1
  /\ status <$> steps (sig s') = [Loading; Pending]
  /\ name <$> steps (sig s') = name <$> initialSteps
  /\ generatedImages (sig s') = []
  /\ modelUrl (sig s') = None
  /\ error (sig s') = None
  /\ isLoading (sig s') = true
  /\ totalGenerationTime (sig s') = None
  /\ generationStartRef (refs s') = Some now
  /\ stepStartRef (refs s') = Some now
  /\ inp s' = inp s.

(** The busy flag is backed: while it is set, a suspended call is there
    that clears it when it ends, the current [performGeneration] or a
    [handleCancelGeneration] waiting for its cancel request. *)
Definition busy_backed (sy : System) : Prop :=
  isLoading (sig (app sy)) = true ->
  (exists pc, GenerationTask (generationId (refs (app sy))) pc ∈ tasks sy)
  \/ (exists r, CancelTask r ∈ tasks sy).

(** Every [initialSteps] array of an earlier render still holds the two
    steps of the pipeline, whatever has been written to its objects. *)
Definition closures_named (s : App) : Prop :=
  Forall (fun init => name <$> init = name <$> initialSteps) (superseded (renders s)).

(** So does the step list, unless it is still empty. *)
Definition ledger_named (s : App) : Prop :=
  closures_named s /\ (steps (sig s) = [] \/ steps_ready s).

(** [s'] keeps the names of the steps, in the step list and in the
    [initialSteps] arrays. *)
Definition keeps_ledger (s s' : App) : Prop :=
  ledger_named s -> ledger_named s' /\ (steps_ready s -> steps_ready s').

(** The first step as [updateStep (0, 'loading')] writes it. *)
Definition loading_first_step : Step :=
  {| name := "Generate View Images"; status := Loading; time := TimeFixed2 0 |}.

(** ** Framing: relations every piece of a handler respects *)

Section Frame.

Variable R : App -> App -> Prop.
Hypothesis R_refl : forall s, R s s.
Hypothesis R_trans : forall s1 s2 s3, R s1 s2 -> R s2 s3 -> R s1 s3.

Lemma respects_ret {A} (a : A) : respects R (mret a).
Proof. intros s. apply R_refl. Qed.

Lemma respects_bind {A B} (m : M A) (f : A -> M B) :
  respects R m -> (forall a, respects R (f a)) -> respects R (m ≫= f).
Proof.
  intros Hm Hf s. specialize (Hm s). unfold mbind, M_bind.
  destruct (m s) as [[s1 out1] [a | msg |]]; cbn in *; try assumption.
  specialize (Hf a s1). destruct (f a s1) as [[s2 out2] r]; cbn in *.
  eapply R_trans; eassumption.
Qed.

Lemma respects_write (f : App -> App) : (forall s, R s (f s)) -> respects R (write f).
Proof. intros Hf s. apply Hf. Qed.

Lemma respects_read {A} (f : App -> A) : respects R (read f).
Proof. intros s. apply R_refl. Qed.

Lemma respects_throw {A} (msg : string) : respects R (@throw A msg).
Proof. intros s. apply R_refl. Qed.

Lemma respects_early_return {A} : respects R (@early_return A).
Proof. intros s. apply R_refl. Qed.

Lemma respects_request (r : Request) : respects R (request r).
Proof. intros s. apply R_refl. Qed.

Lemma respects_requests (l : list Request) : respects R (requests l).
Proof. intros s. apply R_refl. Qed.

Lemma respects_when (b : bool) (m : M unit) : respects R m -> respects R (when_ b m).
Proof. intros Hm. destruct b; [exact Hm | apply respects_ret]. Qed.

Lemma respects_await (c : Completion) : respects R (await c).
Proof. destruct c; [apply respects_ret | apply respects_throw]. Qed.

Lemma respects_guard (g : Z) : respects R (guard g).
Proof.
  unfold guard. apply respects_bind; [apply respects_read |].
  intros cur. destruct (cur =? g); [apply respects_ret | apply respects_early_return].
Qed.

Lemma respects_trySegment {PC} (body : M (option PC)) handler fin :
  respects R body -> (forall msg, respects R (handler msg)) -> respects R fin ->
  forall s, R s (trySegment body handler fin s).1.1.
Proof.
  intros Hb Hh Hf s. unfold trySegment. specialize (Hb s).
  destruct (body s) as [[s1 out1] [[pc |] | msg |]]; cbn in *.
  - assumption.
  - specialize (Hf s1). destruct (fin s1) as [[s2 out2] r]; cbn in *.
    eapply R_trans; eassumption.
  - specialize (Hh msg s1). destruct (handler msg s1) as [[s2 out2] r]; cbn in *.
    specialize (Hf s2). destruct (fin s2) as [[s3 out3] r']; cbn in *.
    eauto.
  - specialize (Hf s1). destruct (fin s1) as [[s2 out2] r]; cbn in *.
    eapply R_trans; eassumption.
Qed.

End Frame.

Create HintDb frame discriminated.

#[global] Hint Resolve respects_ret respects_write respects_read respects_throw
  respects_early_return respects_request respects_requests respects_when
  respects_await respects_guard : frame.

(** Decompose a handler into its pieces. *)
Ltac frame_step :=
  match goal with
  | |- respects _ (mbind _ _) => apply respects_bind; [| | intros ?]
  | |- respects _ (match ?x with _ => _ end) => destruct x
  | |- respects _ (if ?b then _ else _) => destruct b
  | |- respects _ (let _ := _ in _) => cbv zeta
  | |- respects _ (when_ _ _) => apply respects_when
  end.

Ltac frame := repeat (first [ frame_step | solve [eauto with frame] ]).

(** Unfold the monadic plumbing of a handler applied to a state. *)
Ltac run_m :=
  cbv [mbind M_bind mret M_ret write read throw early_return request requests
       when_ await guard startInterval setInterval] in *; cbn in *.

(** [updateStep] respects every relation that its writes respect. *)
Section LedgerFrame.

Variable R : App -> App -> Prop.
Hypothesis R_refl : forall s, R s s.
Hypothesis R_trans : forall s1 s2 s3, R s1 s2 -> R s2 s3 -> R s1 s3.
Hypothesis R_sig : forall f s, R s (upd_sig f s).
Hypothesis R_env : forall f s, R s (upd_env f s).
Hypothesis R_renders : forall f s, R s (upd_renders f s).
Hypothesis R_timerIntervalRef : forall v s, R s (set_timerIntervalRef v s).
Hypothesis R_stepStartRef : forall v s, R s (set_stepStartRef v s).

Lemma respects_writeThrough_write index v s : R s (writeThrough index v s).
Proof. apply R_renders. Qed.

Lemma respects_rerender_step s : R s (rerender s).
Proof. apply R_renders. Qed.

Local Hint Resolve R_refl R_trans R_sig R_env respects_writeThrough_write
  respects_rerender_step R_timerIntervalRef R_stepStartRef : frame.

Lemma respects_stopTimer : respects R stopTimer.
Proof. unfold stopTimer. frame. Qed.

Lemma respects_startInterval index : respects R (startInterval index).
Proof. intros s. apply R_env. Qed.

Local Hint Resolve respects_stopTimer respects_startInterval : frame.

Lemma respects_updateStep index st now : respects R (updateStep index st now).
Proof. unfold updateStep. frame. Qed.

End LedgerFrame.

(** The pieces of [performGeneration] respect every relation that the
    writes they are made of respect. *)
Section PipelineFrame.

Variable R : App -> App -> Prop.
Hypothesis R_refl : forall s, R s s.
Hypothesis R_trans : forall s1 s2 s3, R s1 s2 -> R s2 s3 -> R s1 s3.
Hypothesis R_sig : forall f s, R s (upd_sig f s).
Hypothesis R_renders : forall f s, R s (upd_renders f s).
Hypothesis R_falCancelUrl : forall v s, R s (set_falCancelUrl v s).
Hypothesis R_generationStartRef : forall v s, R s (set_generationStartRef v s).
Hypothesis R_updateStep : forall index st now, respects R (updateStep index st now).

Lemma respects_releaseSteps_write fresh s : R s (releaseSteps fresh s).
Proof. apply R_renders. Qed.

Lemma respects_rerender_write s : R s (rerender s).
Proof. apply R_renders. Qed.

Local Hint Resolve R_refl R_trans R_sig respects_releaseSteps_write
  respects_rerender_write R_falCancelUrl R_generationStartRef R_updateStep : frame.

Lemma respects_generationBody g pc c now : respects R (generationBody g pc c now).
Proof. unfold generationBody, pollLoopHead, afterPolling. frame. Qed.

Lemma respects_generationCatch g msg : respects R (generationCatch g msg).
Proof. unfold generationCatch. frame. Qed.

Lemma respects_generationFinally g : respects R (generationFinally g).
Proof. unfold generationFinally. frame. Qed.

Lemma respects_resumeGeneration g pc c now s :
  R s (resumeGeneration g pc c now s).1.1.
Proof.
  apply (respects_trySegment R R_trans).
  - apply respects_generationBody.
  - apply respects_generationCatch.
  - apply respects_generationFinally.
Qed.

(** The first segment of [performGeneration], after the id is bumped. *)
Lemma respects_performGeneration now selected s :
  R (set_generationId (generationId (refs s) + 1) s)
    (performGeneration now selected s).1.1.1.
Proof.
  unfold performGeneration.
  match goal with
  | |- context [trySegment ?b ?h ?f ?s0] =>
      pose proof (respects_trySegment R R_trans b h f) as Hseg;
      specialize (Hseg ltac:(frame)
                       ltac:(intros; apply respects_generationCatch)
                       ltac:(apply respects_generationFinally) s0);
      destruct (trySegment b h f s0) as [[s1 out] pc]
  end.
  exact Hseg.
Qed.

End PipelineFrame.

(** [handleUrlFetch] writes input cells only. *)
Section UrlFetchFrame.

Variable R : App -> App -> Prop.
Hypothesis R_refl : forall s, R s s.
Hypothesis R_trans : forall s1 s2 s3, R s1 s2 -> R s2 s3 -> R s1 s3.
Hypothesis R_productUrl : forall v s, R s (setProductUrl v s).
Hypothesis R_inputMethod : forall v s, R s (setInputMethod v s).
Hypothesis R_isFetchingUrl : forall v s, R s (setIsFetchingUrl v s).
Hypothesis R_urlError : forall v s, R s (setUrlError v s).
Hypothesis R_addFile : forall f s, R s (setFiles (Js.slice0 (files (inp s) ++ [f]) 3) s).

Local Hint Resolve R_refl R_trans R_productUrl R_inputMethod R_isFetchingUrl
  R_urlError : frame.

Lemma respects_resumeUrlFetch pc c s : R s (resumeUrlFetch pc c s).1.1.
Proof.
  apply (respects_trySegment R R_trans).
  - unfold urlFetchBody. frame.
  - intros msg. unfold urlFetchCatch. frame.
  - unfold urlFetchFinally. frame.
Qed.

End UrlFetchFrame.

(** A property of the application state that every handler keeps holds
    after every event. *)
Section SystemInvariant.

Variable P : App -> Prop.
Hypothesis P_startGeneration : forall now s, P s -> P (startGeneration now s).1.1.
Hypothesis P_rerunContinue :
  forall now r selected s, P s -> P (rerunContinue now r selected s).1.1.
Hypothesis P_generationId :
  forall s, P s -> P (set_generationId (generationId (refs s) + 1) s).
Hypothesis P_cancelContinue : forall r s, P s -> P (cancelContinue r s).
Hypothesis P_reset : forall r s, P s -> P (reset r s).
Hypothesis P_rerender : forall s, P s -> P (rerender s).
Hypothesis P_handleFileChange : forall sel s, P s -> P (handleFileChange sel s).
Hypothesis P_isDragging : forall v s, P s -> P (setIsDragging v s).
Hypothesis P_removeFile : forall i s, P s -> P (removeFile i s).
Hypothesis P_productUrl : forall v s, P s -> P (setProductUrl v s).
Hypothesis P_inputMethod : forall v s, P s -> P (setInputMethod v s).
Hypothesis P_handleUrlFetch : forall b s, P s -> P (handleUrlFetch b s).1.1.
Hypothesis P_error : forall v s, P s -> P (setError v s).
Hypothesis P_resumeGeneration :
  forall g pc c now s, P s -> P (resumeGeneration g pc c now s).1.1.
Hypothesis P_resumeUrlFetch : forall pc c s, P s -> P (resumeUrlFetch pc c s).1.1.
Hypothesis P_tick : forall h now s, P s -> P (tick h now s).

Lemma invariant_rerun now s : P s -> P (rerunImageGenerationStep now s).1.1.
Proof.
  intros H. unfold rerunImageGenerationStep.
  destruct (falCancelUrl (refs s)) as [u |]; [destruct (Js.truthy_string u) |];
    auto.
Qed.

Lemma invariant_cancel s : P s -> P (handleCancelGeneration s).1.1.
Proof.
  intros H. unfold handleCancelGeneration.
  destruct (falCancelUrl (refs (set_generationId _ s))) as [u |];
    [destruct (Js.truthy_string u) |]; cbn [fst]; auto.
Qed.

Lemma invariant_settle t c now s : P s -> P (settle t c now s).1.1.
Proof.
  intros H. destruct t as [g pc | r selected | r | pc | pc]; cbn [settle].
  - specialize (P_resumeGeneration g pc c now s H).
    destruct (resumeGeneration g pc c now s) as [[s' out] pc']. exact P_resumeGeneration.
  - auto.
  - cbn. auto.
  - specialize (P_resumeUrlFetch pc c s H).
    destruct (resumeUrlFetch pc c s) as [[s' out] pc']. exact P_resumeUrlFetch.
  - destruct c, pc; cbn; auto.
Qed.

Lemma invariant_step sy e : P (app sy) -> P (app (step sy e)).
Proof.
  intros H. destruct e; cbn [step handler_result pure_handler app]; auto.
  - apply invariant_rerun, H.
  - apply invariant_cancel, H.
  - unfold handleDrop. auto.
  - unfold handleDragOver. auto.
  - unfold handleDragLeave. auto.
  - destruct (tasks sy !! task) as [t |]; [| exact H].
    pose proof (invariant_settle t c now (app sy) H) as Hs.
    destruct (settle t c now (app sy)) as [[s' out] ts]. exact Hs.
Qed.

Lemma invariant_run sy es : P (app sy) -> P (app (run sy es)).
Proof.
  revert sy. induction es as [| e es IH]; intros sy H; [exact H |].
  cbn. apply IH, invariant_step, H.
Qed.

End SystemInvariant.

(** ** The [initialSteps] array of the current render *)

(** A render that is not superseded has its [initialSteps] as created. *)
Lemma initialStepsOf_pristine r s :
  (length (superseded (renders s)) <= r)%nat -> initialStepsOf r s = initialSteps.
Proof.
  intros Hr. unfold initialStepsOf.
  rewrite (lookup_ge_None_2 (superseded (renders s)) r Hr). reflexivity.
Qed.


(** The handler of a click installs the two pending steps. *)
Ltac current_render :=
  rewrite ?(initialStepsOf_pristine (currentRender _)) by exact (Nat.le_refl _).

(** ** The pipeline leaves the input cells alone *)

Lemma same_inputs_refl s : same_inputs s s.
Proof. reflexivity. Qed.

Lemma same_inputs_trans s1 s2 s3 :
  same_inputs s1 s2 -> same_inputs s2 s3 -> same_inputs s1 s3.
Proof. unfold same_inputs. congruence. Qed.

Lemma same_inputs_updateStep index st now :
  respects same_inputs (updateStep index st now).
Proof.
  apply (respects_updateStep same_inputs same_inputs_refl same_inputs_trans); reflexivity.
Qed.

Lemma resumeGeneration_inputs g pc c now s :
  inp (resumeGeneration g pc c now s).1.1 = inp s.
Proof.
  apply (respects_resumeGeneration same_inputs same_inputs_refl same_inputs_trans);
    try reflexivity.
  apply same_inputs_updateStep.
Qed.

Lemma performGeneration_inputs now selected s :
  inp (performGeneration now selected s).1.1.1 = inp s.
Proof.
  apply (respects_performGeneration same_inputs same_inputs_refl same_inputs_trans);
    try reflexivity.
  apply same_inputs_updateStep.
Qed.

Lemma tick_inputs h now s : inp (tick h now s) = inp s.
Proof.
  unfold tick, intervalCallback. repeat case_match; reflexivity.
Qed.

(** ** The generation id moves only at a new generation and at a cancel *)

Lemma same_generation_refl s : same_generation s s.
Proof. reflexivity. Qed.

Lemma same_generation_trans s1 s2 s3 :
  same_generation s1 s2 -> same_generation s2 s3 -> same_generation s1 s3.
Proof. unfold same_generation. congruence. Qed.

Lemma same_generation_updateStep index st now :
  respects same_generation (updateStep index st now).
Proof.
  apply (respects_updateStep same_generation same_generation_refl same_generation_trans);
    reflexivity.
Qed.

Lemma resumeGeneration_generationId g pc c now s :
  generationId (refs (resumeGeneration g pc c now s).1.1) = generationId (refs s).
Proof.
  apply (respects_resumeGeneration same_generation same_generation_refl
           same_generation_trans); try reflexivity.
  apply same_generation_updateStep.
Qed.

Lemma performGeneration_generationId now selected s :
  generationId (refs (performGeneration now selected s).1.1.1) = generationId (refs s) + 1.
Proof.
  pose proof (respects_performGeneration same_generation same_generation_refl
                same_generation_trans) as H.
  unfold same_generation in H. rewrite H; try reflexivity.
  apply same_generation_updateStep.
Qed.

(** [performGeneration] captures the id it has just installed. *)
Lemma performGeneration_captures now selected s :
  (performGeneration now selected s).1.2 = generationId (refs s) + 1.
Proof.
  unfold performGeneration.
  match goal with |- context [trySegment ?b ?h ?f ?s0] =>
    destruct (trySegment b h f s0) as [[s1 out] pc] end.
  reflexivity.
Qed.

(** ** At most one interval runs *)

Lemma stopTimer_stops s :
  timer_inv s ->
  intervals (env (stopTimer s).1.1) = []
  /\ timerIntervalRef (refs (stopTimer s).1.1) = None.
Proof.
  unfold timer_inv, stopTimer. run_m.
  destruct (timerIntervalRef (refs s)) as [h |] eqn:Href; cbn.
  - intros [[i Hi] _]. rewrite Hi. cbn. case_decide; [congruence | done].
  - intros ->. done.
Qed.

Lemma stopTimer_frame s :
  sig (stopTimer s).1.1 = sig s /\ inp (stopTimer s).1.1 = inp s
  /\ generationId (refs (stopTimer s).1.1) = generationId (refs s)
  /\ falCancelUrl (refs (stopTimer s).1.1) = falCancelUrl (refs s)
  /\ stepStartRef (refs (stopTimer s).1.1) = stepStartRef (refs s)
  /\ generationStartRef (refs (stopTimer s).1.1) = generationStartRef (refs s)
  /\ (stopTimer s).1.2 = [] /\ (stopTimer s).2 = Normal tt.
Proof.
  unfold stopTimer. run_m. destruct (timerIntervalRef (refs s)); cbn; done.
Qed.

Lemma keeps_timer_inv_refl s : keeps_timer_inv s s.
Proof. intros H. exact H. Qed.

Lemma keeps_timer_inv_trans s1 s2 s3 :
  keeps_timer_inv s1 s2 -> keeps_timer_inv s2 s3 -> keeps_timer_inv s1 s3.
Proof. unfold keeps_timer_inv. auto. Qed.

Lemma updateStep_timer_inv index st now :
  respects keeps_timer_inv (updateStep index st now).
Proof.
  intros s Hinv. destruct (stopTimer_stops s Hinv) as [Hi Hr].
  pose proof (stopTimer_frame s) as (_ & _ & _ & _ & _ & _ & _ & Hn).
  unfold updateStep. unfold mbind at 1. unfold M_bind at 1.
  destruct (stopTimer s) as [[s1 out1] r1].
  cbn in Hi, Hr, Hn. subst r1.
  unfold timer_inv. run_m.
  destruct st; destruct (steps (sig s1) !! index); cbn; rewrite ?Hr, ?Hi;
    try reflexivity.
  split; [eexists; reflexivity | lia].
Qed.

Lemma resumeGeneration_timer_inv g pc c now s :
  timer_inv s -> timer_inv (resumeGeneration g pc c now s).1.1.
Proof.
  apply (respects_resumeGeneration keeps_timer_inv keeps_timer_inv_refl
           keeps_timer_inv_trans); try (intros; intros H; exact H).
  apply updateStep_timer_inv.
Qed.

Lemma performGeneration_timer_inv now selected s :
  timer_inv s -> timer_inv (performGeneration now selected s).1.1.1.
Proof.
  intros H.
  apply (respects_performGeneration keeps_timer_inv keeps_timer_inv_refl
           keeps_timer_inv_trans); try (intros; intros H'; exact H').
  - apply updateStep_timer_inv.
  - exact H.
Qed.

Lemma tick_timer_inv h now s : timer_inv s -> timer_inv (tick h now s).
Proof.
  unfold tick, intervalCallback. repeat case_match; intros Hinv; exact Hinv.
Qed.

(** ** The timer invariant holds in every reachable state *)

Lemma startGeneration_timer_inv now s :
  timer_inv s -> timer_inv (startGeneration now s).1.1.
Proof.
  intros H. unfold startGeneration.
  destruct (_ || _); [exact H |].
  unfold spawnGeneration.
  match goal with |- context [performGeneration now ?sel ?s0] =>
    pose proof (performGeneration_timer_inv now sel s0 H) as Hp;
    destruct (performGeneration now sel s0) as [[[s1 out] g] pc] end.
  exact Hp.
Qed.

Lemma rerunContinue_timer_inv now r selected s :
  timer_inv s -> timer_inv (rerunContinue now r selected s).1.1.
Proof.
  intros H. unfold rerunContinue, spawnGeneration.
  match goal with |- context [performGeneration now ?sel ?s0] =>
    pose proof (performGeneration_timer_inv now sel s0 H) as Hp;
    destruct (performGeneration now sel s0) as [[[s1 out] g] pc] end.
  exact Hp.
Qed.

Lemma cancelContinue_timer r s :
  timer_inv s ->
  timerIntervalRef (refs (cancelContinue r s)) = None
  /\ intervals (env (cancelContinue r s)) = [].
Proof.
  intros H. destruct (stopTimer_stops s H) as [Hi Hr].
  unfold cancelContinue. split; cbn; assumption.
Qed.

Lemma cancelContinue_timer_inv r s : timer_inv s -> timer_inv (cancelContinue r s).
Proof.
  intros H. destruct (cancelContinue_timer r s H) as [Hr Hi].
  unfold timer_inv. rewrite Hr. exact Hi.
Qed.

Lemma handleUrlFetch_timer_inv b s : timer_inv s -> timer_inv (handleUrlFetch b s).1.1.
Proof.
  intros H. unfold handleUrlFetch.
  destruct (_ || _); [exact H |]. destruct (negb b); exact H.
Qed.

Lemma resumeUrlFetch_timer_inv pc c s :
  timer_inv s -> timer_inv (resumeUrlFetch pc c s).1.1.
Proof.
  apply (respects_resumeUrlFetch keeps_timer_inv keeps_timer_inv_refl
           keeps_timer_inv_trans); intros; intros Hinv; exact Hinv.
Qed.

Lemma timer_inv_initial : timer_inv initialApp.
Proof. reflexivity. Qed.

Lemma handleFileChange_timer_inv sel s :
  timer_inv s -> timer_inv (handleFileChange sel s).
Proof. intros H. destruct sel; exact H. Qed.

Ltac timer_inv_handler :=
  first [ apply startGeneration_timer_inv | apply rerunContinue_timer_inv
        | apply cancelContinue_timer_inv | apply handleUrlFetch_timer_inv
        | apply resumeGeneration_timer_inv | apply resumeUrlFetch_timer_inv
        | apply tick_timer_inv | apply handleFileChange_timer_inv
        | apply timer_inv_initial | (intros; assumption) ].

Lemma timer_inv_step sy e : timer_inv (app sy) -> timer_inv (app (step sy e)).
Proof.
  apply invariant_step; timer_inv_handler.
Qed.

Lemma timer_inv_reachable sy : reachable sy -> timer_inv (app sy).
Proof.
  intros [es ->]. apply invariant_run; timer_inv_handler.
Qed.

(** ** At most three reference images in every reachable state *)

Lemma slice0_length {A} (l : list A) (n : Z) :
  0 <= n -> (length (Js.slice0 l n) <= Z.to_nat n)%nat.
Proof.
  intros Hn. unfold Js.slice0. destruct (Z.ltb_spec n 0); [lia |].
  rewrite length_take. lia.
Qed.

Lemma slice0_take {A} (l : list A) (n : Z) :
  0 <= n -> Js.slice0 l n = take (Z.to_nat n) l.
Proof.
  intros Hn. unfold Js.slice0. destruct (Z.ltb_spec n 0); [lia | reflexivity].
Qed.

Lemma handleFileChange_files selected s :
  files_bounded s ->
  files (inp (handleFileChange (Some selected) s))
  = files (inp s) ++ take (3 - length (files (inp s))) selected.
Proof.
  unfold files_bounded. intros H. cbn. rewrite slice0_take by lia.
  do 2 f_equal. lia.
Qed.

Lemma handleFileChange_bounded sel s :
  files_bounded s -> files_bounded (handleFileChange sel s).
Proof.
  intros H. destruct sel as [selected |]; [| exact H].
  unfold files_bounded in *. rewrite handleFileChange_files by exact H.
  rewrite length_app, length_take. lia.
Qed.

Lemma delete_length_le {A} (l : list A) (i : nat) :
  (length (delete i l) <= length l)%nat.
Proof.
  revert i. induction l as [| x l IH]; intros [| i]; simpl; try lia.
  specialize (IH i). lia.
Qed.

Lemma removeFile_bounded i s : files_bounded s -> files_bounded (removeFile i s).
Proof.
  unfold files_bounded. cbn. intros H.
  pose proof (delete_length_le (files (inp s)) i). lia.
Qed.

Lemma same_inputs_keeps_bound s s' :
  inp s' = inp s -> files_bounded s -> files_bounded s'.
Proof. unfold files_bounded. intros ->. auto. Qed.

Lemma startGeneration_inputs now s : inp (startGeneration now s).1.1 = inp s.
Proof.
  unfold startGeneration. destruct (_ || _); [reflexivity |].
  unfold spawnGeneration.
  match goal with |- context [performGeneration now ?sel ?s0] =>
    pose proof (performGeneration_inputs now sel s0) as Hp;
    destruct (performGeneration now sel s0) as [[[s1 out] g] pc] end.
  exact Hp.
Qed.

Lemma rerunContinue_inputs now r selected s :
  inp (rerunContinue now r selected s).1.1 = inp s.
Proof.
  unfold rerunContinue, spawnGeneration.
  match goal with |- context [performGeneration now ?sel ?s0] =>
    pose proof (performGeneration_inputs now sel s0) as Hp;
    destruct (performGeneration now sel s0) as [[[s1 out] g] pc] end.
  exact Hp.
Qed.

Lemma cancelContinue_files r s : files (inp (cancelContinue r s)) = [].
Proof. reflexivity. Qed.

Lemma handleUrlFetch_files b s : files (inp (handleUrlFetch b s).1.1) = files (inp s).
Proof.
  unfold handleUrlFetch. destruct (_ || _); [reflexivity |].
  destruct (negb b); reflexivity.
Qed.

Lemma resumeUrlFetch_bounded pc c s :
  files_bounded s -> files_bounded (resumeUrlFetch pc c s).1.1.
Proof.
  apply (respects_resumeUrlFetch keeps_files_bounded);
    try (intros; intros Hb; exact Hb).
  - unfold keeps_files_bounded. auto.
  - intros f s' _. unfold files_bounded, setFiles, upd_inp. cbn [files inp].
    pose proof (slice0_length (files (inp s') ++ [f]) 3 ltac:(lia)). lia.
Qed.

Ltac files_bounded_handler :=
  first [ apply handleFileChange_bounded | apply removeFile_bounded
        | apply resumeUrlFetch_bounded
        | (intros; eapply same_inputs_keeps_bound;
           [ first [ apply startGeneration_inputs | apply rerunContinue_inputs
                   | apply resumeGeneration_inputs | apply tick_inputs ]
           | assumption ])
        | (intros; unfold files_bounded in *;
           rewrite ?cancelContinue_files, ?handleUrlFetch_files; cbn; first [assumption | lia]) ].

Lemma files_bounded_run sy es :
  files_bounded (app sy) -> files_bounded (app (run sy es)).
Proof. apply invariant_run; files_bounded_handler. Qed.

(** C10. After every sequence of events (file selection, drop, removal,
    URL fetch and all the others) the list of reference images has at most
    three entries; a selection or a drop adds only as many of the chosen
    files as still fit, and the URL fetch does nothing when three images are
    present. *)
Theorem files_never_exceed_three (es : list Event) :
  let s := app (run initialSystem es) in
  (length (files (inp s)) <= 3)%nat
  /\ (forall selected,
        files (inp (handleFileChange (Some selected) s))
        = files (inp s) ++ take (3 - length (files (inp s))) selected
        /\ files (inp (handleDrop (Some selected) s))
           = files (inp s) ++ take (3 - length (files (inp s))) selected)
  /\ (forall parses,
        length (files (inp s)) = 3%nat -> handleUrlFetch parses s = (s, [], [])).
Proof.
  intros s.
  assert (Hb : files_bounded s).
  { apply files_bounded_run. unfold files_bounded. cbn. lia. }
  split; [exact Hb |]. split.
  - intros selected. split.
    + apply handleFileChange_files, Hb.
    + unfold handleDrop. rewrite handleFileChange_files by exact Hb. reflexivity.
  - intros parses H3. unfold handleUrlFetch. rewrite H3.
    rewrite bool_decide_eq_true_2 by lia.
    rewrite orb_true_r. reflexivity.
Qed.

(** Three images are selected, two more are then dropped and a URL fetch
    is tried: the list still holds the first three. *)
Lemma files_never_exceed_three_example :
  let es := [ SelectFiles (Some [Scenario.photo; Scenario.photo]);
              DropFiles (Some [Scenario.photo; Scenario.photo; Scenario.photo]) ] in
  let s := app (run initialSystem es) in
  length (files (inp s)) = 3%nat
  /\ files (inp (handleFileChange (Some [Scenario.photo]) s)) = files (inp s)
  /\ handleUrlFetch true s = (s, [], []).
Proof.
  intros es s.
  destruct (files_never_exceed_three es) as (Hlen & Hadd & Hurl). fold s in Hlen, Hadd, Hurl.
  assert (H3 : length (files (inp s)) = 3%nat) by reflexivity.
  split; [exact H3 |]. split.
  - rewrite (proj1 (Hadd [Scenario.photo])). rewrite H3. cbn. apply app_nil_r.
  - exact (Hurl true H3).
Defined.

(** ** Image normalisation *)

Section Normalisation.

(** [Js.round_div a b] is the integer nearest to [a / b], a half going up. *)
Lemma round_div_nearest (a b : Z) :
  0 <= a -> 0 < b ->
  2 * a - b < 2 * b * Js.round_div a b <= 2 * a + b.
Proof.
  intros Ha Hb. unfold Js.round_div.
  pose proof (Z.mul_div_le (2 * a + b) (2 * b) ltac:(lia)) as Hle.
  pose proof (Z.mul_succ_div_gt (2 * a + b) (2 * b) ltac:(lia)) as Hgt.
  generalize dependent ((2 * a + b) / (2 * b)). intros q Hle Hgt. lia.
Qed.

Lemma round_div_le (a b m : Z) :
  0 <= a -> 0 < b -> a <= m * b -> Js.round_div a b <= m.
Proof.
  intros Ha Hb Hle.
  pose proof (round_div_nearest a b Ha Hb) as [_ Hhi].
  nia.
Qed.

End Normalisation.

(** C7. For an image of width [w] and height [h] and the maximum dimension
    1024: when the longer side exceeds 1024 it becomes 1024 and the shorter
    side becomes [Math.round (shorter * 1024 / longer)]; when both sides are
    within bounds the dimensions are unchanged; the new dimensions keep the
    aspect ratio up to that rounding (the cross product is off by at most
    half the longer side), and 2000 x 1000 yields 1024 x 512. *)
Theorem resizeImage_caps_longer_side (w h : Z) :
  0 <= w -> 0 <= h ->
  let d := resizeImage_dims w h 1024 in
  (1024 < Z.max w h ->
     Z.max d.1 d.2 = 1024
     /\ (h < w -> d = (1024, Js.round_div (h * 1024) w))
     /\ (w <= h -> d = (Js.round_div (w * 1024) h, 1024)))
  /\ (Z.max w h <= 1024 -> d = (w, h))
  /\ 2 * Z.abs (d.1 * h - d.2 * w) <= Z.max w h
  /\ resizeImage_dims 2000 1000 1024 = (1024, 512).
Proof.
  intros Hw Hh d. subst d. unfold resizeImage_dims.
  destruct (Z.ltb_spec h w) as [Hlt | Hge];
    [destruct (Z.ltb_spec 1024 w) as [Hbig | Hsmall]
    |destruct (Z.ltb_spec 1024 h) as [Hbig | Hsmall]]; cbn [fst snd].
  - pose proof (round_div_nearest (h * 1024) w ltac:(lia) ltac:(lia)) as Hn.
    pose proof (round_div_le (h * 1024) w 1024 ltac:(lia) ltac:(lia) ltac:(lia)) as Hcap.
    repeat split; try reflexivity; try lia.
  - repeat split; try reflexivity; try lia.
  - pose proof (round_div_nearest (w * 1024) h ltac:(lia) ltac:(lia)) as Hn.
    pose proof (round_div_le (w * 1024) h 1024 ltac:(lia) ltac:(lia) ltac:(lia)) as Hcap.
    repeat split; try reflexivity; try lia.
  - repeat split; try reflexivity; try lia.
Qed.

(** The example of the specification, through the theorem. *)
Lemma resizeImage_2000_1000 :
  resizeImage_dims 2000 1000 1024 = (1024, Js.round_div (1000 * 1024) 2000)
  /\ Js.round_div (1000 * 1024) 2000 = 512.
Proof.
  pose proof (resizeImage_caps_longer_side 2000 1000 ltac:(lia) ltac:(lia)) as [Hbig _].
  destruct (Hbig ltac:(lia)) as (_ & Hwide & _).
  split; [exact (Hwide ltac:(lia)) | reflexivity].
Defined.

(** ** The ledger's timer discipline *)

Lemma stopTimer_normal s :
  stopTimer s = ((stopTimer s).1.1, [], Normal tt).
Proof. unfold stopTimer. run_m. destruct (timerIntervalRef (refs s)); reflexivity. Qed.

Lemma bind_stopTimer {A} (k : unit -> M A) s :
  (stopTimer ≫= k) s = k tt (stopTimer s).1.1.
Proof.
  unfold mbind, M_bind. rewrite (stopTimer_normal s). cbn.
  destruct (k tt _) as [[s2 out2] r]. reflexivity.
Qed.

Lemma stopTimer_idem s : (stopTimer (stopTimer s).1.1).1.1 = (stopTimer s).1.1.
Proof.
  unfold stopTimer. run_m. destruct (timerIntervalRef (refs s)) eqn:E; cbn.
  - reflexivity.
  - rewrite E. reflexivity.
Qed.

(** Stopping a stopped timer does nothing, so [updateStep] may be read on
    the state its first statement leaves. *)
Lemma updateStep_after_stop index newStatus now s :
  updateStep index newStatus now s
  = updateStep index newStatus now (stopTimer s).1.1.
Proof.
  unfold updateStep. rewrite !bind_stopTimer, stopTimer_idem. reflexivity.
Qed.

(** What [updateStep] leaves in the interval table. *)
Lemma updateStep_intervals index newStatus now s :
  timer_inv s ->
  let s' := (updateStep index newStatus now s).1.1 in
  intervals (env s')
  = match newStatus, steps (sig s) !! index with
    | Loading, Some _ => [(nextHandle (env s), index)]
    | _, _ => []
    end
  /\ (newStatus <> Loading -> timerIntervalRef (refs s') = None).
Proof.
  intros Hinv s'. subst s'. destruct (stopTimer_stops s Hinv) as [Hi Hr].
  pose proof (stopTimer_frame s) as (Hsig & _).
  assert (Hnext : nextHandle (env (stopTimer s).1.1) = nextHandle (env s)).
  { unfold stopTimer. run_m. destruct (timerIntervalRef (refs s)); reflexivity. }
  rewrite updateStep_after_stop.
  destruct (stopTimer s) as [[s1 out1] r1]. cbn in Hi, Hr, Hsig, Hnext. cbn [fst snd].
  rewrite <- Hsig, <- Hnext. unfold updateStep, stopTimer. run_m. rewrite Hr.
  destruct newStatus; destruct (steps (sig s1) !! index); cbn; rewrite ?Hi, ?Hr;
    split; (reflexivity || (intros; congruence)).
Qed.

(** [updateStep] to ['done'] or ['error'] freezes the time of a loading
    step at the elapsed value, when the start reading is truthy. *)
Lemma updateStep_freezes index newStatus now s st start :
  steps (sig s) !! index = Some st ->
  status st = Loading ->
  stepStartRef (refs s) = Some start ->
  start <> 0 ->
  newStatus <> Loading ->
  let s' := (updateStep index newStatus now s).1.1 in
  steps (sig s') !! index
  = Some {| name := name st; status := newStatus; time := TimeFixed2 (now - start) |}
  /\ stepStartRef (refs s') = None.
Proof.
  intros Hst Hload Hstart Hnz Hnew s'. subst s'.
  pose proof (stopTimer_frame s) as (Hsig & _ & _ & _ & Hss & _).
  assert (Hr : timerIntervalRef (refs (stopTimer s).1.1) = None).
  { unfold stopTimer. run_m. destruct (timerIntervalRef (refs s)) eqn:E; cbn; auto. }
  rewrite updateStep_after_stop.
  destruct (stopTimer s) as [[s1 out1] r1]. cbn in Hsig, Hss, Hr. cbn [fst snd].
  rewrite <- Hsig in Hst. rewrite <- Hss in Hstart.
  assert (Hlt : (index < length (steps (sig s1)))%nat) by (eapply lookup_lt_Some, Hst).
  assert (Htruthy : Js.truthy_number start = true).
  { unfold Js.truthy_number. destruct (Z.eqb_spec start 0); [contradiction | reflexivity]. }
  unfold updateStep, stopTimer. run_m. rewrite Hr, Hst.
  destruct newStatus; try contradiction; cbn;
    rewrite Hstart, Hload; cbn; rewrite Htruthy; cbn;
    (split; [| reflexivity]);
    rewrite list_lookup_insert_eq by exact Hlt; reflexivity.
Qed.

(** A tick never touches a step that is not loading. *)
Lemma tick_not_loading h now s i st :
  steps (sig s) !! i = Some st ->
  status st <> Loading ->
  steps (sig (tick h now s)) !! i = Some st.
Proof.
  intros Hst Hnl. unfold tick, intervalCallback.
  destruct (interval_index h (intervals (env s))) as [index |]; [| exact Hst].
  destruct (stepStartRef (refs s)) as [start |]; [| exact Hst].
  cbn. rewrite list_lookup_imap, Hst. cbn.
  destruct (status st); try contradiction; rewrite ?andb_false_r; reflexivity.
Qed.

(** A tick changes nothing but the time of loading steps. *)
Lemma tick_frame h now s :
  inp (tick h now s) = inp s /\ refs (tick h now s) = refs s
  /\ env (tick h now s) = env s
  /\ generatedImages (sig (tick h now s)) = generatedImages (sig s)
  /\ modelUrl (sig (tick h now s)) = modelUrl (sig s)
  /\ error (sig (tick h now s)) = error (sig s)
  /\ isLoading (sig (tick h now s)) = isLoading (sig s)
  /\ totalGenerationTime (sig (tick h now s)) = totalGenerationTime (sig s)
  /\ status <$> steps (sig (tick h now s)) = status <$> steps (sig s)
  /\ name <$> steps (sig (tick h now s)) = name <$> steps (sig s).
Proof.
  unfold tick, intervalCallback.
  destruct (interval_index h (intervals (env s))) as [index |]; [| done].
  destruct (stepStartRef (refs s)) as [start |]; [| done].
  cbn. repeat split; try reflexivity.
  - apply list_eq. intros i. rewrite !list_lookup_fmap, list_lookup_imap.
    destruct (steps (sig s) !! i) as [st |]; [| reflexivity]. cbn.
    destruct (_ && _); reflexivity.
  - apply list_eq. intros i. rewrite !list_lookup_fmap, list_lookup_imap.
    destruct (steps (sig s) !! i) as [st |]; [| reflexivity]. cbn.
    destruct (_ && _); reflexivity.
Qed.

(** The discipline of [updateStep].  In every reachable state at most one
    interval runs.  Every [updateStep] call first stops the running interval:
    none of the intervals running before the call runs after it, and after a
    call with ['done'] or ['error'] none runs at all.  Such a call on a
    loading step whose start reading is recorded (and is not zero) freezes
    the step's time at the elapsed value at the call.  No tick ever changes a
    step that is not loading. *)
Theorem updateStep_timer_discipline
    (es : list Event) (index : nat) (newStatus : StepStatus) (now : Z) :
  let s := app (run initialSystem es) in
  let s' := (updateStep index newStatus now s).1.1 in
  (length (intervals (env s)) <= 1)%nat
  /\ (length (intervals (env s')) <= 1)%nat
  /\ (forall running, running ∈ intervals (env s) -> running ∉ intervals (env s'))
  /\ (newStatus <> Loading ->
        intervals (env s') = [] /\ timerIntervalRef (refs s') = None)
  /\ (forall st start,
        steps (sig s) !! index = Some st -> status st = Loading ->
        stepStartRef (refs s) = Some start -> start <> 0 ->
        newStatus <> Loading ->
        steps (sig s') !! index
        = Some {| name := name st; status := newStatus;
                  time := TimeFixed2 (now - start) |})
  /\ (forall t h now' i st,
        steps (sig t) !! i = Some st -> status st <> Loading ->
        steps (sig (tick h now' t)) !! i = Some st).
Proof.
  intros s s'.
  assert (Hinv : timer_inv s) by (apply timer_inv_reachable; eexists; reflexivity).
  destruct (updateStep_intervals index newStatus now s Hinv) as [Hi Hr].
  fold s' in Hi, Hr.
  assert (Hone : (length (intervals (env s)) <= 1)%nat).
  { unfold timer_inv in Hinv. destruct (timerIntervalRef (refs s)).
    - destruct Hinv as [[i ->] _]. cbn. lia.
    - rewrite Hinv. cbn. lia. }
  split; [exact Hone |]. split; [| split; [| split; [| split]]].
  - rewrite Hi. destruct newStatus; try (cbn; lia).
    destruct (steps (sig s) !! index); cbn; lia.
  - intros running Hin. rewrite Hi.
    destruct newStatus; try apply not_elem_of_nil.
    destruct (steps (sig s) !! index); [| apply not_elem_of_nil].
    unfold timer_inv in Hinv. destruct (timerIntervalRef (refs s)) as [h0 |].
    + destruct Hinv as [[i0 Hint] Hfresh]. rewrite Hint in Hin.
      apply list_elem_of_singleton in Hin. subst running.
      intros Hin'. apply list_elem_of_singleton in Hin'.
      injection Hin' as Hh _. lia.
    + rewrite Hinv in Hin. apply elem_of_nil in Hin. contradiction.
  - intros Hnew. split; [| exact (Hr Hnew)].
    rewrite Hi. destruct newStatus; try reflexivity. contradiction.
  - intros st start Hst Hload Hstart Hnz Hnew.
    apply (updateStep_freezes index newStatus now s st start); assumption.
  - intros t h now' i st. apply tick_not_loading.
Qed.

(** Stage 2 has been loading since the reading 5000; [updateStep (1, 'done')]
    at 6000 stops the interval and freezes the time at 1000. *)
Lemma updateStep_timer_discipline_example :
  let s := app (run initialSystem Scenario.submitting) in
  let s' := (updateStep 1 Done 6000 s).1.1 in
  intervals (env s) = [(2%positive, 1%nat)]
  /\ intervals (env s') = []
  /\ steps (sig s') !! 1%nat
     = Some {| name := "Generate 3D Model"; status := Done; time := TimeFixed2 1000 |}.
Proof.
  intros s s'.
  destruct (updateStep_timer_discipline Scenario.submitting 1 Done 6000)
    as (_ & _ & _ & Hstop & Hfreeze & _).
  fold s in Hstop, Hfreeze. fold s' in Hstop, Hfreeze.
  split; [reflexivity |]. split.
  - apply Hstop. discriminate.
  - apply (Hfreeze {| name := "Generate 3D Model"; status := Loading;
                      time := TimeFixed2 100 |} 5000);
      [reflexivity | reflexivity | reflexivity | lia | discriminate].
Defined.

(** C9 fails on the failure path.  The claim: every step transition first
    stops the running timer, and a step that goes from loading to done or
    error has its time frozen at the elapsed value and its timer stopped.
    [updateStep] does so, but the [catch] block marks the loading step as
    error without going through [updateStep]: stage 2 has been loading since
    5000 and was last ticked at 5100; the submission request is rejected at
    5400; the step is then in error, its time is still that of the tick and
    not the 400 elapsed at the transition, and interval 2 is still running. *)
Lemma failure_leaves_timer_running :
  let before := app (run initialSystem Scenario.submitting) in
  let after := app (run initialSystem
                      (Scenario.submitting ++ [Settle 0 (Rejected "Failed to fetch") 5400])) in
  (status <$> steps (sig before) !! 1%nat) = Some Loading
  /\ stepStartRef (refs before) = Some 5000
  /\ intervals (env before) = [(2%positive, 1%nat)]
  /\ (status <$> steps (sig after) !! 1%nat) = Some Error
  /\ (time <$> steps (sig after) !! 1%nat) = Some (TimeFixed2 100)
  /\ (time <$> steps (sig after) !! 1%nat) <> Some (TimeFixed2 (5400 - 5000))
  /\ intervals (env after) = [(2%positive, 1%nat)]
  /\ timerIntervalRef (refs after) = Some 2%positive.
Proof. vm_compute. repeat split; discriminate. Qed.

(** ** Superseded continuations *)

(** Compute a resumed [performGeneration] whose captured id is not the
    live one. *)
Ltac stale_cases Hcur :=
  unfold resumeGeneration, trySegment, generationBody, generationCatch,
    generationFinally, pollLoopHead, afterPolling;
  run_m;
  repeat first
    [ rewrite Hcur
    | case_bool_decide
    | match goal with
      | |- context [match result_mesh_url ?d with _ => _ end] =>
          destruct (result_mesh_url d)
      | |- context [if ?b then AwaitSubmitJson else AwaitSubmitText] => destruct b
      end
    | progress cbn ].

Lemma stale_eqb g s :
  g <> generationId (refs s) -> (generationId (refs s) =? g) = false.
Proof. intros H. apply Z.eqb_neq. congruence. Qed.

(** A superseded continuation writes no cell but [falCancelUrl], and that
    one only when it reads the submission body. *)
Lemma stale_resume_state g pc c now s :
  g <> generationId (refs s) ->
  (resumeGeneration g pc c now s).1.1 = s
  \/ exists submitResult,
       pc = AwaitSubmitJson /\ c = Resolved (VSubmit submitResult)
       /\ (resumeGeneration g pc c now s).1.1
          = set_falCancelUrl (cancel_url submitResult) s.
Proof.
  intros Hne. pose proof (stale_eqb g s Hne) as Hcur.
  destruct c as [v | msg]; [destruct pc, v |]; stale_cases Hcur;
    solve [ left; reflexivity | right; eexists; repeat split; reflexivity ].
Qed.

(** What a superseded continuation does inside the polling loop. *)
Lemma stale_poll_step g pc c now s :
  g <> generationId (refs s) ->
  in_poll_loop pc = true ->
  let r := resumeGeneration g pc c now s in
  r.1.1 = s
  /\ ((r.1.2 = [] /\ r.2 = None)
      \/ (r.1.2 = [] /\ r.2 = Some pc)
      \/ (r.1.2 = [ReadBody]
          /\ exists pc', r.2 = Some pc' /\ in_poll_loop pc' = true
                         /\ (awaits_left pc' < awaits_left pc)%nat)
      \/ (exists submitResult,
            pc = AwaitPollJson submitResult
            /\ r.1.2 = [Sleep 5000] /\ r.2 = Some (AwaitDelay submitResult))
      \/ (exists submitResult pollBody,
            pc = AwaitPollJson submitResult /\ c = Resolved (VPoll pollBody)
            /\ poll_status pollBody = Some "COMPLETED"
            /\ r.1.2 = [HttpGet (response_url submitResult)]
            /\ r.2 = Some (AwaitResult submitResult))).
Proof.
  intros Hne Hloop r. subst r. pose proof (stale_eqb g s Hne) as Hcur.
  destruct c as [v | msg]; [destruct pc, v |]; try discriminate Hloop;
    stale_cases Hcur; (split; [reflexivity |]);
    first [ left; split; reflexivity
          | right; left; split; reflexivity
          | right; right; left; split;
            [reflexivity | eexists; split; [reflexivity | split; [reflexivity | cbn; lia]]]
          | right; right; right; left; eexists; repeat split; reflexivity
          | right; right; right; right; eexists _, _; repeat split; done ].
Qed.

(** Where a superseded continuation inside the polling loop ends: with no
    request, and at once,
    - at the head of the next iteration, when the delay is over (line 319);
    - at the comparison after the loop, when the result body holds a mesh
      (line 336);
    - at the comparison in the [catch] block (line 348), when the result body
      reports a failure or holds no mesh, when the status is ERROR, and when
      the awaited promise is rejected, wherever the continuation stands. *)
Lemma stale_poll_ends g pc c now s :
  g <> generationId (refs s) ->
  in_poll_loop pc = true ->
  c = Resolved VUnit /\ (exists submitResult, pc = AwaitDelay submitResult)
  \/ (exists submitResult resultData,
        pc = AwaitResultJson submitResult /\ c = Resolved (VResult resultData))
  \/ (exists submitResult pollBody,
        pc = AwaitPollJson submitResult /\ c = Resolved (VPoll pollBody)
        /\ poll_status pollBody = Some "ERROR")
  \/ (exists msg, c = Rejected msg) ->
  resumeGeneration g pc c now s = (s, [], None).
Proof.
  intros Hne Hloop Hcase. pose proof (stale_eqb g s Hne) as Hcur.
  destruct Hcase as [[-> [sr ->]] | [(sr & d & -> & ->) | [(sr & b & -> & -> & Hst)
                                                          | [msg ->]]]].
  - stale_cases Hcur. reflexivity.
  - stale_cases Hcur; reflexivity.
  - unfold resumeGeneration, trySegment, generationBody, generationCatch,
      generationFinally. run_m.
    rewrite Hst, bool_decide_eq_false_2 by discriminate.
    rewrite bool_decide_eq_true_2 by reflexivity. cbn. rewrite !Hcur. reflexivity.
  - destruct pc; stale_cases Hcur; reflexivity.
Qed.

(** C3, as the code has it.  On the current generation the head of every
    iteration passes the comparison of the ids and then issues the status
    request.  A superseded continuation inside the loop writes no cell at
    all.  The status response is acted upon without a fresh comparison: the
    continuation still reads the status body and, when it says COMPLETED,
    still issues the result fetch, the only network request it can issue.
    It ends, without a request, at the next comparison it comes to: at the
    head of the next iteration when the delay is over, at the comparison
    after the loop when the result body holds a mesh, and at the comparison
    in the [catch] block when the result body reports a failure or holds no
    mesh, when the status is ERROR, or when the awaited promise is rejected.
    Until then it stays inside the loop, and every answer to the await it
    stands at brings it nearer to its end: at most four awaits are left. *)
Theorem stale_poll_only_fetches_result
    (g : Z) (pc : GenPC) (c : Completion) (now : Z) (s : App) :
  let r := resumeGeneration g pc c now s in
  (g = generationId (refs s) ->
     forall submitResult,
       resumeGeneration g (AwaitDelay submitResult) (Resolved VUnit) now s
       = (s, [HttpGet (status_url submitResult)], Some (AwaitPoll submitResult)))
  /\ (g <> generationId (refs s) -> in_poll_loop pc = true ->
        r.1.1 = s
        /\ (forall submitResult ok http_status,
              pc = AwaitPoll submitResult -> c = Resolved (VResponse ok http_status) ->
              r.1.2 = [ReadBody] /\ r.2 = Some (AwaitPollJson submitResult))
        /\ (forall submitResult pollBody,
              pc = AwaitPollJson submitResult -> c = Resolved (VPoll pollBody) ->
              poll_status pollBody = Some "COMPLETED" ->
              r.1.2 = [HttpGet (response_url submitResult)]
              /\ r.2 = Some (AwaitResult submitResult))
        /\ (forall submitResult,
              pc = AwaitDelay submitResult -> c = Resolved VUnit ->
              r.1.2 = [] /\ r.2 = None)
        /\ (forall submitResult resultData,
              pc = AwaitResultJson submitResult -> c = Resolved (VResult resultData) ->
              r.1.2 = [] /\ r.2 = None)
        /\ (forall submitResult pollBody,
              pc = AwaitPollJson submitResult -> c = Resolved (VPoll pollBody) ->
              poll_status pollBody = Some "ERROR" ->
              r.1.2 = [] /\ r.2 = None)
        /\ (forall msg, c = Rejected msg -> r.1.2 = [] /\ r.2 = None)
        /\ (forall q, q ∈ r.1.2 -> is_network_request q = true ->
              exists submitResult pollBody,
                pc = AwaitPollJson submitResult /\ c = Resolved (VPoll pollBody)
                /\ poll_status pollBody = Some "COMPLETED"
                /\ q = HttpGet (response_url submitResult))
        /\ (forall pc', r.2 = Some pc' ->
              in_poll_loop pc' = true
              /\ (pc' = pc \/ (awaits_left pc' < awaits_left pc)%nat))
        /\ (awaits_left pc <= 4)%nat).
Proof.
  intros r. split.
  - intros Hcur submitResult.
    assert (Heq : (generationId (refs s) =? g) = true) by (apply Z.eqb_eq; congruence).
    stale_cases Heq. reflexivity.
  - intros Hne Hloop.
    destruct (stale_poll_step g pc c now s Hne Hloop) as [Hs Hout]. fold r in Hs, Hout.
    pose proof (stale_poll_ends g pc c now s Hne Hloop) as Hend. fold r in Hend.
    split; [exact Hs |].
    split; [| split; [| split; [| split; [| split; [| split; [| split; [| split]]]]]]].
    + intros submitResult ok http_status -> ->. subst r. split; reflexivity.
    + intros submitResult pollBody -> -> Hst. subst r.
      unfold resumeGeneration, trySegment, generationBody. run_m.
      rewrite Hst, bool_decide_eq_true_2 by reflexivity. split; reflexivity.
    + intros submitResult Hpc Hc. rewrite Hend; [split; reflexivity |].
      left. split; [exact Hc | exists submitResult; exact Hpc].
    + intros submitResult resultData Hpc Hc. rewrite Hend; [split; reflexivity |].
      right. left. exists submitResult, resultData. split; assumption.
    + intros submitResult pollBody Hpc Hc Hst. rewrite Hend; [split; reflexivity |].
      right. right. left. exists submitResult, pollBody. repeat split; assumption.
    + intros msg Hc. rewrite Hend; [split; reflexivity |].
      right. right. right. exists msg. exact Hc.
    + intros q Hq Hnet.
      destruct Hout as [[Ho Hp] | [[Ho Hp] | [[Ho Hp] | [(sr & _ & Ho & Hp) | Hres]]]].
      * rewrite Ho in Hq. apply elem_of_nil in Hq. contradiction.
      * rewrite Ho in Hq. apply elem_of_nil in Hq. contradiction.
      * rewrite Ho in Hq. apply list_elem_of_singleton in Hq. subst q. discriminate.
      * rewrite Ho in Hq. apply list_elem_of_singleton in Hq. subst q. discriminate.
      * destruct Hres as (sr & b & Hpc & Hc & Hst & Ho & Hp).
        rewrite Ho in Hq. apply list_elem_of_singleton in Hq. subst q.
        exists sr, b. repeat split; assumption.
    + intros pc' Hpc'.
      destruct Hout as [[Ho Hp] | [[Ho Hp] | [[Ho Hp] | [(sr & Hpc & Ho & Hp) | Hres]]]].
      * congruence.
      * rewrite Hp in Hpc'. injection Hpc' as <-. split; [exact Hloop | left; reflexivity].
      * destruct Hp as (pc'' & Hp & Hl & Hlt). rewrite Hp in Hpc'. injection Hpc' as <-.
        split; [exact Hl | right; exact Hlt].
      * rewrite Hp in Hpc'. injection Hpc' as <-. subst pc.
        split; [reflexivity | right; cbn; lia].
      * destruct Hres as (sr & b & Hpc & _ & _ & _ & Hp).
        rewrite Hp in Hpc'. injection Hpc' as <-. subst pc.
        split; [reflexivity | right; cbn; lia].
    + destruct pc; cbn; lia.
Qed.

(** The halves of the theorem at work: the current generation polls again
    after the delay; the superseded one, answered COMPLETED, keeps the state
    as it is and goes on to await the result; and when the result body
    arrives, with a mesh or without, it ends without a request. *)
Lemma stale_poll_only_fetches_result_example :
  let live := app (run initialSystem
                     (Scenario.poll_answered
                        ++ [Settle 0 (Resolved (VPoll Scenario.in_progress)) 5500])) in
  let stale := app (run initialSystem Scenario.cancelled_while_polling) in
  let r := resumeGeneration 1 (AwaitPollJson Scenario.job)
             (Resolved (VPoll Scenario.completed)) 5500 stale in
  let ended := resumeGeneration 1 (AwaitResultJson Scenario.job)
                 (Resolved (VResult Scenario.mesh)) 5700 stale in
  let failed := resumeGeneration 1 (AwaitResultJson Scenario.job)
                  (Resolved (VResult Scenario.no_mesh)) 5700 stale in
  resumeGeneration 1 (AwaitDelay Scenario.job) (Resolved VUnit) 10500 live
  = (live, [HttpGet (status_url Scenario.job)], Some (AwaitPoll Scenario.job))
  /\ r.1.1 = stale
  /\ (forall pc', r.2 = Some pc' -> in_poll_loop pc' = true)
  /\ ended = (stale, [], None)
  /\ failed = (stale, [], None).
Proof.
  intros live stale r ended failed.
  assert (Hne : 1 <> generationId (refs stale)) by (vm_compute; discriminate).
  split; [| split; [| split; [| split]]].
  - apply (stale_poll_only_fetches_result 1 AwaitParts (Resolved VUnit) 10500 live).
    reflexivity.
  - destruct (stale_poll_only_fetches_result 1 (AwaitPollJson Scenario.job)
                (Resolved (VPoll Scenario.completed)) 5500 stale) as [_ Hstale].
    exact (proj1 (Hstale Hne eq_refl)).
  - destruct (stale_poll_only_fetches_result 1 (AwaitPollJson Scenario.job)
                (Resolved (VPoll Scenario.completed)) 5500 stale) as [_ Hstale].
    destruct (Hstale Hne eq_refl) as (_ & _ & _ & _ & _ & _ & _ & _ & Hp & _).
    intros pc' Hpc'. exact (proj1 (Hp pc' Hpc')).
  - destruct (stale_poll_only_fetches_result 1 (AwaitResultJson Scenario.job)
                (Resolved (VResult Scenario.mesh)) 5700 stale) as [_ Hstale].
    destruct (Hstale Hne eq_refl) as (Hs & _ & _ & _ & Hend & _).
    destruct (Hend Scenario.job Scenario.mesh eq_refl eq_refl) as [Ho Hp].
    subst ended. destruct (resumeGeneration _ _ _ _ _) as [[s' out] pc'].
    cbn in Hs, Ho, Hp. subst. reflexivity.
  - destruct (stale_poll_only_fetches_result 1 (AwaitResultJson Scenario.job)
                (Resolved (VResult Scenario.no_mesh)) 5700 stale) as [_ Hstale].
    destruct (Hstale Hne eq_refl) as (Hs & _ & _ & _ & Hend & _).
    destruct (Hend Scenario.job Scenario.no_mesh eq_refl eq_refl) as [Ho Hp].
    subst failed. destruct (resumeGeneration _ _ _ _ _) as [[s' out] pc'].
    cbn in Hs, Ho, Hp. subst. reflexivity.
Defined.

(** The claim as stated fails: the generation is cancelled while its status
    request is in flight (the live id is 2, the continuation holds 1); the
    status body says COMPLETED, and the superseded continuation issues the
    result fetch, a further network request. *)
Lemma stale_poll_fetches_result :
  let sy := run initialSystem Scenario.cancelled_while_polling in
  let sy' := step sy (Settle 1 (Resolved (VPoll Scenario.completed)) 5500) in
  tasks sy !! 1%nat = Some (GenerationTask 1 (AwaitPollJson Scenario.job))
  /\ generationId (refs (app sy)) = 2
  /\ network sy' = network sy ++ [HttpGet (response_url Scenario.job)]
  /\ is_network_request (HttpGet (response_url Scenario.job)) = true
  /\ tasks sy' !! 1%nat = Some (GenerationTask 1 (AwaitResult Scenario.job)).
Proof. vm_compute. repeat split. Qed.

(** ** The generation id only grows, and no continuation is ahead of it *)

Lemma task_bounded_mono s s' t :
  generationId (refs s) <= generationId (refs s') ->
  task_bounded s t -> task_bounded s' t.
Proof. unfold task_bounded. intros Hle H g Hg. specialize (H g Hg). lia. Qed.

Lemma spawnGeneration_ok now sel s0 s :
  generationId (refs s) <= generationId (refs s0) ->
  spawn_ok s (spawnGeneration (performGeneration now sel s0)).
Proof.
  intros Hle.
  pose proof (performGeneration_generationId now sel s0) as Hid.
  pose proof (performGeneration_captures now sel s0) as Hcap.
  unfold spawnGeneration.
  destruct (performGeneration now sel s0) as [[[s1 out] g] pc]. cbn in Hid, Hcap.
  split; cbn; [lia |].
  destruct pc as [pc |]; constructor; [| constructor].
  intros g' [= <-]. lia.
Qed.

Lemma startGeneration_ok now s : spawn_ok s (startGeneration now s).
Proof.
  unfold startGeneration. destruct (_ || _).
  - split; cbn; [lia | constructor].
  - apply spawnGeneration_ok. cbn. lia.
Qed.

Lemma rerunContinue_ok now r selected s : spawn_ok s (rerunContinue now r selected s).
Proof. unfold rerunContinue. apply spawnGeneration_ok. cbn. lia. Qed.

Lemma rerunImageGenerationStep_ok now s : spawn_ok s (rerunImageGenerationStep now s).
Proof.
  unfold rerunImageGenerationStep.
  destruct (falCancelUrl (refs s)) as [u |]; [destruct (Js.truthy_string u) |];
    try apply rerunContinue_ok.
  split; cbn; [lia |]. constructor; [| constructor]. intros g [=].
Qed.

Lemma cancelContinue_generationId r s :
  generationId (refs (cancelContinue r s)) = generationId (refs s).
Proof.
  pose proof (stopTimer_frame s) as (_ & _ & Hid & _).
  unfold cancelContinue. cbn. exact Hid.
Qed.

Lemma handleCancelGeneration_ok s : spawn_ok s (handleCancelGeneration s).
Proof.
  unfold handleCancelGeneration.
  destruct (falCancelUrl (refs (set_generationId _ s))) as [u |];
    [destruct (Js.truthy_string u) |]; split; cbn [fst snd];
    rewrite ?cancelContinue_generationId; cbn; try lia;
    repeat constructor; intros g [=].
Qed.

Lemma handleUrlFetch_ok b s : spawn_ok s (handleUrlFetch b s).
Proof.
  unfold handleUrlFetch. destruct (_ || _); [| destruct (negb b)];
    split; cbn; try lia; repeat constructor; intros g [=].
Qed.

Lemma resumeUrlFetch_generationId pc c s :
  generationId (refs (resumeUrlFetch pc c s).1.1) = generationId (refs s).
Proof.
  apply (respects_resumeUrlFetch same_generation same_generation_refl
           same_generation_trans); reflexivity.
Qed.

Lemma settle_ok t c now s : task_bounded s t -> spawn_ok s (settle t c now s).
Proof.
  intros Hb. destruct t as [g pc | r selected | r | pc | pc]; cbn [settle].
  - pose proof (resumeGeneration_generationId g pc c now s) as Hid.
    destruct (resumeGeneration g pc c now s) as [[s' out] pc']. cbn in Hid.
    split; cbn; [lia |].
    destruct pc' as [pc' |]; constructor; [| constructor].
    intros g' [= <-]. rewrite Hid. apply Hb. reflexivity.
  - apply rerunContinue_ok.
  - split; cbn [fst snd]; [rewrite cancelContinue_generationId; lia | constructor].
  - pose proof (resumeUrlFetch_generationId pc c s) as Hid.
    destruct (resumeUrlFetch pc c s) as [[s' out] pc']. cbn in Hid.
    split; cbn; [lia |].
    destruct pc' as [pc' |]; constructor; [| constructor]. intros g' [=].
  - destruct c, pc; split; cbn; try lia; repeat constructor; intros g' [=].
Qed.

Lemma tasks_bounded_handler sy r :
  tasks_bounded sy -> spawn_ok (app sy) r -> tasks_bounded (handler_result sy r).
Proof.
  intros Hb [Hle Hnew]. unfold tasks_bounded. cbn. apply Forall_app. split.
  - eapply Forall_impl; [exact Hb |]. intros t. apply task_bounded_mono, Hle.
  - exact Hnew.
Qed.

Lemma tasks_bounded_pure sy s' :
  tasks_bounded sy -> generationId (refs s') = generationId (refs (app sy)) ->
  tasks_bounded (pure_handler sy s').
Proof.
  intros Hb Hid. unfold tasks_bounded. cbn.
  eapply Forall_impl; [exact Hb |]. intros t. apply task_bounded_mono. lia.
Qed.

Lemma generationId_step sy e :
  tasks_bounded sy ->
  generationId (refs (app sy)) <= generationId (refs (app (step sy e)))
  /\ tasks_bounded (step sy e).
Proof.
  intros Hb.
  destruct e as [now | now | | | sel | sel | | | index | v | m | parses | asset |
                 | task c now | h now |]; cbn [step];
    try (split; [cbn; lia | apply tasks_bounded_pure; [exact Hb | reflexivity]]).
  - split; [apply startGeneration_ok | apply tasks_bounded_handler, startGeneration_ok; exact Hb].
  - split; [apply rerunImageGenerationStep_ok
           | apply tasks_bounded_handler, rerunImageGenerationStep_ok; exact Hb].
  - split; [apply handleCancelGeneration_ok
           | apply tasks_bounded_handler, handleCancelGeneration_ok; exact Hb].
  - split; [| apply tasks_bounded_pure; [exact Hb |]];
      unfold handleFileChange; destruct sel; cbn; lia.
  - split; [| apply tasks_bounded_pure; [exact Hb |]];
      unfold handleDrop, handleFileChange; destruct sel; cbn; lia.
  - split; [apply handleUrlFetch_ok | apply tasks_bounded_handler, handleUrlFetch_ok; exact Hb].
  - split; [cbn; lia |]. unfold tasks_bounded. cbn. apply Forall_app. split; [exact Hb |].
    repeat constructor. intros g [=].
  - destruct (tasks sy !! task) as [t |] eqn:Ht; [| split; [lia | exact Hb]].
    assert (Htb : task_bounded (app sy) t).
    { unfold tasks_bounded in Hb. rewrite Forall_lookup in Hb. eapply Hb, Ht. }
    pose proof (settle_ok t c now (app sy) Htb) as [Hle Hnew].
    destruct (settle t c now (app sy)) as [[s' out] ts]. cbn in Hle, Hnew.
    split; [exact Hle |]. unfold tasks_bounded. cbn. apply Forall_app. split; [| exact Hnew].
    eapply Forall_impl; [apply Forall_delete, Hb |].
    intros t'. apply task_bounded_mono, Hle.
  - pose proof (tick_frame h now (app sy)) as (_ & Hrefs & _).
    split; [cbn; rewrite Hrefs; lia |].
    apply tasks_bounded_pure; [exact Hb |]. cbn. rewrite Hrefs. reflexivity.
Qed.

Lemma generationId_run sy es :
  tasks_bounded sy ->
  generationId (refs (app sy)) <= generationId (refs (app (run sy es)))
  /\ tasks_bounded (run sy es).
Proof.
  revert sy. induction es as [| e es IH]; intros sy Hb; cbn; [split; [lia | exact Hb] |].
  destruct (generationId_step sy e Hb) as [Hle Hb'].
  destruct (IH (step sy e) Hb') as [Hle' Hb''].
  split; [etrans; eassumption | exact Hb''].
Qed.

Lemma tasks_bounded_initial : tasks_bounded initialSystem.
Proof. constructor. Qed.

Lemma run_app sy es es' : run sy (es ++ es') = run (run sy es) es'.
Proof. unfold run. apply foldl_app. Qed.

(** ** Starting a generation and superseding the earlier ones *)

(** A superseded continuation leaves every consumer-facing cell, every
    input cell, the interval table and every ref but [falCancelUrl] as
    they are. *)
Lemma stale_resume_inert g pc c now s :
  g <> generationId (refs s) ->
  let s' := (resumeGeneration g pc c now s).1.1 in
  sig s' = sig s /\ inp s' = inp s /\ env s' = env s
  /\ generationId (refs s') = generationId (refs s)
  /\ timerIntervalRef (refs s') = timerIntervalRef (refs s)
  /\ stepStartRef (refs s') = stepStartRef (refs s)
  /\ generationStartRef (refs s') = generationStartRef (refs s).
Proof.
  intros Hne s'. subst s'.
  destruct (stale_resume_state g pc c now s Hne) as [-> | (sr & _ & _ & ->)];
    repeat split; reflexivity.
Qed.

Lemma startGeneration_accepted now s :
  files (inp s) <> [] -> isLoading (sig s) = false ->
  generationId (refs (startGeneration now s).1.1) = generationId (refs s) + 1.
Proof.
  intros Hfiles Hidle. unfold startGeneration. rewrite Hidle.
  destruct (files (inp s)) as [| f fs] eqn:Hf; [contradiction |].
  cbn [length]. rewrite bool_decide_eq_false_2 by discriminate. cbn [orb].
  unfold spawnGeneration.
  match goal with |- context [performGeneration now ?sel ?s0] =>
    pose proof (performGeneration_generationId now sel s0) as Hid;
    destruct (performGeneration now sel s0) as [[[s1 out] g] pc] end.
  exact Hid.
Qed.

Lemma startGeneration_ignored now s :
  files (inp s) = [] \/ isLoading (sig s) = true ->
  startGeneration now s = (s, [], []).
Proof.
  intros [Hfiles | Hbusy]; unfold startGeneration.
  - rewrite Hfiles. reflexivity.
  - rewrite Hbusy, orb_true_r. reflexivity.
Qed.

Lemma reachable_bounded es :
  tasks_bounded (run initialSystem es)
  /\ forall es',
       generationId (refs (app (run initialSystem es)))
       <= generationId (refs (app (run (run initialSystem es) es')))
       /\ tasks_bounded (run (run initialSystem es) es').
Proof.
  destruct (generationId_run initialSystem es tasks_bounded_initial) as [_ Hb].
  split; [exact Hb |]. intros es'. apply generationId_run, Hb.
Qed.

(** C1, as the code has it.  In every reachable state: a [start ()] that
    is accepted (at least one input image, not busy) increments the
    generation id by one, and every id captured before differs from the new
    one; a [start ()] that is ignored changes nothing.  A continuation of
    [performGeneration] whose captured id is not the live id holds an
    earlier id; resuming it with any completion leaves the steps, the
    generated images, the mesh URL, the error message, the busy flag and the
    total time (the cells of [sig]) unchanged, as well as the input cells and
    the interval table; and whatever events follow, in any interleaving, every
    continuation holding that id stays behind the live id. *)
Theorem superseded_generations_are_inert
    (es : list Event) (now : Z) (i : nat) (g : Z) (pc : GenPC) (c : Completion)
    (now' : Z) (es' : list Event) :
  let sy := run initialSystem es in
  (files (inp (app sy)) <> [] -> isLoading (sig (app sy)) = false ->
     generationId (refs (app (step sy (ClickGenerate now))))
     = generationId (refs (app sy)) + 1
     /\ forall t g', t ∈ tasks sy -> captured t = Some g' ->
          g' <> generationId (refs (app (step sy (ClickGenerate now)))))
  /\ (files (inp (app sy)) = [] \/ isLoading (sig (app sy)) = true ->
        app (step sy (ClickGenerate now)) = app sy
        /\ tasks (step sy (ClickGenerate now)) = tasks sy)
  /\ (tasks sy !! i = Some (GenerationTask g pc) ->
      g <> generationId (refs (app sy)) ->
      let sy' := step sy (Settle i c now') in
      g < generationId (refs (app sy))
      /\ sig (app sy') = sig (app sy)
      /\ inp (app sy') = inp (app sy)
      /\ env (app sy') = env (app sy)
      /\ forall t, t ∈ tasks (run sy es') -> captured t = Some g ->
           g < generationId (refs (app (run sy es')))).
Proof.
  intros sy. destruct (reachable_bounded es) as [Hb Hfuture]. fold sy in Hb, Hfuture.
  split; [| split].
  - intros Hfiles Hidle. cbn [step handler_result app].
    rewrite (startGeneration_accepted now (app sy) Hfiles Hidle).
    split; [reflexivity |].
    intros t g' Ht Hcap. unfold tasks_bounded in Hb. rewrite Forall_forall in Hb.
    specialize (Hb t Ht g' Hcap). lia.
  - intros Hign. cbn [step handler_result app tasks].
    rewrite (startGeneration_ignored now (app sy) Hign). cbn.
    split; [reflexivity | apply app_nil_r].
  - intros Ht Hne sy'.
    assert (Hlt : g < generationId (refs (app sy))).
    { unfold tasks_bounded in Hb. rewrite Forall_lookup in Hb.
      specialize (Hb i _ Ht g eq_refl). lia. }
    split; [exact Hlt |].
    pose proof (stale_resume_inert g pc c now' (app sy) Hne) as (Hsig & Hinp & Henv & _).
    subst sy'. cbn [step]. rewrite Ht. cbn [settle].
    destruct (resumeGeneration g pc c now' (app sy)) as [[s' out] pc'].
    cbn in Hsig, Hinp, Henv. cbn [app].
    split; [exact Hsig |]. split; [exact Hinp |]. split; [exact Henv |].
    intros t Hin Hcap. destruct (Hfuture es') as [Hle Hb'].
    unfold tasks_bounded in Hb'. rewrite Forall_forall in Hb'.
    specialize (Hb' t Hin g Hcap). lia.
Qed.

(** The theorem on the scenarios: Generate with one image selected moves
    the id from 0 to 1; Generate while that run is busy changes nothing; and
    the continuation superseded by a cancel, resumed with a COMPLETED status,
    leaves the consumer-facing cells as the cancel left them. *)
Lemma superseded_generations_are_inert_example :
  let idle := run initialSystem [SelectFiles (Some [Scenario.photo])] in
  let busy := run initialSystem Scenario.started in
  let cancelled := run initialSystem Scenario.cancelled_while_polling in
  generationId (refs (app (step idle (ClickGenerate 1000)))) = 0 + 1
  /\ app (step busy (ClickGenerate 2000)) = app busy
  /\ sig (app (step cancelled (Settle 1 (Resolved (VPoll Scenario.completed)) 5500)))
     = sig (app cancelled).
Proof.
  intros idle busy cancelled. split; [| split].
  - destruct (superseded_generations_are_inert
                [SelectFiles (Some [Scenario.photo])] 1000 0 0 AwaitParts
                (Resolved VUnit) 0 []) as [Hstart _].
    apply Hstart; [discriminate | reflexivity].
  - destruct (superseded_generations_are_inert
                Scenario.started 2000 0 0 AwaitParts (Resolved VUnit) 0 [])
      as (_ & Hign & _).
    apply Hign. right. reflexivity.
  - destruct (superseded_generations_are_inert
                Scenario.cancelled_while_polling 0 1 1 (AwaitPollJson Scenario.job)
                (Resolved (VPoll Scenario.completed)) 5500 [])
      as (_ & _ & Hstale).
    apply Hstale; [reflexivity | vm_compute; discriminate].
Defined.

(** The claim as stated fails: a second [start ()] while the first run is
    in flight, with no cancel or rerun in between, does not increment the
    generation id, and neither does a [start ()] without input images. *)
Lemma start_while_busy_keeps_generation_id :
  let busy := run initialSystem Scenario.started in
  isLoading (sig (app busy)) = true
  /\ generationId (refs (app busy)) = 1
  /\ generationId (refs (app (step busy (ClickGenerate 2000)))) = 1
  /\ generationId (refs (app (step busy (ClickGenerate 2000))))
     <> generationId (refs (app busy)) + 1
  /\ generationId (refs (app (step initialSystem (ClickGenerate 1000)))) = 0.
Proof. vm_compute. repeat split. discriminate. Qed.

(** ** Cancel *)






(** ** The failure path of the current generation *)

Lemma current_eqb g s :
  generationId (refs s) = g -> (generationId (refs s) =? g) = true.
Proof. intros <-. apply Z.eqb_refl. Qed.

Lemma markLoadingAsError_lookup (l : list Step) (i : nat) :
  (markLoadingAsError <$> l) !! i = markLoadingAsError <$> l !! i.
Proof. apply list_lookup_fmap. Qed.

Lemma markLoadingAsError_status (st : Step) :
  status (markLoadingAsError st)
  = failed_status (status st).
Proof. unfold markLoadingAsError. destruct (status st) eqn:E; cbn; congruence. Qed.

Lemma markLoadingAsError_name_time (st : Step) :
  name (markLoadingAsError st) = name st /\ time (markLoadingAsError st) = time st.
Proof. unfold markLoadingAsError. destruct (StepStatus_eqb _ _); split; reflexivity. Qed.

(** The [catch] block and then the [finally] block, on the current
    generation. *)
Lemma catch_finally_current g msg s :
  generationId (refs s) = g ->
  let s2 := (generationCatch g msg s).1.1 in
  let s3 := (generationFinally g s2).1.1 in
  error (sig s3) = Some (Js.or_string msg "An unknown error occurred.")
  /\ steps (sig s3) = markLoadingAsError <$> steps (sig s)
  /\ generatedImages (sig s3) = generatedImages (sig s)
  /\ modelUrl (sig s3) = modelUrl (sig s)
  /\ totalGenerationTime (sig s3) = totalGenerationTime (sig s)
  /\ isLoading (sig s3) = false
  /\ inp s3 = inp s /\ env s3 = env s
  /\ generationId (refs s3) = generationId (refs s)
  /\ falCancelUrl (refs s3) = None
  /\ timerIntervalRef (refs s3) = timerIntervalRef (refs s)
  /\ stepStartRef (refs s3) = stepStartRef (refs s)
  /\ generationStartRef (refs s3)
     = (if Js.truthy_onumber (generationStartRef (refs s)) then None
        else generationStartRef (refs s))
  /\ (generationCatch g msg s).1.2 = [] /\ (generationFinally g s2).1.2 = [].
Proof.
  intros Hcur s2 s3. subst s2 s3. pose proof (current_eqb g s Hcur) as Heq.
  unfold generationCatch, generationFinally. run_m. rewrite Heq. cbn.
  destruct (Js.truthy_onumber (generationStartRef (refs s))) eqn:Hstart;
    cbn; rewrite ?Heq; cbn; rewrite ?Hstart; repeat split; reflexivity.
Qed.

Lemma trySegment_thrown {PC} (body : M (option PC)) handler fin s s1 out1 msg :
  body s = (s1, out1, Thrown msg) ->
  trySegment body handler fin s
  = (let s2 := (handler msg s1).1.1 in
     ((fin s2).1.1, out1 ++ (handler msg s1).1.2 ++ (fin s2).1.2, None)).
Proof.
  intros Hbody. unfold trySegment. rewrite Hbody.
  destruct (handler msg s1) as [[s2 out2] r2]. cbn.
  destruct (fin s2) as [[s3 out3] r3]. reflexivity.
Qed.

(** Where the [try] block throws: a rejected [await], the submission
    refusal, the ERROR status and the unusable result. *)
Lemma generationBody_rejected g pc msg now s :
  generationBody g pc (Rejected msg) now s = (s, [], Thrown msg).
Proof. reflexivity. Qed.

Lemma generationBody_submission_refused g body now s :
  generationBody g AwaitSubmitText (Resolved (VText body)) now s
  = (s, [], Thrown ("Fal.ai submission failed: " +:+ body)).
Proof. reflexivity. Qed.

Lemma generationBody_poll_error g submitResult pollBody now s :
  poll_status pollBody = Some "ERROR" ->
  generationBody g (AwaitPollJson submitResult) (Resolved (VPoll pollBody)) now s
  = (s, [], Thrown (logs_or (poll_logs pollBody) "Polling error.")).
Proof.
  intros Hst. unfold generationBody. run_m. rewrite Hst.
  rewrite bool_decide_eq_false_2 by discriminate.
  rewrite bool_decide_eq_true_2 by reflexivity. reflexivity.
Qed.

Lemma generationBody_bad_result g submitResult resultData now s :
  result_status resultData = Some "ERROR" \/ result_mesh_url resultData = None ->
  generationBody g (AwaitResultJson submitResult) (Resolved (VResult resultData)) now s
  = (s, [], Thrown ("Generation failed: "
                    +:+ logs_or (result_logs resultData) "Unknown error")).
Proof.
  intros Hbad. unfold generationBody. run_m.
  destruct Hbad as [Hst | Hmesh].
  - rewrite bool_decide_eq_true_2 by exact Hst. reflexivity.
  - rewrite Hmesh. destruct (bool_decide _); reflexivity.
Qed.

Lemma generationBody_generationId g pc c now s :
  generationId (refs (generationBody g pc c now s).1.1) = generationId (refs s).
Proof.
  apply (respects_generationBody same_generation same_generation_refl
           same_generation_trans); try reflexivity.
  apply same_generation_updateStep.
Qed.

(** The state a failure of the current generation leaves, from the state
    [s1] in which the [try] block threw. *)
Lemma current_failure g pc c now s s1 out1 msg :
  generationId (refs s) = g ->
  generationBody g pc c now s = (s1, out1, Thrown msg) ->
  let r := resumeGeneration g pc c now s in
  r.2 = None /\ r.1.2 = out1
  /\ error (sig r.1.1) = Some (Js.or_string msg "An unknown error occurred.")
  /\ steps (sig r.1.1) = markLoadingAsError <$> steps (sig s1)
  /\ generatedImages (sig r.1.1) = generatedImages (sig s1)
  /\ modelUrl (sig r.1.1) = modelUrl (sig s1)
  /\ totalGenerationTime (sig r.1.1) = totalGenerationTime (sig s1)
  /\ isLoading (sig r.1.1) = false
  /\ inp r.1.1 = inp s1
  /\ falCancelUrl (refs r.1.1) = None
  /\ generationStartRef (refs r.1.1)
     = (if Js.truthy_onumber (generationStartRef (refs s1)) then None
        else generationStartRef (refs s1)).
Proof.
  intros Hcur Hbody r. subst r. unfold resumeGeneration.
  rewrite (trySegment_thrown _ _ _ s s1 out1 msg Hbody). cbn [fst snd].
  assert (Hcur1 : generationId (refs s1) = g).
  { pose proof (generationBody_generationId g pc c now s) as Hid.
    rewrite Hbody in Hid. cbn in Hid. congruence. }
  pose proof (catch_finally_current g msg s1 Hcur1)
    as (He & Hs & Hg & Hm & Ht & Hl & Hi & _ & _ & Hf & _ & _ & Hst & Ho1 & Ho2).
  rewrite Ho1, Ho2, !app_nil_r. repeat split; assumption.
Qed.

Lemma append_empty (s : string) : s +:+ "" = s.
Proof.
  induction s as [| a s IH]; [reflexivity |].
  change (String a s +:+ "") with (String a (s +:+ "")). rewrite IH. reflexivity.
Qed.

Lemma contains_suffix (pre s : string) : contains (pre +:+ s) s.
Proof. exists pre, "". rewrite append_empty. reflexivity. Qed.

Lemma contains_self (s : string) : contains s s.
Proof. apply (contains_suffix "" s). Qed.

Lemma or_string_truthy (a b : string) : a <> "" -> Js.or_string a b = a.
Proof. unfold Js.or_string. destruct a; [congruence | reflexivity]. Qed.

(** C8. When the [try] block of the current generation throws an error
    with message [msg] (a rejected request or a failure the pipeline
    detects, at either stage), the error path stores the message as it is
    (the generic text only stands in for an empty message), turns every
    loading step into an error step and leaves the other steps as they are,
    clears the start timestamp, ends the run, and leaves the generated view
    images, the mesh URL, the total time, the input images and the names and
    times of the steps as they were when the error was thrown. *)
Theorem failure_keeps_partial_results
    (g : Z) (pc : GenPC) (c : Completion) (now : Z) (s s1 : App)
    (out1 : list Request) (msg : string) :
  generationId (refs s) = g ->
  generationBody g pc c now s = (s1, out1, Thrown msg) ->
  let r := resumeGeneration g pc c now s in
  r.2 = None
  /\ error (sig r.1.1) = Some (Js.or_string msg "An unknown error occurred.")
  /\ (msg <> "" -> error (sig r.1.1) = Some msg)
  /\ steps (sig r.1.1) = markLoadingAsError <$> steps (sig s1)
  /\ (forall i st, steps (sig s1) !! i = Some st ->
        exists st', steps (sig r.1.1) !! i = Some st'
          /\ name st' = name st /\ time st' = time st
          /\ status st' = failed_status (status st))
  /\ Js.truthy_onumber (generationStartRef (refs r.1.1)) = false
  /\ (forall start, generationStartRef (refs s1) = Some start -> start <> 0 ->
        generationStartRef (refs r.1.1) = None)
  /\ generatedImages (sig r.1.1) = generatedImages (sig s1)
  /\ modelUrl (sig r.1.1) = modelUrl (sig s1)
  /\ totalGenerationTime (sig r.1.1) = totalGenerationTime (sig s1)
  /\ files (inp r.1.1) = files (inp s1)
  /\ isLoading (sig r.1.1) = false
  /\ (c = Rejected msg -> s1 = s).
Proof.
  intros Hcur Hbody r.
  pose proof (current_failure g pc c now s s1 out1 msg Hcur Hbody)
    as (Hend & _ & He & Hs & Hg & Hm & Ht & Hl & Hi & _ & Hst).
  fold r in Hend, He, Hs, Hg, Hm, Ht, Hl, Hi, Hst.
  repeat apply conj; try assumption.
  - intros Hmsg. rewrite He, (or_string_truthy _ _ Hmsg). reflexivity.
  - intros i st Hi'. exists (markLoadingAsError st).
    rewrite Hs, markLoadingAsError_lookup, Hi'.
    destruct (markLoadingAsError_name_time st) as [Hn Htm].
    repeat split; try assumption. apply markLoadingAsError_status.
  - rewrite Hst. destruct (Js.truthy_onumber (generationStartRef (refs s1))) eqn:E;
      [reflexivity | exact E].
  - intros start Hstart Hnz. rewrite Hst, Hstart. cbn. unfold Js.truthy_number.
    destruct (Z.eqb_spec start 0); [contradiction | reflexivity].
  - rewrite Hi. reflexivity.
  - intros ->. rewrite generationBody_rejected in Hbody. congruence.
Qed.

(** The resize of stage 2 fails while the three view images are on
    display: they stay, the message is stored as it is, and the start
    timestamp is cleared. *)
Lemma failure_keeps_partial_results_example :
  let s := app (run initialSystem Scenario.views_done) in
  let r := resumeGeneration 1 AwaitResize
             (Rejected "Failed to load image for resizing.") 5200 s in
  error (sig r.1.1) = Some "Failed to load image for resizing."
  /\ generatedImages (sig r.1.1) = generatedImages (sig s)
  /\ length (generatedImages (sig r.1.1)) = 3%nat
  /\ generationStartRef (refs r.1.1) = None.
Proof.
  intros s r.
  destruct (failure_keeps_partial_results 1 AwaitResize
              (Rejected "Failed to load image for resizing.") 5200 s s []
              "Failed to load image for resizing." eq_refl eq_refl)
    as (_ & _ & He & _ & _ & _ & Hst & Hg & _).
  fold r in He, Hst, Hg.
  split; [apply He; discriminate |]. split; [exact Hg |].
  split; [rewrite Hg; reflexivity |].
  apply (Hst 1000); [reflexivity | lia].
Defined.

(** C5. On the current generation a non-success response to the
    submission POST makes the pipeline read the response body; when the body
    arrives, the run ends with the error message
    ["Fal.ai submission failed: " + body], which contains the body; every
    loading step becomes an error step and the others stay: with stage 1
    done and stage 2 loading, stage 1 remains done and stage 2 is marked
    error. *)
Theorem submission_failure_surfaces_body
    (g : Z) (http_status : Z) (body : string) (now now' : Z) (s s2 : App) :
  generationId (refs s) = g ->
  generationId (refs s2) = g ->
  let r := resumeGeneration g AwaitSubmitText (Resolved (VText body)) now' s2 in
  resumeGeneration g AwaitSubmit (Resolved (VResponse false http_status)) now s
  = (s, [ReadBody], Some AwaitSubmitText)
  /\ r.2 = None
  /\ error (sig r.1.1) = Some ("Fal.ai submission failed: " +:+ body)
  /\ (forall msg, error (sig r.1.1) = Some msg -> contains msg body)
  /\ steps (sig r.1.1) = markLoadingAsError <$> steps (sig s2)
  /\ (status <$> steps (sig s2) = [Done; Loading] ->
        status <$> steps (sig r.1.1) = [Done; Error])
  /\ modelUrl (sig r.1.1) = modelUrl (sig s2)
  /\ isLoading (sig r.1.1) = false.
Proof.
  intros Hcur Hcur2 r.
  pose proof (current_failure g AwaitSubmitText (Resolved (VText body)) now' s2 s2 [] _
                Hcur2 (generationBody_submission_refused g body now' s2))
    as (Hend & _ & He & Hs & _ & Hm & _ & Hl & _).
  fold r in Hend, He, Hs, Hm, Hl.
  assert (Herr : error (sig r.1.1) = Some ("Fal.ai submission failed: " +:+ body)).
  { rewrite He. reflexivity. }
  split; [| repeat apply conj; try assumption].
  - pose proof (current_eqb g s Hcur) as Heq. stale_cases Heq. reflexivity.
  - intros msg Hmsg. rewrite Herr in Hmsg. injection Hmsg as <-. apply contains_suffix.
  - intros Hst. rewrite Hs, <- list_fmap_compose.
    destruct (steps (sig s2)) as [| a [| b [| ? ?]]]; try discriminate Hst.
    cbn in Hst. injection Hst as Ha Hb. cbn.
    rewrite !markLoadingAsError_status, Ha, Hb. reflexivity.
Qed.

(** The scenario of the specification: HTTP 500 with the body
    ["server error"]. *)
Lemma submission_failure_surfaces_body_example :
  let s := app (run initialSystem Scenario.submitting) in
  let r := resumeGeneration 1 AwaitSubmitText (Resolved (VText "server error")) 5400 s in
  resumeGeneration 1 AwaitSubmit (Resolved (VResponse false 500)) 5300 s
  = (s, [ReadBody], Some AwaitSubmitText)
  /\ error (sig r.1.1) = Some "Fal.ai submission failed: server error"
  /\ status <$> steps (sig r.1.1) = [Done; Error].
Proof.
  intros s r.
  destruct (submission_failure_surfaces_body 1 500 "server error" 5300 5400 s s
              eq_refl eq_refl) as (Hread & _ & He & _ & _ & Hst & _).
  fold r in He, Hst.
  split; [exact Hread |]. split; [exact He |]. apply Hst. reflexivity.
Defined.

(** C6. On the current generation a status body that reports ERROR ends
    the run in the error state: the message is the joined log-line messages
    (the text ["Polling error."] when they join to nothing), every loading
    step becomes an error step, so stage 2 is marked error, and no mesh URL
    is set. *)
Theorem poll_error_surfaces_logs
    (g : Z) (submitResult : SubmitResult) (pollBody : PollBody) (now : Z) (s : App) :
  generationId (refs s) = g ->
  poll_status pollBody = Some "ERROR" ->
  let r := resumeGeneration g (AwaitPollJson submitResult) (Resolved (VPoll pollBody)) now s in
  r.2 = None /\ r.1.2 = []
  /\ error (sig r.1.1) = Some (logs_or (poll_logs pollBody) "Polling error.")
  /\ (forall joined, joined_logs (poll_logs pollBody) = Some joined ->
        exists msg, error (sig r.1.1) = Some msg /\ contains msg joined
                    /\ (joined <> "" -> msg = joined))
  /\ steps (sig r.1.1) = markLoadingAsError <$> steps (sig s)
  /\ (forall st, steps (sig s) !! 1%nat = Some st -> status st = Loading ->
        status <$> steps (sig r.1.1) !! 1%nat = Some Error)
  /\ modelUrl (sig r.1.1) = modelUrl (sig s)
  /\ isLoading (sig r.1.1) = false.
Proof.
  intros Hcur Hst r.
  pose proof (current_failure g _ _ now s s [] _ Hcur
                (generationBody_poll_error g submitResult pollBody now s Hst))
    as (Hend & Hout & He & Hs & _ & Hm & _ & Hl & _).
  fold r in Hend, Hout, He, Hs, Hm, Hl.
  assert (Hnonempty : forall a b, b <> "" -> Js.or_string (Js.or_string a b) "An unknown error occurred."
                                  = Js.or_string a b).
  { intros a b Hb. apply or_string_truthy. unfold Js.or_string.
    destruct a; [exact Hb | discriminate]. }
  assert (Herr : error (sig r.1.1) = Some (logs_or (poll_logs pollBody) "Polling error.")).
  { rewrite He. unfold logs_or. rewrite Hnonempty by discriminate. reflexivity. }
  repeat apply conj; try assumption.
  - intros joined Hj. eexists. split; [exact Herr |].
    unfold logs_or. rewrite Hj. cbn [default]. unfold Js.or_string.
    destruct joined as [| a rest]; cbn.
    + split; [exists "Polling error.", ""; reflexivity | congruence].
    + split; [apply contains_self | reflexivity].
  - intros st Hlook Hload. rewrite Hs, markLoadingAsError_lookup, Hlook. cbn.
    rewrite markLoadingAsError_status, Hload. reflexivity.
Qed.

(** A status body with two log lines, while stage 2 is loading. *)
Lemma poll_error_surfaces_logs_example :
  let s := app (run initialSystem Scenario.poll_answered) in
  let r := resumeGeneration 1 (AwaitPollJson Scenario.job)
             (Resolved (VPoll Scenario.failed)) 5500 s in
  error (sig r.1.1) = Some ("out of memory" +:+ Js.newline +:+ "worker stopped")
  /\ status <$> steps (sig r.1.1) !! 1%nat = Some Error.
Proof.
  intros s r.
  destruct (poll_error_surfaces_logs 1 Scenario.job Scenario.failed 5500 s
              eq_refl eq_refl) as (_ & _ & He & _ & _ & Hst & _).
  fold r in He, Hst. split; [exact He |].
  apply (Hst {| name := "Generate 3D Model"; status := Loading; time := TimeFixed2 400 |});
    reflexivity.
Defined.

(** C4. On the current generation, after a COMPLETED status the pipeline
    fetches the result and reads its body; when the result reports the
    status ERROR or carries no mesh address (absent mesh object, absent or
    null url), the run ends in the error state: the message is
    ["Generation failed: "] followed by the joined log lines or
    ["Unknown error"], every loading step becomes an error step, the mesh
    URL and the total time are not set, and no step is turned to done. *)
Theorem unusable_result_is_an_error
    (g : Z) (submitResult : SubmitResult) (pollBody : PollBody)
    (resultData : ResultData) (ok : bool) (http_status : Z) (now : Z) (s : App) :
  generationId (refs s) = g ->
  poll_status pollBody = Some "COMPLETED" ->
  result_status resultData = Some "ERROR" \/ result_mesh_url resultData = None ->
  let r := resumeGeneration g (AwaitResultJson submitResult)
             (Resolved (VResult resultData)) now s in
  resumeGeneration g (AwaitPollJson submitResult) (Resolved (VPoll pollBody)) now s
  = (s, [HttpGet (response_url submitResult)], Some (AwaitResult submitResult))
  /\ resumeGeneration g (AwaitResult submitResult) (Resolved (VResponse ok http_status)) now s
     = (s, [ReadBody], Some (AwaitResultJson submitResult))
  /\ r.2 = None
  /\ error (sig r.1.1)
     = Some ("Generation failed: " +:+ logs_or (result_logs resultData) "Unknown error")
  /\ modelUrl (sig r.1.1) = modelUrl (sig s)
  /\ totalGenerationTime (sig r.1.1) = totalGenerationTime (sig s)
  /\ steps (sig r.1.1) = markLoadingAsError <$> steps (sig s)
  /\ (forall i st, steps (sig r.1.1) !! i = Some st -> status st = Done ->
        exists st0, steps (sig s) !! i = Some st0 /\ status st0 = Done)
  /\ (forall st, steps (sig s) !! 1%nat = Some st -> status st = Loading ->
        status <$> steps (sig r.1.1) !! 1%nat = Some Error)
  /\ isLoading (sig r.1.1) = false.
Proof.
  intros Hcur Hcompleted Hbad r.
  pose proof (current_failure g _ _ now s s [] _ Hcur
                (generationBody_bad_result g submitResult resultData now s Hbad))
    as (Hend & _ & He & Hs & _ & Hm & Ht & Hl & _).
  fold r in Hend, He, Hs, Hm, Ht, Hl.
  pose proof (current_eqb g s Hcur) as Heq.
  split; [| split; [| repeat apply conj; try assumption]].
  - stale_cases Heq.
    all: try reflexivity.
    all: congruence.
  - reflexivity.
  - intros i st Hlook Hdone. rewrite Hs, markLoadingAsError_lookup in Hlook.
    destruct (steps (sig s) !! i) as [st0 |]; [| discriminate].
    cbn in Hlook. injection Hlook as <-. exists st0. split; [reflexivity |].
    rewrite markLoadingAsError_status in Hdone.
    destruct (status st0); cbn in Hdone; congruence.
  - intros st Hlook Hload. rewrite Hs, markLoadingAsError_lookup, Hlook. cbn.
    rewrite markLoadingAsError_status, Hload. reflexivity.
Qed.

(** The scenario of the specification: COMPLETED, then the result
    [{model_mesh: {url: null}}]. *)
Lemma unusable_result_is_an_error_example :
  let s := app (run initialSystem Scenario.result_answered) in
  let r := resumeGeneration 1 (AwaitResultJson Scenario.job)
             (Resolved (VResult Scenario.no_mesh)) 5700 s in
  error (sig r.1.1) = Some "Generation failed: Unknown error"
  /\ modelUrl (sig r.1.1) = None
  /\ status <$> steps (sig r.1.1) !! 1%nat = Some Error.
Proof.
  intros s r.
  destruct (unusable_result_is_an_error 1 Scenario.job Scenario.completed
              Scenario.no_mesh true 200 5700 s eq_refl eq_refl (or_intror eq_refl))
    as (_ & _ & _ & He & Hm & _ & _ & _ & Hst & _).
  fold r in He, Hm, Hst.
  split; [exact He |]. split; [rewrite Hm; reflexivity |].
  apply (Hst {| name := "Generate 3D Model"; status := Loading; time := TimeFixed2 400 |});
    reflexivity.
Defined.

(** ** The pipeline, step by step, with interval firings in between *)

Lemma start_accepted_state now s :
  files (inp s) <> [] -> isLoading (sig s) = false ->
  let r := startGeneration now s in
  r.2 = [GenerationTask (generationId (refs s) + 1) AwaitParts]
  /\ generationId (refs r.1.1) = generationId (refs s) + 1
  /\ status <$> steps (sig r.1.1) = [Loading; Pending]
  /\ modelUrl (sig r.1.1) = None /\ error (sig r.1.1) = None
  /\ isLoading (sig r.1.1) = true /\ generatedImages (sig r.1.1) = []
  /\ generationStartRef (refs r.1.1) = Some now
  /\ totalGenerationTime (sig r.1.1) = None.
Proof.
  intros Hfiles Hidle r. subst r. unfold startGeneration. rewrite Hidle.
  destruct (files (inp s)) as [| f fs] eqn:Hf; [contradiction |].
  cbn [length]. rewrite bool_decide_eq_false_2 by discriminate. cbn [orb].
  unfold resetStateForGeneration, installInitialSteps. current_render.
  unfold spawnGeneration, performGeneration, trySegment, updateStep, stopTimer.
  run_m. destruct (timerIntervalRef (refs s)); cbn; repeat split; reflexivity.
Qed.

(** Stage 1 succeeds on the current generation: step 0 is done, step 1 is
    loading, the three images are on display. *)
Lemma views_resolved g frontPart backPart leftPart now s :
  generationId (refs s) = g ->
  status <$> steps (sig s) = [Loading; Pending] ->
  let r := resumeGeneration g AwaitViews (Resolved (VViews frontPart backPart leftPart)) now s in
  r.2 = Some AwaitResize
  /\ status <$> steps (sig r.1.1) = [Done; Loading]
  /\ generatedImages (sig r.1.1)
     = [ generateSingleView "front view" frontPart;
         generateSingleView "back view" backPart;
         generateSingleView "left side view" leftPart ]
  /\ modelUrl (sig r.1.1) = modelUrl (sig s)
  /\ error (sig r.1.1) = error (sig s)
  /\ isLoading (sig r.1.1) = isLoading (sig s)
  /\ generationId (refs r.1.1) = generationId (refs s)
  /\ generationStartRef (refs r.1.1) = generationStartRef (refs s)
  /\ totalGenerationTime (sig r.1.1) = totalGenerationTime (sig s)
  /\ stepStartRef (refs r.1.1) = Some now.
Proof.
  intros Hcur Hst r. subst r. pose proof (current_eqb g s Hcur) as Heq.
  destruct (steps (sig s)) as [| a [| b [| ? ?]]] eqn:Hsteps; try discriminate Hst.
  cbn in Hst. injection Hst as Ha Hb.
  unfold resumeGeneration, trySegment, generationBody, updateStep, stopTimer.
  run_m. rewrite Heq. cbn.
  destruct (timerIntervalRef (refs s)) eqn:Ht;
    repeat first [ rewrite Ht | rewrite Hsteps | rewrite Ha | rewrite Hb | progress cbn ];
    repeat split; reflexivity.
Qed.

Lemma run_ticks_frame sy l :
  let sy' := run sy (ticks l) in
  tasks sy' = tasks sy /\ network sy' = network sy
  /\ refs (app sy') = refs (app sy) /\ inp (app sy') = inp (app sy)
  /\ status <$> steps (sig (app sy')) = status <$> steps (sig (app sy))
  /\ generatedImages (sig (app sy')) = generatedImages (sig (app sy))
  /\ modelUrl (sig (app sy')) = modelUrl (sig (app sy))
  /\ error (sig (app sy')) = error (sig (app sy))
  /\ isLoading (sig (app sy')) = isLoading (sig (app sy))
  /\ totalGenerationTime (sig (app sy')) = totalGenerationTime (sig (app sy)).
Proof.
  revert sy. induction l as [| [h now] l IH]; intros sy; [cbn; done |].
  change (run sy (ticks ((h, now) :: l))) with (run (step sy (Tick h now)) (ticks l)).
  destruct (IH (step sy (Tick h now))) as (H1 & H2 & H3 & H4 & H5 & H6 & H7 & H8 & H9 & H10).
  pose proof (tick_frame h now (app sy)) as (T1 & T2 & _ & T4 & T5 & T6 & T7 & T8 & T9 & _).
  cbn zeta. rewrite H1, H2, H3, H4, H5, H6, H7, H8, H9, H10.
  cbn [step pure_handler app tasks network]. repeat split; assumption.
Qed.

Lemma in_flight_ticks sy0 sy start pc sts l :
  in_flight sy0 sy start pc sts -> in_flight sy0 (run sy (ticks l)) start pc sts.
Proof.
  intros (Ht & Hg & Hs & Hm & He & Hl & Hb & Htt).
  pose proof (run_ticks_frame sy l) as (T1 & _ & T3 & _ & T5 & _ & T7 & T8 & T9 & T10).
  unfold in_flight. rewrite T1, T3, T5, T7, T8, T9, T10. repeat split; assumption.
Qed.

(** The last suspended call resumes. *)
Lemma step_settle_last sy l t c now :
  tasks sy = l ++ [t] ->
  step sy (Settle (length l) c now)
  = {| app := (settle t c now (app sy)).1.1;
       tasks := l ++ (settle t c now (app sy)).2;
       network := network sy ++ (settle t c now (app sy)).1.2 |}.
Proof.
  intros Ht. cbn [step]. rewrite Ht.
  rewrite (list_lookup_middle l [] t (length l) eq_refl).
  destruct (settle t c now (app sy)) as [[s' out] ts]. cbn.
  rewrite (delete_middle l [] t). rewrite app_nil_r. reflexivity.
Qed.

Lemma in_flight_start sy now :
  files (inp (app sy)) <> [] -> isLoading (sig (app sy)) = false ->
  in_flight sy (step sy (ClickGenerate now)) now AwaitParts [Loading; Pending].
Proof.
  intros Hfiles Hidle.
  pose proof (start_accepted_state now (app sy) Hfiles Hidle)
    as (Ht & Hg & Hs & Hm & He & Hl & _ & Hb & Htt).
  unfold in_flight. cbn [step handler_result app tasks].
  rewrite Ht. repeat split; assumption.
Qed.

(** A resumption of the run in flight that leaves every cell but
    [falCancelUrl] alone moves it to the next await. *)
Lemma in_flight_advance sy0 sy start pc pc' sts c now out :
  in_flight sy0 sy start pc sts ->
  (forall s, generationId (refs s) = generationId (refs (app sy0)) + 1 ->
     exists u, resumeGeneration (generationId (refs (app sy0)) + 1) pc c now s
               = (set_falCancelUrl u s, out, Some pc')) ->
  in_flight sy0 (step sy (Settle (length (tasks sy0)) c now)) start pc' sts.
Proof.
  intros (Ht & Hg & Hs & Hm & He & Hl & Hb & Htt) Hres.
  destruct (Hres (app sy) Hg) as [u Hr].
  rewrite (step_settle_last sy _ _ c now Ht). cbn [settle]. rewrite Hr.
  unfold in_flight. cbn. repeat split; assumption.
Qed.

Lemma in_flight_views sy0 sy start frontPart backPart leftPart now :
  in_flight sy0 sy start AwaitViews [Loading; Pending] ->
  in_flight sy0
    (step sy (Settle (length (tasks sy0))
                (Resolved (VViews frontPart backPart leftPart)) now))
    start AwaitResize [Done; Loading].
Proof.
  intros (Ht & Hg & Hs & Hm & He & Hl & Hb & Htt).
  pose proof (views_resolved _ frontPart backPart leftPart now (app sy) Hg Hs)
    as (Hpc & Hs' & _ & Hm' & He' & Hl' & Hg' & Hb' & Htt' & _).
  rewrite (step_settle_last sy _ _ _ now Ht). cbn [settle].
  destruct (resumeGeneration _ AwaitViews _ now (app sy)) as [[s' out] pc'].
  cbn in Hpc, Hs', Hm', He', Hl', Hg', Hb', Htt'. subst pc'.
  unfold in_flight. cbn. repeat split; congruence.
Qed.

Lemma status_markLoadingAsError (l : list Step) :
  status <$> (markLoadingAsError <$> l)
  = failed_status <$> (status <$> l).
Proof.
  rewrite <- !list_fmap_compose. apply list_fmap_ext. intros i st _. cbn.
  apply markLoadingAsError_status.
Qed.

(** The run in flight fails: it is over, the message is stored and the
    loading step is in error. *)
Lemma in_flight_failure sy0 sy start pc sts c now msg :
  in_flight sy0 sy start pc sts ->
  generationBody (generationId (refs (app sy0)) + 1) pc c now (app sy)
  = (app sy, [], Thrown msg) ->
  let sy' := step sy (Settle (length (tasks sy0)) c now) in
  tasks sy' = tasks sy0
  /\ error (sig (app sy')) = Some (Js.or_string msg "An unknown error occurred.")
  /\ status <$> steps (sig (app sy'))
     = failed_status <$> sts
  /\ modelUrl (sig (app sy')) = None
  /\ totalGenerationTime (sig (app sy')) = None
  /\ isLoading (sig (app sy')) = false.
Proof.
  intros (Ht & Hg & Hs & Hm & He & Hl & Hb & Htt) Hbody sy'. subst sy'.
  pose proof (current_failure _ pc c now (app sy) (app sy) [] msg Hg Hbody)
    as (Hend & _ & He' & Hs' & _ & Hm' & Htt' & Hl' & _).
  rewrite (step_settle_last sy _ _ _ now Ht). cbn [settle].
  destruct (resumeGeneration _ pc c now (app sy)) as [[s' out] pc'].
  cbn in Hend, He', Hs', Hm', Htt', Hl'. subst pc'. cbn.
  rewrite app_nil_r. repeat split; try congruence.
  rewrite Hs', status_markLoadingAsError, Hs. reflexivity.
Qed.

(** Stage 2 succeeds on the current generation. *)
Lemma result_resolved g submitResult resultData mesh now s start :
  generationId (refs s) = g ->
  status <$> steps (sig s) = [Done; Loading] ->
  result_status resultData <> Some "ERROR" ->
  result_mesh_url resultData = Some mesh ->
  generationStartRef (refs s) = Some start -> start <> 0 ->
  let r := resumeGeneration g (AwaitResultJson submitResult)
             (Resolved (VResult resultData)) now s in
  r.2 = None
  /\ status <$> steps (sig r.1.1) = [Done; Done]
  /\ modelUrl (sig r.1.1) = Some mesh
  /\ totalGenerationTime (sig r.1.1) = Some (now - start)
  /\ isLoading (sig r.1.1) = false
  /\ error (sig r.1.1) = error (sig s)
  /\ generationStartRef (refs r.1.1) = None
  /\ falCancelUrl (refs r.1.1) = None
  /\ timerIntervalRef (refs r.1.1) = None.
Proof.
  intros Hcur Hst Hok Hmesh Hstart Hnz r. subst r.
  pose proof (current_eqb g s Hcur) as Heq.
  assert (Htruthy : Js.truthy_number start = true).
  { unfold Js.truthy_number. destruct (Z.eqb_spec start 0); [contradiction | reflexivity]. }
  destruct (steps (sig s)) as [| a [| b [| ? ?]]] eqn:Hsteps; try discriminate Hst.
  cbn in Hst. injection Hst as Ha Hb.
  unfold resumeGeneration, trySegment, generationBody, afterPolling, generationFinally,
    updateStep, stopTimer.
  run_m. rewrite bool_decide_eq_false_2 by exact Hok. rewrite Hmesh.
  destruct (timerIntervalRef (refs s)) eqn:Ht;
    repeat first [ rewrite Heq | rewrite Ht | rewrite Hsteps | rewrite Ha | rewrite Hb
                 | rewrite Hstart | rewrite Htruthy | progress cbn ];
    repeat split; reflexivity.
Qed.

Lemma run_cons sy e es : run sy (e :: es) = run (step sy e) es.
Proof. reflexivity. Qed.

(** One run, for every choice the environment makes: the clock readings,
    the interval firings in between and the payloads. *)
Section PipelineRun.

Variable sy : System.
Variable ch : Choices.

Hypothesis has_files : files (inp (app sy)) <> [].
Hypothesis idle : isLoading (sig (app sy)) = false.

Let i := length (tasks sy).
Let start := run_clock ch 0.

Ltac same_state s :=
  exists (falCancelUrl (refs s)); destruct s as [sg ip [? ? ? ? ?] en rn]; reflexivity.

Ltac same_state_current s Hg :=
  exists (falCancelUrl (refs s));
  let Heq := fresh "Heq" in
  pose proof (current_eqb _ s Hg) as Heq; stale_cases Heq;
  destruct s as [sg ip [? ? ? ? ?] en rn]; reflexivity.

Lemma submitting_in_flight :
  in_flight sy (run sy (submitting_events i ch)) start AwaitSubmit [Done; Loading].
Proof.
  unfold submitting_events.
  rewrite run_cons, run_app, run_cons, run_app, run_cons, run_app, run_cons.
  apply in_flight_ticks.
  eapply in_flight_advance.
  { apply in_flight_ticks, in_flight_views, in_flight_ticks.
    eapply in_flight_advance.
    { apply in_flight_ticks, in_flight_start; assumption. }
    intros s _. same_state s. }
  intros s Hg. same_state_current s Hg.
Qed.

(** The scenario of C5 for every run: whatever the files, the views, the
    clock readings and the interval firings in between, a refused submission
    ends the run with the body in the message, stage 1 done and stage 2 in
    error. *)
Lemma submission_refused_run http_status body :
  let final := run sy (submission_refused_events i ch http_status body) in
  error (sig (app final)) = Some ("Fal.ai submission failed: " +:+ body)
  /\ status <$> steps (sig (app final)) = [Done; Error]
  /\ modelUrl (sig (app final)) = None
  /\ isLoading (sig (app final)) = false
  /\ tasks final = tasks sy.
Proof.
  intros final. subst final. unfold submission_refused_events.
  rewrite run_app, run_cons, run_app.
  change (run ?x [?e]) with (step x e).
  match goal with |- context [step ?x (Settle i (Resolved (VText body)) _)] =>
    assert (Hfl : in_flight sy x start AwaitSubmitText [Done; Loading]) end.
  { apply in_flight_ticks. eapply in_flight_advance; [apply submitting_in_flight |].
    intros s Hg. same_state_current s Hg. }
  pose proof (in_flight_failure sy _ _ _ _ _ (run_clock ch 5) _ Hfl
                (generationBody_submission_refused _ body _ _))
    as (Ht & He & Hs & Hm & _ & Hl).
  repeat split; assumption.
Qed.

(** The job is accepted; any number of polls find it still running. *)
Hypothesis waiting : Forall still_running (run_rounds ch).

Lemma rounds_in_flight sy' (l : list WaitingRound) :
  Forall still_running l ->
  in_flight sy sy' start (AwaitPoll (run_job ch)) [Done; Loading] ->
  in_flight sy (run sy' (l ≫= round_events i)) start (AwaitPoll (run_job ch))
    [Done; Loading].
Proof.
  intros Hl. revert sy'. induction Hl as [| r l [Hnc Hne] _ IH]; intros sy' Hfl; [exact Hfl |].
  cbn [mbind list_bind]. rewrite run_app. apply IH. unfold round_events.
  rewrite run_cons, run_app, run_cons, run_app, run_cons.
  apply in_flight_ticks. eapply in_flight_advance.
  { apply in_flight_ticks. eapply in_flight_advance.
    { apply in_flight_ticks. eapply in_flight_advance; [exact Hfl |].
      intros s _. same_state s. }
    intros s _. exists (falCancelUrl (refs s)).
    unfold resumeGeneration, trySegment, generationBody. run_m.
    rewrite !bool_decide_eq_false_2 by assumption.
    destruct s as [sg ip [? ? ? ? ?] en rn]. reflexivity. }
  intros s Hg. same_state_current s Hg.
Qed.

Lemma polling_in_flight :
  in_flight sy (run sy (polling_events i ch)) start (AwaitPoll (run_job ch))
    [Done; Loading].
Proof.
  unfold polling_events. rewrite run_app, run_cons, run_app, run_cons, run_app.
  apply rounds_in_flight; [exact waiting |].
  apply in_flight_ticks. eapply in_flight_advance.
  { apply in_flight_ticks. eapply in_flight_advance; [apply submitting_in_flight |].
    intros s Hg. same_state_current s Hg. }
  intros s Hg. exists (cancel_url (run_job ch)).
  pose proof (current_eqb _ s Hg) as Heq. stale_cases Heq. reflexivity.
Qed.

(** The scenario of C6 for every run. *)
Lemma poll_failed_run pollBody :
  poll_status pollBody = Some "ERROR" ->
  let final := run sy (poll_failed_events i ch pollBody) in
  error (sig (app final)) = Some (logs_or (poll_logs pollBody) "Polling error.")
  /\ status <$> steps (sig (app final)) = [Done; Error]
  /\ modelUrl (sig (app final)) = None
  /\ isLoading (sig (app final)) = false
  /\ tasks final = tasks sy.
Proof.
  intros Hst final. subst final. unfold poll_failed_events.
  rewrite run_app, run_cons, run_app.
  change (run ?x [?e]) with (step x e).
  match goal with |- context [step ?x (Settle i (Resolved (VPoll pollBody)) _)] =>
    assert (Hfl : in_flight sy x start (AwaitPollJson (run_job ch)) [Done; Loading]) end.
  { apply in_flight_ticks. eapply in_flight_advance; [apply polling_in_flight |].
    intros s _. same_state s. }
  pose proof (in_flight_failure sy _ _ _ _ _ (run_clock ch 7) _ Hfl
                (generationBody_poll_error _ (run_job ch) pollBody _ _ Hst))
    as (Ht & He & Hs & Hm & _ & Hl).
  repeat split; try assumption.
  etrans; [exact He |]. unfold logs_or. apply f_equal, or_string_truthy.
  unfold Js.or_string. destruct (default "" _); discriminate.
Qed.

(** After a COMPLETED status the result body is awaited. *)
Lemma result_in_flight pollBody :
  poll_status pollBody = Some "COMPLETED" ->
  in_flight sy (run sy (completed_events i ch pollBody)) start
    (AwaitResultJson (run_job ch)) [Done; Loading].
Proof.
  intros Hst. unfold completed_events.
  rewrite run_app, run_cons, run_app, run_cons, run_app.
  change (run ?x [?e]) with (step x e).
  eapply in_flight_advance.
  { apply in_flight_ticks. eapply in_flight_advance.
    { apply in_flight_ticks. eapply in_flight_advance; [apply polling_in_flight |].
      intros s _. same_state s. }
    intros s _. exists (falCancelUrl (refs s)).
    unfold resumeGeneration, trySegment, generationBody. run_m.
    rewrite bool_decide_eq_true_2 by assumption.
    destruct s as [sg ip [? ? ? ? ?] en rn]. reflexivity. }
  intros s _. same_state s.
Qed.

(** The scenario of C4 for every run. *)
Lemma unusable_result_run pollBody resultData :
  poll_status pollBody = Some "COMPLETED" ->
  result_status resultData = Some "ERROR" \/ result_mesh_url resultData = None ->
  let final := run sy (completed_events i ch pollBody
                         ++ [Settle i (Resolved (VResult resultData)) (run_clock ch 9)]) in
  error (sig (app final))
  = Some ("Generation failed: " +:+ logs_or (result_logs resultData) "Unknown error")
  /\ status <$> steps (sig (app final)) = [Done; Error]
  /\ modelUrl (sig (app final)) = None
  /\ totalGenerationTime (sig (app final)) = None
  /\ isLoading (sig (app final)) = false
  /\ tasks final = tasks sy.
Proof.
  intros Hst Hbad final. subst final. rewrite run_app.
  change (run ?x [?e]) with (step x e).
  pose proof (in_flight_failure sy _ _ _ _ _ (run_clock ch 9) _ (result_in_flight pollBody Hst)
                (generationBody_bad_result _ (run_job ch) resultData _ _ Hbad))
    as (Ht & He & Hs & Hm & Htt & Hl).
  repeat split; assumption.
Qed.

(** The round trip of the specification: a run without errors ends with
    the mesh address, both steps done, and the total time from Generate to
    the result. *)
Lemma successful_run pollBody resultData mesh :
  poll_status pollBody = Some "COMPLETED" ->
  result_status resultData <> Some "ERROR" ->
  result_mesh_url resultData = Some mesh ->
  run_clock ch 0 <> 0 ->
  let final := run sy (completed_events i ch pollBody
                         ++ [Settle i (Resolved (VResult resultData)) (run_clock ch 9)]) in
  modelUrl (sig (app final)) = Some mesh
  /\ status <$> steps (sig (app final)) = [Done; Done]
  /\ totalGenerationTime (sig (app final)) = Some (run_clock ch 9 - run_clock ch 0)
  /\ error (sig (app final)) = None
  /\ isLoading (sig (app final)) = false
  /\ tasks final = tasks sy.
Proof.
  intros Hst Hok Hmesh Hnz final. subst final. rewrite run_app.
  change (run ?x [?e]) with (step x e).
  destruct (result_in_flight pollBody Hst) as (Ht & Hg & Hs & Hm & He & Hl & Hb & Htt).
  match type of Ht with tasks ?x = _ =>
    pose proof (result_resolved _ (run_job ch) resultData mesh (run_clock ch 9) (app x)
                  start Hg Hs Hok Hmesh Hb Hnz)
      as (Hend & Hs' & Hm' & Htt' & Hl' & He' & _);
    rewrite He in He';
    rewrite (step_settle_last x _ _ _ (run_clock ch 9) Ht); cbn [settle];
    destruct (resumeGeneration _ (AwaitResultJson (run_job ch)) _ (run_clock ch 9) (app x))
      as [[s' out] pc']
  end.
  cbn in Hend, Hs', Hm', Htt', Hl', He'. subst pc' start. cbn.
  repeat split; first [ congruence | apply app_nil_r ].
Qed.

End PipelineRun.

(** The round trip on the scenario: Generate at 1000, the mesh at 9000. *)
Example successful_run_example :
  let final := run initialSystem
                 (Scenario.result_answered
                    ++ [Settle 0 (Resolved (VResult Scenario.mesh)) 9000]) in
  modelUrl (sig (app final)) = Some "https://fal.media/files/model.glb"
  /\ status <$> steps (sig (app final)) = [Done; Done]
  /\ totalGenerationTime (sig (app final)) = Some 8000
  /\ intervals (env (app final)) = []
  /\ tasks final = [].
Proof. vm_compute. repeat split. Qed.

(** ** The pure helpers: image dimensions, file names, data URLs *)

Lemma append_cons a s t : String a s +:+ t = String a (s +:+ t).
Proof. reflexivity. Qed.

Lemma append_nil t : "" +:+ t = t.
Proof. reflexivity. Qed.

Lemma round_div_nonneg (a b : Z) : 0 <= a -> 0 < b -> 0 <= Js.round_div a b.
Proof. intros Ha Hb. pose proof (round_div_nearest a b Ha Hb). nia. Qed.

Lemma round_div_zero (a b : Z) :
  0 <= a -> 0 < b -> (Js.round_div a b = 0 <-> 2 * a < b).
Proof. intros Ha Hb. pose proof (round_div_nearest a b Ha Hb). split; intros; nia. Qed.

Ltac compare_sides :=
  repeat match goal with
         | |- context [?a <? ?b] => destruct (Z.ltb_spec a b)
         end.

Lemma resizeImage_dims_within (w h maxSize : Z) :
  w <= maxSize -> h <= maxSize -> resizeImage_dims w h maxSize = (w, h).
Proof. intros Hw Hh. unfold resizeImage_dims. compare_sides; try reflexivity; lia. Qed.

(** [resizeImage] for every positive limit, not only the 1024 of its one
    call site: no side of the result is negative, longer than the limit or
    longer than it was, and dimensions that come out of [resizeImage] go
    through it unchanged. *)
Theorem resizeImage_is_idempotent (w h maxSize : Z) :
  0 <= w -> 0 <= h -> 0 < maxSize ->
  let d := resizeImage_dims w h maxSize in
  0 <= d.1 <= Z.min w maxSize
  /\ 0 <= d.2 <= Z.min h maxSize
  /\ resizeImage_dims d.1 d.2 maxSize = d.
Proof.
  intros Hw Hh Hm d.
  assert (Hd : 0 <= d.1 <= Z.min w maxSize /\ 0 <= d.2 <= Z.min h maxSize).
  { subst d. unfold resizeImage_dims.
    destruct (Z.ltb_spec h w) as [Hlt | Hge];
      [destruct (Z.ltb_spec maxSize w) as [Hbig | Hsmall]
      |destruct (Z.ltb_spec maxSize h) as [Hbig | Hsmall]]; cbn [fst snd]; try lia.
    - pose proof (round_div_nonneg (h * maxSize) w ltac:(nia) ltac:(lia)).
      pose proof (round_div_le (h * maxSize) w maxSize ltac:(nia) ltac:(lia) ltac:(nia)).
      pose proof (round_div_le (h * maxSize) w h ltac:(nia) ltac:(lia) ltac:(nia)).
      lia.
    - pose proof (round_div_nonneg (w * maxSize) h ltac:(nia) ltac:(lia)).
      pose proof (round_div_le (w * maxSize) h maxSize ltac:(nia) ltac:(lia) ltac:(nia)).
      pose proof (round_div_le (w * maxSize) h w ltac:(nia) ltac:(lia) ltac:(nia)).
      lia. }
  destruct Hd as [H1 H2]. split; [exact H1 |]. split; [exact H2 |].
  rewrite resizeImage_dims_within by lia. destruct d; reflexivity.
Qed.

(** A 4000 x 3000 image becomes 1024 x 768, and stays so. *)
Lemma resizeImage_is_idempotent_example :
  resizeImage_dims 4000 3000 1024 = (1024, 768)
  /\ resizeImage_dims (resizeImage_dims 4000 3000 1024).1
       (resizeImage_dims 4000 3000 1024).2 1024
     = resizeImage_dims 4000 3000 1024.
Proof.
  pose proof (resizeImage_is_idempotent 4000 3000 1024 ltac:(lia) ltac:(lia) ltac:(lia))
    as (_ & _ & Hidem).
  split; [reflexivity | exact Hidem].
Defined.

(** [resizeImage] can produce an empty canvas: when the longer side is cut
    to the limit, the shorter side is rounded to zero exactly when the image
    is more than [2 * maxSize] times longer than it is short. *)
Theorem resizeImage_flattens_thin_images (w h maxSize : Z) :
  0 <= w -> 0 <= h -> 0 < maxSize ->
  let d := resizeImage_dims w h maxSize in
  (h < w -> maxSize < w -> (d.2 = 0 <-> 2 * h * maxSize < w))
  /\ (w <= h -> maxSize < h -> (d.1 = 0 <-> 2 * w * maxSize < h)).
Proof.
  intros Hw Hh Hm d. subst d. unfold resizeImage_dims. split.
  - intros Hlt Hbig.
    destruct (Z.ltb_spec h w); [| lia]. destruct (Z.ltb_spec maxSize w); [| lia].
    cbn [snd]. rewrite round_div_zero by nia. lia.
  - intros Hge Hbig.
    destruct (Z.ltb_spec h w); [lia |]. destruct (Z.ltb_spec maxSize h); [| lia].
    cbn [fst]. rewrite round_div_zero by nia. lia.
Qed.

(** A 5000 x 2 strip becomes 1024 x 0. *)
Lemma resizeImage_flattens_thin_images_example :
  resizeImage_dims 5000 2 1024 = (1024, (resizeImage_dims 5000 2 1024).2)
  /\ (resizeImage_dims 5000 2 1024).2 = 0.
Proof.
  pose proof (resizeImage_flattens_thin_images 5000 2 1024
                ltac:(lia) ltac:(lia) ltac:(lia)) as [Hwide _].
  split; [reflexivity |].
  exact (proj2 (Hwide ltac:(lia) ltac:(lia)) ltac:(lia)).
Defined.

(** *** The file name of a fetched image *)

Lemma occurs_app c s t : occurs c (s +:+ t) = occurs c s || occurs c t.
Proof.
  induction s as [| a s IH]; [reflexivity |].
  rewrite append_cons. cbn [occurs]. rewrite IH. apply orb_assoc.
Qed.

Lemma occurs_after_last c s : occurs c (after_last c s) = false.
Proof.
  induction s as [| a s IH]; [reflexivity |]. cbn [after_last].
  destruct (occurs c s) eqn:Hs; [exact IH |].
  case_bool_decide; [exact Hs |]. cbn [occurs].
  rewrite Hs, bool_decide_eq_false_2 by assumption. reflexivity.
Qed.

Lemma after_last_app c pre rest :
  occurs c rest = false -> after_last c (pre +:+ String c rest) = rest.
Proof.
  intros Hrest. induction pre as [| a pre IH].
  - rewrite append_nil. cbn [after_last]. rewrite Hrest.
    rewrite bool_decide_eq_true_2 by reflexivity. reflexivity.
  - rewrite append_cons. cbn [after_last]. rewrite occurs_app. cbn [occurs].
    rewrite bool_decide_eq_true_2 by reflexivity. cbn [orb].
    rewrite orb_true_r. exact IH.
Qed.

Lemma occurs_before_first c s : occurs c (before_first c s) = false.
Proof.
  induction s as [| a s IH]; [reflexivity |]. cbn [before_first].
  case_bool_decide as Ha; [reflexivity |]. cbn [occurs].
  rewrite IH, bool_decide_eq_false_2 by assumption. reflexivity.
Qed.

Lemma occurs_before_first_other c d s :
  occurs d s = false -> occurs d (before_first c s) = false.
Proof.
  induction s as [| a s IH]; [reflexivity |]. cbn [occurs before_first].
  intros H. apply orb_false_elim in H as [Ha Hs].
  destruct (bool_decide (a = c)); [reflexivity |].
  cbn [occurs]. rewrite Ha, (IH Hs). reflexivity.
Qed.

(** The name [handleUrlFetch] gives the fetched image (line 180) is never
    empty and holds neither a slash nor a question mark, whatever address
    the model returned. *)
Theorem image_filename_is_a_plain_name (imageUrl : string) :
  image_filename imageUrl <> ""
  /\ occurs "/"%char (image_filename imageUrl) = false
  /\ occurs "?"%char (image_filename imageUrl) = false.
Proof.
  unfold image_filename, Js.or_string.
  destruct (before_first "?"%char (after_last "/"%char imageUrl)) as [| a r] eqn:E;
    cbn [Js.truthy_string].
  - split; [discriminate | split; reflexivity].
  - rewrite <- E. split; [rewrite E; discriminate |]. split.
    + apply occurs_before_first_other, occurs_after_last.
    + apply occurs_before_first.
Qed.

(** The name is cut from the text after the last slash of the whole
    address, query string included: it is that text up to its first question
    mark, or [product-image.jpg] when nothing is left.  A slash inside the
    query string therefore moves the name into the query. *)
Theorem image_filename_follows_last_slash (pre rest : string) :
  occurs "/"%char rest = false ->
  image_filename (pre +:+ "/" +:+ rest)
  = Js.or_string (before_first "?"%char rest) "product-image.jpg".
Proof.
  intros Hrest. unfold image_filename.
  change ("/" +:+ rest) with (String "/"%char rest).
  rewrite (after_last_app "/"%char pre rest Hrest). reflexivity.
Qed.

(** The path names [chair.png], but the query string holds a slash. *)
Lemma image_filename_follows_last_slash_example :
  image_filename "https://shop.example/img/chair.png?from=/catalogue" = "catalogue"
  /\ image_filename "https://shop.example/img/chair.png?w=800" = "chair.png"
  /\ image_filename "https://shop.example/img/" = "product-image.jpg".
Proof.
  pose proof (image_filename_follows_last_slash
                "https://shop.example/img/chair.png?from=" "catalogue" eq_refl) as H1.
  pose proof (image_filename_follows_last_slash
                "https://shop.example/img" "chair.png?w=800" eq_refl) as H2.
  pose proof (image_filename_follows_last_slash
                "https://shop.example/img" "" eq_refl) as H3.
  split; [exact H1 | split; [exact H2 | exact H3]].
Defined.

(** *** The payload of a data URL *)

Lemma split_on_none c s : occurs c s = false -> split_on c s = [s].
Proof.
  induction s as [| a s IH]; [reflexivity |]. cbn [occurs split_on].
  intros H. apply orb_false_elim in H as [Ha Hs].
  rewrite Ha, (IH Hs). reflexivity.
Qed.

Lemma split_on_head c s : split_on c s !! 0%nat = Some (before_first c s).
Proof.
  induction s as [| a s IH]; [reflexivity |]. cbn [split_on before_first].
  case_bool_decide; [reflexivity |].
  destruct (split_on c s) as [| seg rest]; [discriminate IH |].
  cbn in IH |- *. congruence.
Qed.

Lemma split_on_app c pre rest :
  occurs c pre = false ->
  split_on c (pre +:+ String c rest) = pre :: split_on c rest.
Proof.
  induction pre as [| a pre IH]; intros Hpre.
  - rewrite append_nil. cbn [split_on].
    rewrite bool_decide_eq_true_2 by reflexivity. reflexivity.
  - cbn [occurs] in Hpre. apply orb_false_elim in Hpre as [Ha Hp].
    rewrite append_cons. cbn [split_on]. rewrite Ha, (IH Hp). reflexivity.
Qed.

(** [fileToGenerativePart] takes as data what stands between the first and
    the second comma of the reader's data URL; when the URL holds no comma
    the data is [undefined]. *)
Theorem fileToGenerativePart_data_is_second_segment (header rest : string) :
  occurs ","%char header = false ->
  fileToGenerativePart_data (header +:+ "," +:+ rest) = Some (before_first ","%char rest)
  /\ fileToGenerativePart_data header = None.
Proof.
  intros Hh. unfold fileToGenerativePart_data. split.
  - change ("," +:+ rest) with (String ","%char rest).
    rewrite (split_on_app _ _ _ Hh). cbn [lookup list_lookup].
    apply (split_on_head ","%char rest).
  - rewrite (split_on_none _ _ Hh). reflexivity.
Qed.

(** The data URL of a PNG file. *)
Lemma fileToGenerativePart_data_is_second_segment_example :
  fileToGenerativePart_data "data:image/png;base64,iVBOR" = Some "iVBOR"
  /\ fileToGenerativePart_data "data:image/png;base64" = None.
Proof.
  exact (fileToGenerativePart_data_is_second_segment "data:image/png;base64" "iVBOR" eq_refl).
Defined.

(** *** The download name of a generated image *)

Lemma count_char_app c s t :
  count_char c (s +:+ t) = (count_char c s + count_char c t)%nat.
Proof.
  induction s as [| a s IH]; [reflexivity |].
  rewrite append_cons. cbn [count_char]. rewrite IH. lia.
Qed.

Lemma lower_ascii_space c : lower_ascii c = " "%char <-> c = " "%char.
Proof.
  destruct c as [[] [] [] [] [] [] [] []]; vm_compute; split; congruence.
Qed.

Lemma count_char_toLowerCase s :
  count_char " "%char (toLowerCase s) = count_char " "%char s.
Proof.
  induction s as [| a s IH]; [reflexivity |]. cbn [toLowerCase count_char].
  rewrite IH. f_equal.
  pose proof (lower_ascii_space a) as [H1 H2].
  repeat case_bool_decide; auto; tauto.
Qed.

Lemma count_char_replace_first s :
  count_char " "%char (replace_first " "%char "-"%char s)
  = Nat.pred (count_char " "%char s).
Proof.
  induction s as [| a s IH]; [reflexivity |]. cbn [replace_first].
  case_bool_decide as Ha.
  - subst a. cbn [count_char].
    rewrite (bool_decide_eq_true_2 (" "%char = " "%char)) by reflexivity.
    rewrite (bool_decide_eq_false_2 ("-"%char = " "%char)) by discriminate.
    reflexivity.
  - cbn [count_char]. rewrite IH, bool_decide_eq_false_2 by assumption. reflexivity.
Qed.

(** The download name of a generated image (line 597) turns only the first
    space of the label into a hyphen: the name has one space less than the
    label, so a label of three words keeps a space.  The three labels the
    pipeline produces give [front-view.png], [back-view.png] and
    [left-side view.png]. *)
Theorem image_download_name_keeps_later_spaces (img : GeneratedImage) (part : InlineData) :
  count_char " "%char (image_download_name img)
  = Nat.pred (count_char " "%char (label img))
  /\ image_download_name (generateSingleView "front view" part) = "front-view.png"
  /\ image_download_name (generateSingleView "back view" part) = "back-view.png"
  /\ image_download_name (generateSingleView "left side view" part) = "left-side view.png".
Proof.
  split; [| repeat split; reflexivity].
  unfold image_download_name.
  rewrite count_char_app, count_char_toLowerCase, count_char_replace_first.
  change (count_char " "%char ".png") with 0%nat. lia.
Qed.

(** *** Removing a reference image *)

Lemma setFiles_same s : setFiles (files (inp s)) s = s.
Proof. destruct s as [sg [f d m p fe ue] r e]. reflexivity. Qed.

(** [removeFile] takes out the image at [index] and nothing else: the
    images before it keep their place and the later ones move up by one; an
    index past the end changes nothing; no other cell is written.  Adding one
    image to the list and removing the image at the position it was given
    restores the list, also when the list was full and nothing was added. *)
Theorem removeFile_removes_one (index : nat) (f : File) (s : App) :
  let s' := removeFile index s in
  files (inp s') = take index (files (inp s)) ++ drop (S index) (files (inp s))
  /\ (forall j, (j < index)%nat -> files (inp s') !! j = files (inp s) !! j)
  /\ (forall j, (index <= j)%nat -> files (inp s') !! j = files (inp s) !! S j)
  /\ ((length (files (inp s)) <= index)%nat -> s' = s)
  /\ sig s' = sig s /\ refs s' = refs s /\ env s' = env s
  /\ files (inp (removeFile (length (files (inp s))) (handleFileChange (Some [f]) s)))
     = files (inp s).
Proof.
  intros s'. subst s'. unfold removeFile. cbn [setFiles upd_inp files inp sig refs env].
  split; [apply delete_take_drop |].
  split; [intros j Hj; apply list_lookup_delete_lt, Hj |].
  split; [intros j Hj; apply list_lookup_delete_ge, Hj |].
  split.
  { intros Hlen. rewrite delete_take_drop, take_ge, drop_ge, app_nil_r by lia.
    apply setFiles_same. }
  repeat split.
  unfold handleFileChange, Js.slice0. cbn [setFiles upd_inp files inp].
  set (l := files (inp s)).
  destruct (Z.ltb_spec (3 - Z.of_nat (length l)) 0) as [Hneg | Hpos].
  - replace (Z.to_nat (Z.of_nat (length [f]) + (3 - Z.of_nat (length l)))) with 0%nat
      by (cbn [length]; lia).
    rewrite take_0, app_nil_r, delete_take_drop, take_ge, drop_ge, app_nil_r by lia.
    reflexivity.
  - destruct (Z.to_nat (3 - Z.of_nat (length l))) as [| n] eqn:Hn.
    + rewrite take_0, app_nil_r, delete_take_drop, take_ge, drop_ge, app_nil_r by lia.
      reflexivity.
    + cbn [take]. rewrite take_nil.
      rewrite delete_take_drop, take_app_length, drop_ge, app_nil_r
        by (rewrite length_app; cbn; lia).
      reflexivity.
Qed.

(** *** The log lines of a failed job *)

Lemma append_assoc (a b c : string) : (a +:+ b) +:+ c = a +:+ b +:+ c.
Proof.
  induction a as [| x a IH]; [reflexivity |]. rewrite !append_cons, IH. reflexivity.
Qed.

Lemma contains_join sep (l : list string) x : x ∈ l -> contains (Js.join sep l) x.
Proof.
  induction l as [| y l IH]; intros Hin; [apply elem_of_nil in Hin; contradiction |].
  apply elem_of_cons in Hin as [-> | Hin].
  - destruct l as [| z l]; cbn [Js.join].
    + apply contains_self.
    + exists "", (sep +:+ Js.join sep (z :: l)). reflexivity.
  - destruct l as [| z l]; [apply elem_of_nil in Hin; contradiction |].
    destruct (IH Hin) as (pre & post & Heq).
    change (Js.join sep (y :: z :: l)) with (y +:+ sep +:+ Js.join sep (z :: l)).
    rewrite Heq. exists (y +:+ sep +:+ pre), post. rewrite !append_assoc. reflexivity.
Qed.

(** The message built from the log lines of a failed job (lines 327 and
    332) shows every line: each line's message occurs in it.  The fallback
    text stands in when there are no logs, no lines, or one line without a
    message; with two lines or more the joined text is never empty, so the
    fallback is not used even when every message is missing. *)
Theorem logs_or_shows_every_line (logs : list LogLine) (fallback : string) (log : LogLine) :
  log ∈ logs ->
  contains (logs_or (Some logs) fallback) (default "" (message log))
  /\ logs_or None fallback = fallback
  /\ logs_or (Some []) fallback = fallback
  /\ logs_or (Some [{| message := None |}]) fallback = fallback
  /\ (forall a b rest,
        logs_or (Some (a :: b :: rest)) fallback
        = default "" (message a) +:+ Js.newline
          +:+ Js.join Js.newline ((fun l => default "" (message l)) <$> (b :: rest))).
Proof.
  intros Hin. split; [| split; [reflexivity | split; [reflexivity | split; [reflexivity |]]]].
  - unfold logs_or, joined_logs. cbn [fmap option_fmap option_map default].
    assert (Hc : contains (Js.join Js.newline ((fun l => default "" (message l)) <$> logs))
                   (default "" (message log))).
    { apply contains_join. apply list_elem_of_fmap. exists log. split; [reflexivity | exact Hin]. }
    unfold Js.or_string.
    destruct (Js.join Js.newline _) as [| c r] eqn:Hj; cbn [Js.truthy_string];
      [| exact Hc].
    destruct Hc as (pre & post & Heq).
    destruct pre; [| discriminate Heq]. rewrite append_nil in Heq.
    destruct (default "" (message log)); [| discriminate Heq].
    exists "", fallback. reflexivity.
  - intros a b rest. unfold logs_or, joined_logs.
    cbn [fmap option_fmap option_map default list_fmap].
    change (Js.join Js.newline (?x :: ?y :: ?l))
      with (x +:+ Js.newline +:+ Js.join Js.newline (y :: l)).
    apply or_string_truthy. destruct (default "" (message a)); discriminate.
Qed.

(** The two log lines of the scenario's failed status. *)
Lemma logs_or_shows_every_line_example :
  {| message := Some "worker stopped" |} ∈ default [] (poll_logs Scenario.failed)
  /\ contains (logs_or (poll_logs Scenario.failed) "Polling error.") "worker stopped".
Proof.
  assert (Hin : {| message := Some "worker stopped" |}
                ∈ default [] (poll_logs Scenario.failed)).
  { cbn. apply elem_of_cons. right. apply elem_of_cons. left. reflexivity. }
  split; [exact Hin |].
  exact (proj1 (logs_or_shows_every_line _ "Polling error." _ Hin)).
Defined.

(** ** More on the pipeline *)

(** The pieces of [performGeneration] respect every relation that each of
    their writes respects, cell by cell. *)
Section CellFrame.

Variable R : App -> App -> Prop.
Hypothesis R_refl : forall s, R s s.
Hypothesis R_trans : forall s1 s2 s3, R s1 s2 -> R s2 s3 -> R s1 s3.
Hypothesis R_updateStep : forall index st now, respects R (updateStep index st now).
Hypothesis R_generatedImages : forall v s, R s (setGeneratedImages v s).
Hypothesis R_modelUrl : forall v s, R s (setModelUrl v s).
Hypothesis R_totalGenerationTime : forall v s, R s (setTotalGenerationTime v s).
Hypothesis R_falCancelUrl : forall v s, R s (set_falCancelUrl v s).
Hypothesis R_generationStartRef : forall v s, R s (set_generationStartRef v s).
Hypothesis R_error : forall v s, R s (setError v s).
Hypothesis R_isLoading : forall v s, R s (setIsLoading v s).
Hypothesis R_markLoadingAsError :
  forall s, R s (setSteps (markLoadingAsError <$> steps (sig s)) s).
Hypothesis R_releaseSteps : forall fresh s, R s (releaseSteps fresh s).
Hypothesis R_rerender : forall s, R s (rerender s).

Local Hint Resolve R_refl R_trans R_updateStep R_generatedImages R_modelUrl
  R_totalGenerationTime R_falCancelUrl R_generationStartRef R_error R_isLoading
  R_markLoadingAsError R_releaseSteps R_rerender : frame.

Lemma cells_generationBody g pc c now : respects R (generationBody g pc c now).
Proof. unfold generationBody, pollLoopHead, afterPolling. frame. Qed.

Lemma cells_generationCatch g msg : respects R (generationCatch g msg).
Proof. unfold generationCatch. frame. Qed.

Lemma cells_generationFinally g : respects R (generationFinally g).
Proof. unfold generationFinally. frame. Qed.

Lemma cells_resumeGeneration g pc c now s : R s (resumeGeneration g pc c now s).1.1.
Proof.
  apply (respects_trySegment R R_trans).
  - apply cells_generationBody.
  - apply cells_generationCatch.
  - apply cells_generationFinally.
Qed.

Lemma cells_performGeneration now selected s :
  R (set_generationId (generationId (refs s) + 1) s)
    (performGeneration now selected s).1.1.1.
Proof.
  unfold performGeneration.
  match goal with
  | |- context [trySegment ?b ?h ?f ?s0] =>
      pose proof (respects_trySegment R R_trans b h f) as Hseg;
      specialize (Hseg ltac:(frame)
                       ltac:(intros; apply cells_generationCatch)
                       ltac:(apply cells_generationFinally) s0);
      destruct (trySegment b h f s0) as [[s1 out] pc]
  end.
  exact Hseg.
Qed.

End CellFrame.

(** How a [try] segment ends. *)
Lemma trySegment_suspended {PC} (body : M (option PC)) handler fin s pc :
  (trySegment body handler fin s).2 = Some pc ->
  (trySegment body handler fin s).1.1 = (body s).1.1.
Proof.
  unfold trySegment. destruct (body s) as [[s1 out1] [[pc1 |] | msg |]]; cbn.
  - reflexivity.
  - destruct (fin s1) as [[s2 out2] r]. discriminate.
  - destruct (handler msg s1) as [[s2 out2] r]. destruct (fin s2) as [[s3 out3] r'].
    discriminate.
  - destruct (fin s1) as [[s2 out2] r]. discriminate.
Qed.

Lemma trySegment_ended {PC} (body : M (option PC)) handler fin s (Q P : App -> Prop) :
  Q (body s).1.1 ->
  (forall msg s1, Q s1 -> Q (handler msg s1).1.1) ->
  (forall s2, Q s2 -> P (fin s2).1.1) ->
  (trySegment body handler fin s).2 = None ->
  P (trySegment body handler fin s).1.1.
Proof.
  unfold trySegment. intros Hb Hh Hf.
  destruct (body s) as [[s1 out1] [[pc1 |] | msg |]]; cbn in Hb |- *.
  - discriminate.
  - intros _. specialize (Hf s1 Hb). destruct (fin s1) as [[s2 out2] r]. exact Hf.
  - intros _. specialize (Hh msg s1 Hb). destruct (handler msg s1) as [[s2 out2] r].
    specialize (Hf s2 Hh). destruct (fin s2) as [[s3 out3] r']. exact Hf.
  - intros _. specialize (Hf s1 Hb). destruct (fin s1) as [[s2 out2] r]. exact Hf.
Qed.

Lemma generationCatch_generationId g msg s :
  generationId (refs (generationCatch g msg s).1.1) = generationId (refs s).
Proof.
  apply (respects_generationCatch same_generation same_generation_refl
           same_generation_trans); reflexivity.
Qed.

Lemma updateStep_isLoading index st now s :
  isLoading (sig (updateStep index st now s).1.1) = isLoading (sig s).
Proof.
  pose proof (stopTimer_frame s) as (Hsig & _).
  rewrite updateStep_after_stop.
  destruct (stopTimer s) as [[s1 out1] r1]. cbn in Hsig. cbn [fst snd]. rewrite <- Hsig.
  assert (Hr : timerIntervalRef (refs (stopTimer s1).1.1) = None).
  { unfold stopTimer. run_m. destruct (timerIntervalRef (refs s1)) eqn:E; cbn; auto. }
  unfold updateStep. rewrite bind_stopTimer.
  pose proof (stopTimer_frame s1) as (Hsig1 & _).
  destruct (stopTimer s1) as [[s2 out2] r2]. cbn in Hsig1, Hr. cbn [fst snd].
  rewrite <- Hsig1. run_m.
  destruct st; destruct (steps (sig s2) !! index); reflexivity.
Qed.

Lemma generationBody_isLoading g pc c now s :
  isLoading (sig (generationBody g pc c now s).1.1) = isLoading (sig s).
Proof.
  apply (cells_generationBody (fun s s' => isLoading (sig s') = isLoading (sig s)));
    try reflexivity.
  - intros s1 s2 s3 H1 H2. congruence.
  - intros index st now' s'. apply updateStep_isLoading.
Qed.

Lemma resumeGeneration_goes_on g pc c now s pc' :
  (resumeGeneration g pc c now s).2 = Some pc' ->
  isLoading (sig (resumeGeneration g pc c now s).1.1) = isLoading (sig s).
Proof.
  intros Hend. unfold resumeGeneration in *.
  rewrite (trySegment_suspended _ _ _ _ _ Hend). apply generationBody_isLoading.
Qed.

Lemma resumeGeneration_ends g pc c now s :
  generationId (refs s) = g ->
  (resumeGeneration g pc c now s).2 = None ->
  isLoading (sig (resumeGeneration g pc c now s).1.1) = false
  /\ falCancelUrl (refs (resumeGeneration g pc c now s).1.1) = None.
Proof.
  intros Hcur Hend. unfold resumeGeneration in *.
  apply (trySegment_ended _ _ _ _ (fun s' => generationId (refs s') = g)
           (fun s' => isLoading (sig s') = false /\ falCancelUrl (refs s') = None)).
  - rewrite generationBody_generationId. exact Hcur.
  - intros msg s1 H1. rewrite generationCatch_generationId. exact H1.
  - intros s2 H2. unfold generationFinally. run_m.
    rewrite (current_eqb g s2 H2). cbn. split; reflexivity.
  - exact Hend.
Qed.

(** The [finally] block releases the busy flag and forgets the cancel
    address whenever a [performGeneration] that is still current ends, be it
    by success, by an error of any kind or by an early return; and as long as
    it only moves on to its next [await], the busy flag stays as it is. *)
Theorem generation_end_releases
    (g : Z) (pc : GenPC) (c : Completion) (now : Z) (s : App) :
  generationId (refs s) = g ->
  let r := resumeGeneration g pc c now s in
  match r.2 with
  | None => isLoading (sig r.1.1) = false /\ falCancelUrl (refs r.1.1) = None
  | Some _ => isLoading (sig r.1.1) = isLoading (sig s)
  end.
Proof.
  intros Hcur r. subst r.
  destruct (resumeGeneration g pc c now s).2 as [pc' |] eqn:Hend.
  - eapply resumeGeneration_goes_on, Hend.
  - apply resumeGeneration_ends; assumption.
Qed.

(** The polling run of the scenario: a status answer moves on and leaves
    the busy flag set; an ERROR status ends the run and releases it. *)
Lemma generation_end_releases_example :
  let s := app (run initialSystem Scenario.poll_answered) in
  generationId (refs s) = 1
  /\ isLoading (sig (resumeGeneration 1 (AwaitPollJson Scenario.job)
                       (Resolved (VPoll Scenario.in_progress)) 5500 s).1.1) = isLoading (sig s)
  /\ isLoading (sig (resumeGeneration 1 (AwaitPollJson Scenario.job)
                       (Resolved (VPoll Scenario.failed)) 5500 s).1.1) = false
  /\ falCancelUrl (refs (resumeGeneration 1 (AwaitPollJson Scenario.job)
                           (Resolved (VPoll Scenario.failed)) 5500 s).1.1) = None.
Proof.
  intros s.
  assert (Hcur : generationId (refs s) = 1) by reflexivity.
  pose proof (generation_end_releases 1 (AwaitPollJson Scenario.job)
                (Resolved (VPoll Scenario.in_progress)) 5500 s Hcur) as Hon.
  pose proof (generation_end_releases 1 (AwaitPollJson Scenario.job)
                (Resolved (VPoll Scenario.failed)) 5500 s Hcur) as Hoff.
  split; [exact Hcur |]. split; [exact Hon |]. exact Hoff.
Defined.

(** Where a superseded [performGeneration] stops before the polling loop.
    The id is not compared after the files are read, so the three view
    requests are still sent; at each later await before the loop the
    continuation ends without a request and without a write, except that the
    submission body's cancel address is stored before the id is compared.  A
    rejected await ends it silently wherever it stands. *)
Theorem superseded_generation_before_polling (g : Z) (now : Z) (s : App) :
  g <> generationId (refs s) ->
  (forall imageParts,
     resumeGeneration g AwaitParts (Resolved (VParts imageParts)) now s
     = (s, [ GenerateContent "gemini-2.5-flash-image-preview" "front view";
             GenerateContent "gemini-2.5-flash-image-preview" "back view";
             GenerateContent "gemini-2.5-flash-image-preview" "left side view" ],
        Some AwaitViews))
  /\ (forall frontPart backPart leftPart,
        resumeGeneration g AwaitViews (Resolved (VViews frontPart backPart leftPart)) now s
        = (s, [], None))
  /\ (forall frontResized backResized leftResized,
        resumeGeneration g AwaitResize
          (Resolved (VResized frontResized backResized leftResized)) now s
        = (s, [], None))
  /\ (forall ok http_status,
        resumeGeneration g AwaitSubmit (Resolved (VResponse ok http_status)) now s
        = (s, [], None))
  /\ (forall body,
        resumeGeneration g AwaitSubmitText (Resolved (VText body)) now s = (s, [], None))
  /\ (forall submitResult,
        resumeGeneration g AwaitSubmitJson (Resolved (VSubmit submitResult)) now s
        = (set_falCancelUrl (cancel_url submitResult) s, [], None))
  /\ (forall pc msg, resumeGeneration g pc (Rejected msg) now s = (s, [], None)).
Proof.
  intros Hne. pose proof (stale_eqb g s Hne) as Hcur.
  repeat split; intros; stale_cases Hcur; reflexivity.
Qed.

(** The user cancels while the submission body is being read: no cancel
    address is known yet, so the cancel sends no request; the superseded
    continuation then stores the address of the job nobody cancelled. *)
Lemma superseded_generation_before_polling_example :
  let sy := run initialSystem
              (Scenario.submitting
                 ++ [Settle 0 (Resolved (VResponse true 200)) 5300; ClickCancel]) in
  tasks sy = [GenerationTask 1 AwaitSubmitJson]
  /\ generationId (refs (app sy)) = 2
  /\ falCancelUrl (refs (app sy)) = None
  /\ resumeGeneration 1 AwaitSubmitJson (Resolved (VSubmit Scenario.job)) 5350 (app sy)
     = (set_falCancelUrl (cancel_url Scenario.job) (app sy), [], None).
Proof.
  intros sy.
  assert (Hne : 1 <> generationId (refs (app sy))) by (vm_compute; discriminate).
  destruct (superseded_generation_before_polling 1 5350 (app sy) Hne)
    as (_ & _ & _ & _ & _ & Hjob & _).
  split; [reflexivity |]. split; [reflexivity |]. split; [reflexivity |].
  exact (Hjob Scenario.job).
Defined.

(** *** The interval of a loading step *)

Lemma updateStep_loading index st t0 s :
  timer_inv s -> steps (sig s) !! index = Some st ->
  let s1 := (updateStep index Loading t0 s).1.1 in
  intervals (env s1) = [(nextHandle (env s), index)]
  /\ timerIntervalRef (refs s1) = Some (nextHandle (env s))
  /\ stepStartRef (refs s1) = Some t0
  /\ steps (sig s1)
     = <[index := {| name := name st; status := Loading; time := TimeFixed2 0 |}]>
         (steps (sig s)).
Proof.
  intros Hinv Hst s1. subst s1. destruct (stopTimer_stops s Hinv) as [Hi Hr].
  pose proof (stopTimer_frame s) as (Hsig & _).
  assert (Hnext : nextHandle (env (stopTimer s).1.1) = nextHandle (env s)).
  { unfold stopTimer. run_m. destruct (timerIntervalRef (refs s)); reflexivity. }
  rewrite updateStep_after_stop.
  destruct (stopTimer s) as [[s0 out0] r0]. cbn in Hi, Hr, Hsig, Hnext. cbn [fst snd].
  rewrite <- Hsig in Hst |- *. rewrite <- Hnext.
  unfold updateStep, stopTimer. run_m. rewrite Hr. cbn. rewrite Hst. cbn.
  rewrite Hi. repeat split; reflexivity.
Qed.

(** The interval [updateStep (index, 'loading')] starts shows the time
    elapsed since the call: a firing at [t] sets the time of that step to
    [t - t0] and leaves the other steps alone, and a firing of any other
    interval handle does nothing at all. *)
Theorem interval_shows_elapsed_time
    (index : nat) (st : Step) (t0 t : Z) (s : App) :
  timer_inv s -> steps (sig s) !! index = Some st ->
  let s1 := (updateStep index Loading t0 s).1.1 in
  let s2 := tick (nextHandle (env s)) t s1 in
  timerIntervalRef (refs s1) = Some (nextHandle (env s))
  /\ steps (sig s1) !! index
     = Some {| name := name st; status := Loading; time := TimeFixed2 0 |}
  /\ steps (sig s2) !! index
     = Some {| name := name st; status := Loading; time := TimeFixed2 (t - t0) |}
  /\ (forall j, j <> index -> steps (sig s2) !! j = steps (sig s) !! j)
  /\ (forall h, h <> nextHandle (env s) -> tick h t s1 = s1).
Proof.
  intros Hinv Hst s1 s2.
  destruct (updateStep_loading index st t0 s Hinv Hst) as (Hi & Hr & Hstart & Hsteps).
  fold s1 in Hi, Hr, Hstart, Hsteps.
  assert (Hlt : (index < length (steps (sig s)))%nat) by (eapply lookup_lt_Some, Hst).
  assert (H1 : steps (sig s1) !! index
               = Some {| name := name st; status := Loading; time := TimeFixed2 0 |}).
  { rewrite Hsteps. apply list_lookup_insert_eq, Hlt. }
  assert (Hs2 : steps (sig s2)
                = imap (fun i st' =>
                          if (i =? index)%nat && StepStatus_eqb (status st') Loading
                          then {| name := name st'; status := status st';
                                  time := TimeFixed2 (t - t0) |}
                          else st') (steps (sig s1))).
  { subst s2. unfold tick. rewrite Hi. cbn [interval_index].
    rewrite Pos.eqb_refl. unfold intervalCallback. rewrite Hstart. reflexivity. }
  split; [exact Hr |]. split; [exact H1 |]. split; [| split].
  - rewrite Hs2, list_lookup_imap, H1. cbn. rewrite Nat.eqb_refl. reflexivity.
  - intros j Hj. rewrite Hs2, list_lookup_imap, Hsteps.
    rewrite list_lookup_insert_ne by congruence.
    destruct (steps (sig s) !! j) as [st' |]; [| reflexivity]. cbn.
    rewrite (proj2 (Nat.eqb_neq j index) Hj). reflexivity.
  - intros h Hh. unfold tick. rewrite Hi. cbn [interval_index].
    rewrite (proj2 (Pos.eqb_neq (nextHandle (env s)) h)) by congruence. reflexivity.
Qed.

(** Stage 1 starts loading at 1000 and its interval fires at 1100. *)
Lemma interval_shows_elapsed_time_example :
  let s := setSteps initialSteps initialApp in
  let s1 := (updateStep 0 Loading 1000 s).1.1 in
  timer_inv s
  /\ steps (sig (tick 1 1100 s1)) !! 0%nat
     = Some {| name := "Generate View Images"; status := Loading; time := TimeFixed2 100 |}
  /\ tick 7 1100 s1 = s1.
Proof.
  intros s s1.
  assert (Hinv : timer_inv s) by reflexivity.
  destruct (interval_shows_elapsed_time 0
              {| name := "Generate View Images"; status := Pending; time := TimeNumber 0 |}
              1000 1100 s Hinv eq_refl) as (_ & _ & Htick & _ & Hother).
  split; [exact Hinv |]. split; [exact Htick |].
  apply Hother. discriminate.
Defined.

(** *** The polling loop has no limit *)

Lemma in_flight_advance_network sy0 sy start pc pc' sts c now out :
  in_flight sy0 sy start pc sts ->
  (forall s, generationId (refs s) = generationId (refs (app sy0)) + 1 ->
     exists u, resumeGeneration (generationId (refs (app sy0)) + 1) pc c now s
               = (set_falCancelUrl u s, out, Some pc')) ->
  network (step sy (Settle (length (tasks sy0)) c now)) = network sy ++ out.
Proof.
  intros (Ht & Hg & _) Hres.
  destruct (Hres (app sy) Hg) as [u Hr].
  rewrite (step_settle_last sy _ _ c now Ht). cbn [settle]. rewrite Hr. reflexivity.
Qed.

Lemma run_ticks_network sy l : network (run sy (ticks l)) = network sy.
Proof. apply (run_ticks_frame sy l). Qed.

Ltac unchanged s :=
  exists (falCancelUrl (refs s)); destruct s as [sg ip [? ? ? ? ?] en rn]; reflexivity.

Ltac unchanged_current s Hg :=
  exists (falCancelUrl (refs s));
  let Heq := fresh "Heq" in
  pose proof (current_eqb _ s Hg) as Heq; stale_cases Heq;
  destruct s as [sg ip [? ? ? ? ?] en rn]; reflexivity.

Lemma waiting_round sy0 sy start job (r : WaitingRound) :
  still_running r ->
  in_flight sy0 sy start (AwaitPoll job) [Done; Loading] ->
  let sy' := run sy (round_events (length (tasks sy0)) r) in
  in_flight sy0 sy' start (AwaitPoll job) [Done; Loading]
  /\ network sy' = network sy ++ round_requests job.
Proof.
  intros [Hnc Hne] Hfl sy'. subst sy'. unfold round_events, round_requests.
  rewrite run_cons, run_app, run_cons, run_app, run_cons.
  set (sy1 := run (step sy (Settle _ (Resolved (VResponse _ _)) _)) (ticks _)).
  assert (Hfl1 : in_flight sy0 sy1 start (AwaitPollJson job) [Done; Loading]
                 /\ network sy1 = network sy ++ [ReadBody]).
  { subst sy1. split.
    - apply in_flight_ticks. eapply in_flight_advance; [exact Hfl |].
      intros s _. unchanged s.
    - rewrite run_ticks_network.
      eapply in_flight_advance_network; [exact Hfl |]. intros s _. unchanged s. }
  destruct Hfl1 as [Hfl1 Hn1].
  set (sy2 := run (step sy1 (Settle _ (Resolved (VPoll _)) _)) (ticks _)).
  assert (Hstep2 : forall s,
            generationId (refs s) = generationId (refs (app sy0)) + 1 ->
            exists u, resumeGeneration (generationId (refs (app sy0)) + 1)
                        (AwaitPollJson job) (Resolved (VPoll (round_body r)))
                        (round_clock r).1.2 s
                      = (set_falCancelUrl u s, [Sleep 5000], Some (AwaitDelay job))).
  { intros s _. exists (falCancelUrl (refs s)).
    unfold resumeGeneration, trySegment, generationBody. run_m.
    rewrite !bool_decide_eq_false_2 by assumption.
    destruct s as [sg ip [? ? ? ? ?] en rn]. reflexivity. }
  assert (Hfl2 : in_flight sy0 sy2 start (AwaitDelay job) [Done; Loading]
                 /\ network sy2 = network sy1 ++ [Sleep 5000]).
  { subst sy2. split.
    - apply in_flight_ticks. eapply in_flight_advance; [exact Hfl1 | exact Hstep2].
    - rewrite run_ticks_network.
      eapply in_flight_advance_network; [exact Hfl1 | exact Hstep2]. }
  destruct Hfl2 as [Hfl2 Hn2].
  split.
  - apply in_flight_ticks. eapply in_flight_advance; [exact Hfl2 |].
    intros s Hg. unchanged_current s Hg.
  - rewrite run_ticks_network.
    erewrite in_flight_advance_network; [| exact Hfl2 |].
    + rewrite Hn2, Hn1, <- !app_assoc. reflexivity.
    + intros s Hg. unchanged_current s Hg.
Qed.

(** The polling loop has no limit of its own: however many status answers
    report the job as neither COMPLETED nor ERROR, with whatever clock
    readings and interval firings in between, the run is still in flight
    afterwards, waiting for the next status answer with stage 2 loading, no
    error and the busy flag set; and each round has issued exactly one further
    status request, after a delay of 5000 ms. *)
Theorem polling_goes_on_without_limit
    (sy0 sy : System) (start : Z) (job : SubmitResult) (rounds : list WaitingRound) :
  Forall still_running rounds ->
  in_flight sy0 sy start (AwaitPoll job) [Done; Loading] ->
  let sy' := run sy (rounds ≫= round_events (length (tasks sy0))) in
  in_flight sy0 sy' start (AwaitPoll job) [Done; Loading]
  /\ network sy' = network sy ++ (rounds ≫= fun _ => round_requests job).
Proof.
  intros Hl. revert sy. induction Hl as [| r l Hr _ IH]; intros sy Hfl sy'; subst sy'.
  - cbn. rewrite app_nil_r. split; [exact Hfl | reflexivity].
  - cbn [mbind list_bind]. rewrite run_app.
    destruct (waiting_round sy0 sy start job r Hr Hfl) as [Hfl' Hn'].
    destruct (IH _ Hfl') as [Hfl'' Hn''].
    split; [exact Hfl'' |]. rewrite Hn'', Hn', <- app_assoc. reflexivity.
Qed.

(** Two rounds on the scenario: the run that was polling is polling still,
    and six requests went out, two of them status requests. *)
Lemma polling_goes_on_without_limit_example :
  let sy0 := run initialSystem [SelectFiles (Some [Scenario.photo])] in
  let sy := run initialSystem Scenario.polling in
  let round := {| round_response := (true, 200); round_body := Scenario.in_progress;
                  round_clock := (6000, 6100, 11100);
                  round_ticks := ([], [(2%positive, 8000)], []) |} in
  let sy' := run sy ([round; round] ≫= round_events (length (tasks sy0))) in
  in_flight sy0 sy' 1000 (AwaitPoll Scenario.job) [Done; Loading]
  /\ network sy' = network sy ++ ([round; round] ≫= fun _ => round_requests Scenario.job).
Proof.
  intros sy0 sy round.
  assert (Hw : Forall still_running [round; round]).
  { repeat constructor; discriminate. }
  assert (Hfl : in_flight sy0 sy 1000 (AwaitPoll Scenario.job) [Done; Loading]).
  { vm_compute. repeat split; reflexivity. }
  exact (polling_goes_on_without_limit sy0 sy 1000 Scenario.job [round; round] Hw Hfl).
Defined.

(** The round trip for one choice of the environment: one image, the
    events a second apart from the reading 1000 on, the interval of stage 2
    firing once, one round of waiting. *)
Lemma successful_run_witness :
  let sy := run initialSystem [SelectFiles (Some [Scenario.photo])] in
  let round := {| round_response := (true, 200); round_body := Scenario.in_progress;
                  round_clock := (6100, 6200, 11200);
                  round_ticks := ([], [(2%positive, 8000)], []) |} in
  let ch := {| run_clock := fun n => 1000 + 1000 * Z.of_nat n;
               run_firings := fun _ => [];
               run_parts := [Scenario.part];
               run_views := (Scenario.part, Scenario.part, Scenario.part);
               run_resized := ("front", "back", "left");
               run_job := Scenario.job;
               run_rounds := [round] |} in
  let final := run sy (completed_events (length (tasks sy)) ch Scenario.completed
                         ++ [Settle (length (tasks sy)) (Resolved (VResult Scenario.mesh))
                               (run_clock ch 9)]) in
  modelUrl (sig (app final)) = Some "https://fal.media/files/model.glb"
  /\ status <$> steps (sig (app final)) = [Done; Done]
  /\ totalGenerationTime (sig (app final)) = Some (run_clock ch 9 - run_clock ch 0)
  /\ error (sig (app final)) = None
  /\ isLoading (sig (app final)) = false
  /\ tasks final = tasks sy.
Proof.
  intros sy round ch.
  assert (Hfiles : files (inp (app sy)) <> []) by (vm_compute; discriminate).
  assert (Hidle : isLoading (sig (app sy)) = false) by reflexivity.
  assert (Hw : Forall still_running (run_rounds ch)).
  { repeat constructor; discriminate. }
  assert (Hnz : run_clock ch 0 <> 0) by (vm_compute; discriminate).
  exact (successful_run sy ch Hfiles Hidle Hw Scenario.completed Scenario.mesh
           "https://fal.media/files/model.glb" eq_refl ltac:(discriminate) eq_refl Hnz).
Defined.

(** *** Start *)

(** An accepted [startGeneration] composes [resetStateForGeneration],
    [performGeneration] and [updateStep (0, 'loading')]: the results of the
    previous run and its cancel address are cleared, the first step is
    loading, every reference image is read once, in order, the call is left
    suspended at the file read holding the new id, and exactly one interval
    runs afterwards, the one of the first step. *)
Theorem start_restarts_pipeline (now : Z) (s : App) :
  files (inp s) <> [] -> isLoading (sig s) = false -> timer_inv s ->
  let r := startGeneration now s in
  restarted now s r.1.1
  /\ r.1.2 = ReadFile <$> files (inp s)
  /\ r.2 = [GenerationTask (generationId (refs s) + 1) AwaitParts]
  /\ falCancelUrl (refs r.1.1) = None
  /\ intervals (env r.1.1) = [(nextHandle (env s), 0%nat)]
  /\ timerIntervalRef (refs r.1.1) = Some (nextHandle (env s)).
Proof.
  intros Hfiles Hidle Hinv r. subst r. unfold startGeneration. rewrite Hidle.
  destruct (files (inp s)) as [| f fs] eqn:Hf; [contradiction |].
  cbn [length]. rewrite bool_decide_eq_false_2 by discriminate. cbn [orb].
  unfold resetStateForGeneration, installInitialSteps. current_render.
  unfold restarted, spawnGeneration, performGeneration, trySegment, updateStep, stopTimer.
  run_m. unfold timer_inv in Hinv.
  destruct (timerIntervalRef (refs s)) as [h |] eqn:Ht; cbn; rewrite ?Hf, ?app_nil_r.
  - destruct Hinv as [[index Hi] _]. rewrite Hi. cbn.
    rewrite decide_False by (intros Hn; apply Hn; reflexivity).
    repeat split; reflexivity.
  - rewrite Hinv. repeat split; reflexivity.
Qed.

(** Generate with one image selected, on the first load. *)
Lemma start_restarts_pipeline_example :
  let s := app (run initialSystem [SelectFiles (Some [Scenario.photo])]) in
  let r := startGeneration 1000 s in
  r.1.2 = [ReadFile Scenario.photo]
  /\ r.2 = [GenerationTask 1 AwaitParts]
  /\ intervals (env r.1.1) = [(1%positive, 0%nat)].
Proof.
  intros s r.
  assert (Hfiles : files (inp s) <> []) by (vm_compute; discriminate).
  assert (Hinv : timer_inv s) by reflexivity.
  destruct (start_restarts_pipeline 1000 s Hfiles eq_refl Hinv)
    as (_ & Hreq & Htask & _ & Hint & _).
  split; [exact Hreq |]. split; [exact Htask | exact Hint].
Defined.

(** ** More invariants of the whole application *)

Lemma omap_delete {A B} (f : A -> option B) (l : list A) (i : nat) (t : A) :
  l !! i = Some t ->
  exists X Y, omap f l = X ++ from_option (fun b => [b]) [] (f t) ++ Y
              /\ omap f (delete i l) = X ++ Y.
Proof.
  intros H. exists (omap f (take i l)), (omap f (drop (S i) l)).
  rewrite delete_take_drop, omap_app. split; [| reflexivity].
  rewrite <- (take_drop_middle l i t H) at 1. rewrite omap_app. cbn.
  destruct (f t); reflexivity.
Qed.

Lemma omap_NoDup_index {A B} (f : A -> option B) (l : list A) i j a b x :
  NoDup (omap f l) ->
  l !! i = Some a -> l !! j = Some b -> f a = Some x -> f b = Some x -> i = j.
Proof.
  revert i j. induction l as [| a0 l IH]; intros i j Hnd Hi Hj Ha Hb; [discriminate |].
  cbn in Hnd.
  destruct i as [| i], j as [| j]; cbn in Hi, Hj.
  - reflexivity.
  - injection Hi as ->. rewrite Ha in Hnd. apply NoDup_cons in Hnd as [Hnin _].
    exfalso. apply Hnin. apply list_elem_of_omap. exists b.
    split; [eapply list_elem_of_lookup_2, Hj | exact Hb].
  - injection Hj as ->. rewrite Hb in Hnd. apply NoDup_cons in Hnd as [Hnin _].
    exfalso. apply Hnin. apply list_elem_of_omap. exists a.
    split; [eapply list_elem_of_lookup_2, Hi | exact Ha].
  - f_equal. apply IH; try assumption.
    destruct (f a0); [apply NoDup_cons in Hnd as [_ Hnd] |]; exact Hnd.
Qed.

(** *** One suspended [performGeneration] per id *)

Lemma spawnGeneration_fresh now sel s0 s :
  generationId (refs s0) = generationId (refs s) ->
  fresh_spawn s (spawnGeneration (performGeneration now sel s0)).2.
Proof.
  intros Hid. pose proof (performGeneration_captures now sel s0) as Hcap.
  unfold spawnGeneration.
  destruct (performGeneration now sel s0) as [[[s1 out] g] pc]. cbn in Hcap.
  destruct pc as [pc |]; [right | left]; cbn; [| reflexivity].
  rewrite Hcap, Hid. reflexivity.
Qed.

Lemma startGeneration_fresh now s : fresh_spawn s (startGeneration now s).2.
Proof.
  unfold startGeneration. destruct (_ || _); [left; reflexivity |].
  apply spawnGeneration_fresh. reflexivity.
Qed.

Lemma rerunContinue_fresh now r selected s :
  fresh_spawn s (rerunContinue now r selected s).2.
Proof. unfold rerunContinue. apply spawnGeneration_fresh. reflexivity. Qed.

Lemma rerunImageGenerationStep_fresh now s :
  fresh_spawn s (rerunImageGenerationStep now s).2.
Proof.
  unfold rerunImageGenerationStep.
  destruct (falCancelUrl (refs s)) as [u |]; [destruct (Js.truthy_string u) |];
    try apply rerunContinue_fresh.
  left. reflexivity.
Qed.

Lemma handleCancelGeneration_spawns s :
  captured_ids (handleCancelGeneration s).2 = []
  /\ omap url_fetch (handleCancelGeneration s).2 = [].
Proof.
  unfold handleCancelGeneration.
  destruct (falCancelUrl (refs (set_generationId _ s))) as [u |];
    [destruct (Js.truthy_string u) |]; split; reflexivity.
Qed.

Lemma handleUrlFetch_captured b s : captured_ids (handleUrlFetch b s).2 = [].
Proof.
  unfold handleUrlFetch. destruct (_ || _); [| destruct (negb b)]; reflexivity.
Qed.

Lemma settle_captured t c now s :
  match captured t with
  | Some g => captured_ids (settle t c now s).2 = []
              \/ captured_ids (settle t c now s).2 = [g]
  | None => fresh_spawn s (settle t c now s).2
  end.
Proof.
  destruct t as [g pc | r selected | r | pc | pc]; cbn [captured settle].
  - destruct (resumeGeneration g pc c now s) as [[s' out] [pc' |]]; [right | left];
      reflexivity.
  - apply rerunContinue_fresh.
  - left. reflexivity.
  - destruct (resumeUrlFetch pc c s) as [[s' out] [pc' |]]; left; reflexivity.
  - destruct c, pc; left; reflexivity.
Qed.

Lemma fresh_extend (ids new : list Z) (gid : Z) :
  NoDup ids -> (forall g, g ∈ ids -> g <= gid) ->
  new = [] \/ new = [gid + 1] -> NoDup (ids ++ new).
Proof.
  intros Hnd Hle [-> | ->]; [rewrite app_nil_r; exact Hnd |].
  apply NoDup_app. split; [exact Hnd |]. split; [| apply NoDup_singleton].
  intros g Hin Hin'. apply list_elem_of_singleton in Hin'. specialize (Hle g Hin). lia.
Qed.

Lemma tasks_bounded_ids sy :
  tasks_bounded sy ->
  forall g, g ∈ captured_ids (tasks sy) -> g <= generationId (refs (app sy)).
Proof.
  intros Hb g Hin. apply list_elem_of_omap in Hin as (t & Hin & Hcap).
  unfold tasks_bounded in Hb. rewrite Forall_forall in Hb. exact (Hb t Hin g Hcap).
Qed.

Lemma live_ids_handler sy r :
  tasks_bounded sy -> NoDup (captured_ids (tasks sy)) ->
  fresh_spawn (app sy) r.2 ->
  NoDup (captured_ids (tasks (handler_result sy r))).
Proof.
  intros Hb Hnd Hfresh. cbn [handler_result tasks]. unfold captured_ids.
  rewrite omap_app. eapply fresh_extend; [exact Hnd | apply tasks_bounded_ids, Hb |].
  exact Hfresh.
Qed.

Lemma live_ids_step sy e :
  tasks_bounded sy -> NoDup (captured_ids (tasks sy)) ->
  NoDup (captured_ids (tasks (step sy e))).
Proof.
  intros Hb Hnd.
  destruct e as [now | now | | | sel | sel | | | index | v | m | parses | asset |
                 | task c now | h now |]; cbn [step pure_handler tasks]; try exact Hnd.
  - apply live_ids_handler; [exact Hb | exact Hnd | apply startGeneration_fresh].
  - apply live_ids_handler; [exact Hb | exact Hnd | apply rerunImageGenerationStep_fresh].
  - apply live_ids_handler; [exact Hb | exact Hnd |].
    left. apply handleCancelGeneration_spawns.
  - apply live_ids_handler; [exact Hb | exact Hnd |].
    left. apply handleUrlFetch_captured.
  - unfold captured_ids. rewrite omap_app. cbn. rewrite app_nil_r. exact Hnd.
  - destruct (tasks sy !! task) as [t |] eqn:Ht; [| exact Hnd].
    pose proof (settle_captured t c now (app sy)) as Hset.
    destruct (settle t c now (app sy)) as [[s' out] ts]. cbn [snd] in Hset. cbn [tasks].
    destruct (omap_delete captured (tasks sy) task t Ht) as (X & Y & Hall & Hdel).
    fold (captured_ids (tasks sy)) in Hall.
    unfold captured_ids at 1. rewrite omap_app, Hdel. fold (captured_ids ts).
    rewrite Hall in Hnd.
    destruct (captured t) as [g |] eqn:Hcap; cbn in Hall, Hnd.
    + assert (Hperm : X ++ g :: Y ≡ₚ (X ++ Y) ++ [g]).
      { rewrite <- app_assoc. apply Permutation_app_head.
        change (g :: Y) with ([g] ++ Y). apply Permutation_app_comm. }
      rewrite Hperm in Hnd.
      destruct Hset as [-> | ->]; [| exact Hnd].
      rewrite app_nil_r. apply NoDup_app in Hnd as [Hnd _]. exact Hnd.
    + eapply fresh_extend; [exact Hnd | | exact Hset].
      intros g Hin. apply (tasks_bounded_ids sy Hb). rewrite Hall. exact Hin.
Qed.

(** In every reachable state no two suspended [performGeneration] calls
    hold the same generation id.  At most one of them is therefore current:
    the others can no longer pass an id comparison. *)
Theorem one_live_generation
    (es : list Event) (i j : nat) (g : Z) (pc pc' : GenPC) :
  let sy := run initialSystem es in
  NoDup (captured_ids (tasks sy))
  /\ (tasks sy !! i = Some (GenerationTask g pc) ->
      tasks sy !! j = Some (GenerationTask g pc') -> i = j).
Proof.
  intros sy.
  assert (Hnd : tasks_bounded sy /\ NoDup (captured_ids (tasks sy))).
  { subst sy. induction es as [| e es IH] using rev_ind.
    - split; [apply tasks_bounded_initial | apply NoDup_nil_2].
    - rewrite run_app. cbn [run foldl]. destruct IH as [Hb Hnd]. split.
      + apply generationId_step, Hb.
      + apply live_ids_step; assumption. }
  destruct Hnd as [_ Hnd]. split; [exact Hnd |].
  intros Hi Hj. eapply (omap_NoDup_index captured); [exact Hnd | exact Hi | exact Hj | |];
    reflexivity.
Qed.

(** *** [updateStep] always finds its step *)

Lemma updateStep_names index st now s :
  name <$> steps (sig (updateStep index st now s).1.1) = name <$> steps (sig s).
Proof.
  pose proof (stopTimer_frame s) as (Hsig & _).
  assert (Hr : timerIntervalRef (refs (stopTimer s).1.1) = None).
  { unfold stopTimer. run_m. destruct (timerIntervalRef (refs s)) eqn:E; cbn; auto. }
  rewrite updateStep_after_stop.
  destruct (stopTimer s) as [[s1 out1] r1]. cbn in Hsig, Hr. cbn [fst snd].
  rewrite <- Hsig. unfold updateStep, stopTimer. run_m. rewrite Hr.
  destruct st; destruct (steps (sig s1) !! index) as [stepToUpdate |] eqn:Hst; cbn;
    try reflexivity;
    rewrite list_fmap_insert; cbn; apply list_insert_id;
    rewrite list_lookup_fmap, Hst; reflexivity.
Qed.

(** The arrays of the earlier renders after [updateStep]: the object the
    step list shares with one of them is written there too, under its own
    name. *)
Lemma updateStep_superseded index st now s :
  superseded (renders (updateStep index st now s).1.1) = superseded (renders s)
  \/ exists stepToUpdate v,
       steps (sig s) !! index = Some stepToUpdate /\ name v = name stepToUpdate
       /\ superseded (renders (updateStep index st now s).1.1)
          = match held (renders s) !! index with
            | Some (Some r) => alter (<[index := v]>) r (superseded (renders s))
            | _ => superseded (renders s)
            end ++ [initialSteps].
Proof.
  pose proof (stopTimer_frame s) as (Hsig & _).
  assert (Hrn : renders (stopTimer s).1.1 = renders s).
  { unfold stopTimer. run_m. destruct (timerIntervalRef (refs s)); reflexivity. }
  assert (Hr : timerIntervalRef (refs (stopTimer s).1.1) = None).
  { unfold stopTimer. run_m. destruct (timerIntervalRef (refs s)) eqn:E; cbn; auto. }
  rewrite updateStep_after_stop.
  destruct (stopTimer s) as [[s1 out1] r1]. cbn in Hsig, Hrn, Hr. cbn [fst snd].
  rewrite <- Hsig, <- Hrn. unfold updateStep, stopTimer. run_m. rewrite Hr.
  destruct st; destruct (steps (sig s1) !! index) as [stepToUpdate |] eqn:Hst; cbn;
    first [ left; reflexivity
          | right; eexists stepToUpdate, _; split; [reflexivity |];
            split; [| reflexivity]; reflexivity ].
Qed.

Lemma named_insert (init : list Step) (index : nat) (v : Step) :
  name <$> init = name <$> initialSteps ->
  (name <$> initialSteps) !! index = Some (name v) ->
  name <$> <[index := v]> init = name <$> initialSteps.
Proof.
  intros Hinit Hv. rewrite list_fmap_insert, Hinit. apply list_insert_id, Hv.
Qed.

Lemma closures_named_rerender (l : list (list Step)) :
  Forall (fun init => name <$> init = name <$> initialSteps) l ->
  Forall (fun init => name <$> init = name <$> initialSteps) (l ++ [initialSteps]).
Proof. intros H. apply Forall_app. split; [exact H |]. repeat constructor. Qed.

Lemma keeps_ledger_refl s : keeps_ledger s s.
Proof. intros H. split; [exact H | intros Hr; exact Hr]. Qed.

Lemma keeps_ledger_trans s1 s2 s3 :
  keeps_ledger s1 s2 -> keeps_ledger s2 s3 -> keeps_ledger s1 s3.
Proof.
  intros H12 H23 H1. destruct (H12 H1) as [H2 Hr12]. destruct (H23 H2) as [H3 Hr23].
  split; [exact H3 | auto].
Qed.

Lemma keeps_ledger_updateStep index st now :
  respects keeps_ledger (updateStep index st now).
Proof.
  intros s [Hclosures Hsteps].
  pose proof (updateStep_names index st now s) as Hnames.
  split; [split |].
  - unfold closures_named in *.
    destruct (updateStep_superseded index st now s)
      as [-> | (stepToUpdate & v & Hst & Hv & ->)]; [exact Hclosures |].
    apply closures_named_rerender.
    destruct (held (renders s) !! index) as [[r |] |]; try exact Hclosures.
    apply Forall_alter; [exact Hclosures |].
    intros init _ Hinit. apply named_insert; [exact Hinit |].
    destruct Hsteps as [Hnil | Hready]; [rewrite Hnil in Hst; discriminate |].
    unfold steps_ready in Hready. rewrite <- Hready, list_lookup_fmap, Hst, Hv.
    reflexivity.
  - destruct Hsteps as [Hnil | Hready].
    + left. rewrite Hnil in Hnames. apply fmap_nil_inv in Hnames. exact Hnames.
    + right. unfold steps_ready in *. rewrite Hnames. exact Hready.
  - unfold steps_ready. rewrite Hnames. auto.
Qed.

Lemma keeps_ledger_markLoadingAsError s :
  keeps_ledger s (setSteps (markLoadingAsError <$> steps (sig s)) s).
Proof.
  assert (Hnames : name <$> (markLoadingAsError <$> steps (sig s)) = name <$> steps (sig s)).
  { rewrite <- list_fmap_compose. apply list_fmap_ext. intros i st _. cbn.
    apply markLoadingAsError_name_time. }
  intros [Hclosures Hsteps]. split; [split; [exact Hclosures |] |].
  - destruct Hsteps as [Hnil | Hready]; [left; cbn; rewrite Hnil; reflexivity |].
    right. unfold steps_ready in *. cbn. rewrite Hnames. exact Hready.
  - unfold steps_ready. cbn. rewrite Hnames. auto.
Qed.

Lemma keeps_ledger_releaseSteps fresh s : keeps_ledger s (releaseSteps fresh s).
Proof. intros H. split; [exact H | intros Hr; exact Hr]. Qed.

Lemma keeps_ledger_rerender s : keeps_ledger s (rerender s).
Proof.
  intros [Hclosures Hsteps]. split; [| intros Hr; exact Hr].
  split; [| exact Hsteps]. apply closures_named_rerender, Hclosures.
Qed.

Ltac ledger_frame :=
  first [ apply keeps_ledger_refl | apply keeps_ledger_trans
        | apply keeps_ledger_updateStep
        | apply keeps_ledger_markLoadingAsError
        | apply keeps_ledger_releaseSteps
        | apply keeps_ledger_rerender
        | (intros; let Hk := fresh "Hk" in
           intros Hk; split; [exact Hk | let Hr := fresh "Hr" in intros Hr; exact Hr]) ].

Lemma resumeGeneration_ledger g pc c now s :
  keeps_ledger s (resumeGeneration g pc c now s).1.1.
Proof. apply (cells_resumeGeneration keeps_ledger); ledger_frame. Qed.

Lemma performGeneration_ledger now selected s :
  keeps_ledger s (performGeneration now selected s).1.1.1.
Proof.
  apply (keeps_ledger_trans _ (set_generationId (generationId (refs s) + 1) s)).
  - intros H. split; [exact H | intros Hr; exact Hr].
  - apply (cells_performGeneration keeps_ledger); ledger_frame.
Qed.

Lemma spawnGeneration_ledger now selected s :
  keeps_ledger s (spawnGeneration (performGeneration now selected s)).1.1.
Proof.
  pose proof (performGeneration_ledger now selected s) as Hp.
  unfold spawnGeneration. destruct (performGeneration now selected s) as [[[s1 out] g] pc].
  exact Hp.
Qed.

(** [setSteps (initialSteps)], in whatever render, installs the two
    steps. *)
Lemma initialStepsOf_named r s :
  closures_named s -> name <$> initialStepsOf r s = name <$> initialSteps.
Proof.
  unfold closures_named, initialStepsOf. intros H.
  destruct (superseded (renders s) !! r) as [init |] eqn:Hr; [| reflexivity].
  rewrite Forall_lookup in H. exact (H r init Hr).
Qed.

Lemma installInitialSteps_ledger r s :
  ledger_named s ->
  ledger_named (installInitialSteps r s) /\ steps_ready (installInitialSteps r s).
Proof.
  intros [Hclosures _].
  assert (Hready : steps_ready (installInitialSteps r s)).
  { unfold steps_ready. cbn. apply initialStepsOf_named, Hclosures. }
  split; [split; [| right; exact Hready] | exact Hready].
  apply closures_named_rerender, Hclosures.
Qed.

Lemma rerunContinue_ledger now r selected s :
  ledger_named s ->
  ledger_named (rerunContinue now r selected s).1.1
  /\ steps_ready (rerunContinue now r selected s).1.1.
Proof.
  intros H.
  destruct (installInitialSteps_ledger r (setModelUrl None (setError None s)) H)
    as [Hledger Hready].
  unfold rerunContinue.
  match goal with |- context [performGeneration now selected ?s0] =>
    destruct (spawnGeneration_ledger now selected s0 Hledger) as [Hl Hr] end.
  split; [exact Hl | exact (Hr Hready)].
Qed.

Lemma resetStateForGeneration_ledger r s :
  ledger_named s ->
  ledger_named (resetStateForGeneration r s) /\ steps_ready (resetStateForGeneration r s).
Proof.
  intros H.
  exact (installInitialSteps_ledger r (setModelUrl None (setError None (setIsLoading true s))) H).
Qed.

Lemma startGeneration_ledger now s :
  ledger_named s ->
  ledger_named (startGeneration now s).1.1
  /\ (steps_ready s \/ captured_ids (startGeneration now s).2 <> [] ->
      steps_ready (startGeneration now s).1.1).
Proof.
  intros H. unfold startGeneration. destruct (_ || _).
  - split; [exact H |]. intros [Hr | Hr]; [exact Hr | contradiction].
  - destruct (resetStateForGeneration_ledger (currentRender s) s H) as [Hledger Hready].
    match goal with |- context [performGeneration now ?sel ?s0] =>
      destruct (spawnGeneration_ledger now sel s0 Hledger) as [Hl Hr] end.
    split; [exact Hl | intros _; exact (Hr Hready)].
Qed.

Lemma reset_ledger r s :
  ledger_named s -> ledger_named (reset r s) /\ steps_ready (reset r s).
Proof. intros H. exact (resetStateForGeneration_ledger r (setFiles [] s) H). Qed.

Lemma cancelContinue_ledger r s :
  ledger_named s -> ledger_named (cancelContinue r s) /\ steps_ready (cancelContinue r s).
Proof.
  intros H. unfold cancelContinue. apply reset_ledger.
  unfold stopTimer. run_m. destruct (timerIntervalRef (refs s)); exact H.
Qed.

Lemma resumeUrlFetch_ledger pc c s : keeps_ledger s (resumeUrlFetch pc c s).1.1.
Proof. apply (respects_resumeUrlFetch keeps_ledger); ledger_frame. Qed.

Lemma handleUrlFetch_ledger b s : keeps_ledger s (handleUrlFetch b s).1.1.
Proof.
  unfold handleUrlFetch. destruct (_ || _); [| destruct (negb b)]; ledger_frame.
Qed.

Lemma tick_ledger h now s : keeps_ledger s (tick h now s).
Proof.
  pose proof (tick_frame h now s) as Hf.
  destruct Hf as (_ & _ & _ & _ & _ & _ & _ & _ & _ & Hn).
  intros [Hclosures Hsteps]. split; [split |].
  - unfold tick, intervalCallback.
    destruct (interval_index h (intervals (env s))); [| exact Hclosures].
    destruct (stepStartRef (refs s)); [| exact Hclosures].
    apply closures_named_rerender, Hclosures.
  - destruct Hsteps as [Hnil | Hready].
    + left. rewrite Hnil in Hn. apply fmap_nil_inv in Hn. exact Hn.
    + right. unfold steps_ready in *. rewrite Hn. exact Hready.
  - unfold steps_ready. rewrite Hn. auto.
Qed.

Lemma ledger_named_initial : ledger_named initialApp.
Proof. split; [constructor | left; reflexivity]. Qed.

Lemma ledger_named_step sy e : ledger_named (app sy) -> ledger_named (app (step sy e)).
Proof.
  apply (invariant_step ledger_named); try (intros; assumption).
  - intros now s H. apply startGeneration_ledger, H.
  - intros now r selected s H. apply rerunContinue_ledger, H.
  - intros r s H. apply cancelContinue_ledger, H.
  - intros r s H. apply reset_ledger, H.
  - intros s H. apply keeps_ledger_rerender, H.
  - intros sel s H. destruct sel; exact H.
  - intros b s H. apply handleUrlFetch_ledger, H.
  - intros g pc c now s H. apply resumeGeneration_ledger, H.
  - intros pc c s H. apply resumeUrlFetch_ledger, H.
  - intros h now s H. apply tick_ledger, H.
Qed.

Lemma ledger_named_reachable es : ledger_named (app (run initialSystem es)).
Proof.
  induction es as [| e es IH] using rev_ind; [apply ledger_named_initial |].
  rewrite run_app. cbn [run foldl]. apply ledger_named_step, IH.
Qed.

Lemma steps_ready_step sy e :
  ledger_named (app sy) -> steps_ready (app sy) -> steps_ready (app (step sy e)).
Proof.
  intros Hl Hr.
  apply (invariant_step (fun s => ledger_named s /\ steps_ready s));
    try (intros; assumption); try (split; assumption).
  - intros now s [H1 H2]. destruct (startGeneration_ledger now s H1) as [H3 H4]. auto.
  - intros now r selected s [H1 _]. apply rerunContinue_ledger, H1.
  - intros r s [H1 _]. apply cancelContinue_ledger, H1.
  - intros r s [H1 _]. apply reset_ledger, H1.
  - intros s [H1 H2]. destruct (keeps_ledger_rerender s H1). auto.
  - intros sel s H. destruct sel; exact H.
  - intros b s [H1 H2]. destruct (handleUrlFetch_ledger b s H1). auto.
  - intros g pc c now s [H1 H2]. destruct (resumeGeneration_ledger g pc c now s H1). auto.
  - intros pc c s [H1 H2]. destruct (resumeUrlFetch_ledger pc c s H1). auto.
  - intros h now s [H1 H2]. destruct (tick_ledger h now s H1). auto.
Qed.

Lemma settle_CancelTask_captured r c now s :
  captured_ids (settle (CancelTask r) c now s).2 = [].
Proof. reflexivity. Qed.

Lemma settle_UrlFetchTask_captured pc c now s :
  captured_ids (settle (UrlFetchTask pc) c now s).2 = [].
Proof.
  cbn [settle]. destruct (resumeUrlFetch pc c s) as [[s' out] [pc' |]]; reflexivity.
Qed.

Lemma settle_DownloadTask_captured pc c now s :
  captured_ids (settle (DownloadTask pc) c now s).2 = [].
Proof. cbn [settle]. destruct c, pc; reflexivity. Qed.

Lemma settle_RerunTask_steps_ready r selected c now s :
  ledger_named s -> steps_ready (settle (RerunTask r selected) c now s).1.1.
Proof.
  intros H. cbn [settle]. pose proof (rerunContinue_ledger now r selected s H) as [_ Hr].
  destruct (rerunContinue now r selected s) as [[s' out] ts]. exact Hr.
Qed.

Lemma settle_steps_ready t c now s :
  ledger_named s ->
  captured t = None -> captured_ids (settle t c now s).2 <> [] ->
  steps_ready (settle t c now s).1.1.
Proof.
  intros Hl Hcap Hnew. destruct t as [g pc | r selected | r | pc | pc].
  - discriminate Hcap.
  - apply settle_RerunTask_steps_ready, Hl.
  - exfalso. apply Hnew, settle_CancelTask_captured.
  - exfalso. apply Hnew, settle_UrlFetchTask_captured.
  - exfalso. apply Hnew, settle_DownloadTask_captured.
Qed.

Lemma handler_steps_ready sy r :
  captured_ids (tasks sy) = [] ->
  (captured_ids r.2 <> [] -> steps_ready r.1.1) ->
  captured_ids (tasks (handler_result sy r)) <> [] ->
  steps_ready (app (handler_result sy r)).
Proof.
  unfold handler_result, captured_ids. cbn [app tasks]. intros Hids Hr.
  rewrite omap_app, Hids. exact Hr.
Qed.

(** As soon as a [performGeneration] is suspended the two steps are
    there. *)
Lemma generation_steps_ready_step sy e :
  ledger_named (app sy) ->
  (captured_ids (tasks sy) <> [] -> steps_ready (app sy)) ->
  captured_ids (tasks (step sy e)) <> [] -> steps_ready (app (step sy e)).
Proof.
  intros Hl Hinv.
  destruct (captured_ids (tasks sy)) as [| g0 ids] eqn:Hids;
    [| intros _; apply steps_ready_step; [exact Hl | apply Hinv; discriminate]].
  clear Hinv.
  destruct e as [now | now | | | sel | sel | | | index | v | m | parses | asset |
                 | task c now | h now |]; cbn [step];
    try (unfold pure_handler; cbn [tasks]; rewrite Hids; contradiction).
  - apply handler_steps_ready; [exact Hids |].
    intros H. apply startGeneration_ledger; [exact Hl | right; exact H].
  - apply handler_steps_ready; [exact Hids |].
    unfold rerunImageGenerationStep.
    destruct (falCancelUrl (refs (app sy))) as [u |]; [destruct (Js.truthy_string u) |];
      intros H; try (apply rerunContinue_ledger, Hl).
    contradiction.
  - apply handler_steps_ready; [exact Hids |].
    intros H. exfalso. apply H. apply handleCancelGeneration_spawns.
  - apply handler_steps_ready; [exact Hids |].
    intros H. exfalso. apply H. apply handleUrlFetch_captured.
  - cbn [tasks]. unfold captured_ids in *. rewrite omap_app, Hids. contradiction.
  - destruct (tasks sy !! task) as [t |] eqn:Ht; [| rewrite Hids; contradiction].
    destruct (omap_delete captured (tasks sy) task t Ht) as (X & Y & Hall & Hdel).
    fold (captured_ids (tasks sy)) in Hall. rewrite Hids in Hall.
    assert (Hcap : captured t = None).
    { destruct (captured t); [| reflexivity]. destruct X; discriminate Hall. }
    rewrite Hcap in Hall. simpl in Hall.
    pose proof (settle_steps_ready t c now (app sy) Hl Hcap) as Hready.
    destruct (settle t c now (app sy)) as [[s' out] ts]. cbn [fst snd] in Hready.
    cbn [app tasks]. unfold captured_ids at 1. rewrite omap_app, Hdel, <- Hall.
    exact Hready.
Qed.

Lemma generation_steps_ready es :
  captured_ids (tasks (run initialSystem es)) <> [] ->
  steps_ready (app (run initialSystem es)).
Proof.
  induction es as [| e es IH] using rev_ind.
  - intros H. contradiction.
  - rewrite run_app. cbn [run foldl].
    apply generation_steps_ready_step; [apply ledger_named_reachable | exact IH].
Qed.

Lemma updateStep_in_range index newStatus now s :
  steps_ready s -> (index < 2)%nat -> (updateStep index newStatus now s).2 = Normal tt.
Proof.
  intros Hready Hlt.
  pose proof (stopTimer_frame s) as (Hsig & _).
  assert (Hr : timerIntervalRef (refs (stopTimer s).1.1) = None).
  { unfold stopTimer. run_m. destruct (timerIntervalRef (refs s)) eqn:E; cbn; auto. }
  rewrite updateStep_after_stop.
  destruct (stopTimer s) as [[s1 out1] r1]. cbn in Hsig, Hr. cbn [fst snd].
  unfold steps_ready in Hready. rewrite <- Hsig in Hready.
  destruct (steps (sig s1)) as [| a [| b [| ? ?]]] eqn:Hsteps; try discriminate Hready.
  unfold updateStep, stopTimer. run_m. rewrite Hr. cbn. rewrite Hsteps.
  destruct index as [| [| ?]]; [| | lia]; destruct newStatus; reflexivity.
Qed.

(** In every reachable state in which a [performGeneration] is suspended
    the step list holds the two steps of [initialSteps], so that every
    [updateStep (0, ..)] and [updateStep (1, ..)] the pipeline makes finds
    its step: the access to an undefined step never happens. *)
Theorem updateStep_finds_its_step
    (es : list Event) (i : nat) (g : Z) (pc : GenPC)
    (index : nat) (newStatus : StepStatus) (now : Z) :
  let sy := run initialSystem es in
  tasks sy !! i = Some (GenerationTask g pc) -> (index < 2)%nat ->
  name <$> steps (sig (app sy)) = ["Generate View Images"; "Generate 3D Model"]
  /\ (updateStep index newStatus now (app sy)).2 = Normal tt.
Proof.
  intros sy Hi Hlt.
  assert (Hinv : captured_ids (tasks sy) <> [] -> steps_ready (app sy))
    by apply generation_steps_ready.
  assert (Hready : steps_ready (app sy)).
  { apply Hinv. intros Hnil.
    assert (Hin : g ∈ captured_ids (tasks sy)).
    { apply list_elem_of_omap. eexists. split; [eapply list_elem_of_lookup_2, Hi |].
      reflexivity. }
    rewrite Hnil in Hin. apply elem_of_nil in Hin. exact Hin. }
  split; [exact Hready | apply updateStep_in_range; assumption].
Qed.

(** The run of the scenario is suspended at the resize of the views. *)
Lemma updateStep_finds_its_step_example :
  let sy := run initialSystem Scenario.views_done in
  tasks sy !! 0%nat = Some (GenerationTask 1 AwaitResize)
  /\ (updateStep 1 Done 6000 (app sy)).2 = Normal tt.
Proof.
  intros sy.
  assert (Hi : tasks sy !! 0%nat = Some (GenerationTask 1 AwaitResize)) by reflexivity.
  destruct (updateStep_finds_its_step Scenario.views_done 0 1 AwaitResize 1 Done 6000
              Hi ltac:(lia)) as [_ Hnormal].
  split; [exact Hi | exact Hnormal].
Defined.

(** ** Rerun *)

(** [rerunImageGenerationStep] after its cancel request, in the closure of
    render [r] with the files [selected], on a state in which the
    [initialSteps] array of that render holds the two steps. *)
Lemma rerunContinue_restarts now r selected s :
  name <$> initialStepsOf r s = name <$> initialSteps ->
  let res := rerunContinue now r selected s in
  generationId (refs res.1.1) = generationId (refs s) + 1
  /\ steps (sig res.1.1) = <[0%nat := loading_first_step]> (initialStepsOf r s)
  /\ generatedImages (sig res.1.1) = []
  /\ modelUrl (sig res.1.1) = None
  /\ error (sig res.1.1) = None
  /\ isLoading (sig res.1.1) = true
  /\ totalGenerationTime (sig res.1.1) = None
  /\ generationStartRef (refs res.1.1) = Some now
  /\ falCancelUrl (refs res.1.1) = falCancelUrl (refs s)
  /\ inp res.1.1 = inp s
  /\ res.1.2 = ReadFile <$> selected
  /\ res.2 = [GenerationTask (generationId (refs s) + 1) AwaitParts].
Proof.
  intros Hnamed res. subst res. unfold rerunContinue, installInitialSteps.
  change (initialStepsOf r (setModelUrl None (setError None s))) with (initialStepsOf r s).
  destruct (initialStepsOf r s) as [| a [| b [| ? ?]]]; try discriminate Hnamed.
  injection Hnamed as Ha Hb.
  unfold spawnGeneration, performGeneration, trySegment, updateStep, stopTimer,
    loading_first_step.
  run_m. destruct (timerIntervalRef (refs s)); cbn; rewrite ?app_nil_r, ?Ha;
    repeat split; reflexivity.
Qed.

(** [rerunImageGenerationStep] restarts the pipeline in every reachable
    state: it asks neither for input images nor for an idle generator.  With
    a cancel address retained, the click sends the cancel request and leaves
    the call suspended, holding the render of the click and the files that
    were selected then.  The restart happens at the click when no cancel
    address is retained, and otherwise when the cancel request settles,
    fulfilled or rejected.  It reads the files of the click, whatever is
    selected when it runs; it bumps the id by one, so that every generation
    suspended before is behind the live id; the results are cleared, the busy
    flag is set, the cancel address of the previous job is kept; and the step
    list is the [initialSteps] array of the render of the click with its
    first step loading. *)
Theorem rerun_supersedes_running_generation
    (es : list Event) (now : Z) (i : nat) (c : Completion)
    (r : nat) (selected : list File) :
  let sy := run initialSystem es in
  (forall u, falCancelUrl (refs (app sy)) = Some u -> Js.truthy_string u = true ->
     step sy (ClickRerun now)
     = {| app := app sy;
          tasks := tasks sy ++ [RerunTask (currentRender (app sy)) (files (inp (app sy)))];
          network := network sy ++ [HttpPut u] |})
  /\ (forall sy',
        (Js.truthy_ostring (falCancelUrl (refs (app sy))) = false
         /\ r = currentRender (app sy) /\ selected = files (inp (app sy))
         /\ sy' = step sy (ClickRerun now))
        \/ (tasks sy !! i = Some (RerunTask r selected)
            /\ sy' = step sy (Settle i c now)) ->
        network sy' = network sy ++ (ReadFile <$> selected)
        /\ generationId (refs (app sy')) = generationId (refs (app sy)) + 1
        /\ steps (sig (app sy'))
           = <[0%nat := loading_first_step]> (initialStepsOf r (app sy))
        /\ name <$> steps (sig (app sy')) = ["Generate View Images"; "Generate 3D Model"]
        /\ generatedImages (sig (app sy')) = []
        /\ modelUrl (sig (app sy')) = None
        /\ error (sig (app sy')) = None
        /\ isLoading (sig (app sy')) = true
        /\ totalGenerationTime (sig (app sy')) = None
        /\ generationStartRef (refs (app sy')) = Some now
        /\ falCancelUrl (refs (app sy')) = falCancelUrl (refs (app sy))
        /\ inp (app sy') = inp (app sy)
        /\ (forall t g, t ∈ tasks sy -> captured t = Some g ->
              g < generationId (refs (app sy')))
        /\ exists j, tasks sy' !! j
                     = Some (GenerationTask (generationId (refs (app sy'))) AwaitParts)).
Proof.
  intros sy. split.
  - intros u Hu Htruthy. cbn [step]. unfold rerunImageGenerationStep, handler_result.
    rewrite Hu, Htruthy. reflexivity.
  - assert (Hnamed : name <$> initialStepsOf r (app sy) = name <$> initialSteps).
    { apply initialStepsOf_named, ledger_named_reachable. }
    pose proof (rerunContinue_restarts now r selected (app sy) Hnamed)
      as (Hid & Hsteps & Himg & Hurl & Herr & Hbusy & Htime & Hstart & Hfal & Hinp
          & Hout & Hts).
    assert (Hnames : name <$> <[0%nat := loading_first_step]> (initialStepsOf r (app sy))
                     = ["Generate View Images"; "Generate 3D Model"]).
    { rewrite list_fmap_insert, Hnamed. reflexivity. }
    assert (Hb : tasks_bounded sy) by (apply reachable_bounded).
    assert (Hold : forall t g, t ∈ tasks sy -> captured t = Some g ->
                     g < generationId (refs (app sy)) + 1).
    { intros t g Hin Hcap. unfold tasks_bounded in Hb. rewrite Forall_forall in Hb.
      specialize (Hb t Hin g Hcap). lia. }
    intros sy' [(Hfalsy & -> & -> & ->) | [Hi ->]].
    + assert (Hstep : step sy (ClickRerun now)
                      = handler_result sy
                          (rerunContinue now (currentRender (app sy))
                             (files (inp (app sy))) (app sy))).
      { cbn [step]. unfold rerunImageGenerationStep.
        destruct (falCancelUrl (refs (app sy))) as [u |]; [| reflexivity].
        cbn in Hfalsy. rewrite Hfalsy. reflexivity. }
      rewrite Hstep. cbn [handler_result app tasks network].
      rewrite Hid, Hsteps, Hts, Hout.
      repeat (split; [first [reflexivity | assumption] |]).
      exists (length (tasks sy)). apply list_lookup_middle. reflexivity.
    + cbn [step]. rewrite Hi. cbn [settle].
      destruct (rerunContinue now r selected (app sy)) as [[s' out] ts] eqn:Hr.
      cbn [fst snd] in *. cbn [app tasks network]. subst ts out.
      rewrite Hid, Hsteps.
      repeat (split; [first [reflexivity | assumption] |]).
      exists (length (delete i (tasks sy))). apply list_lookup_middle. reflexivity.
Qed.

(** The scenario: the run is polling and Rerun sends the cancel request;
    the user then removes the image.  When the request fails the pipeline
    restarts all the same, with id 2, and reads the image that was selected
    at the click. *)
Lemma rerun_supersedes_running_generation_example :
  let sy0 := run initialSystem Scenario.polling in
  let sy := run initialSystem (Scenario.polling ++ [ClickRerun 6000; ClickRemove 0]) in
  let sy' := step sy (Settle 1 (Rejected "Failed to fetch") 6100) in
  tasks sy = [ GenerationTask 1 (AwaitPoll Scenario.job);
               RerunTask (currentRender (app sy0)) [Scenario.photo] ]
  /\ files (inp (app sy)) = []
  /\ network sy' = network sy ++ [ReadFile Scenario.photo]
  /\ generationId (refs (app sy')) = 2
  /\ status <$> steps (sig (app sy')) = [Loading; Pending]
  /\ tasks sy' = [GenerationTask 1 (AwaitPoll Scenario.job); GenerationTask 2 AwaitParts]
  /\ falCancelUrl (refs (app sy')) = cancel_url Scenario.job.
Proof.
  intros sy0 sy sy'.
  assert (Htasks : tasks sy = [ GenerationTask 1 (AwaitPoll Scenario.job);
                                RerunTask (currentRender (app sy0)) [Scenario.photo] ])
    by (vm_compute; reflexivity).
  assert (Hi : tasks sy !! 1%nat
               = Some (RerunTask (currentRender (app sy0)) [Scenario.photo]))
    by (rewrite Htasks; reflexivity).
  destruct (rerun_supersedes_running_generation
              (Scenario.polling ++ [ClickRerun 6000; ClickRemove 0]) 6100 1
              (Rejected "Failed to fetch") (currentRender (app sy0)) [Scenario.photo])
    as [_ Hsys].
  destruct (Hsys sy' (or_intror (conj Hi eq_refl))) as (Hnet & Hid & _).
  split; [exact Htasks |]. split; [reflexivity |]. split; [exact Hnet |].
  split; [exact Hid |]. split; [| split]; vm_compute; reflexivity.
Defined.

(** ** The URL fetch *)

Ltac url_fetch_cases :=
  unfold resumeUrlFetch, trySegment, urlFetchBody, urlFetchCatch, urlFetchFinally;
  run_m;
  repeat first
    [ match goal with
      | |- context [match ?x with _ => _ end] => is_var x; destruct x
      | |- context [Js.truthy_string ?u] => destruct (Js.truthy_string u)
      end
    | progress cbn ].

Lemma or_string_nonempty (a b : string) : b <> "" -> Js.or_string a b <> "".
Proof. unfold Js.or_string. destruct a; cbn; [auto | discriminate]. Qed.

(** A suspended URL fetch that goes on keeps the flag; one that ends
    clears it. *)
Lemma resumeUrlFetch_flag pc c s :
  match (resumeUrlFetch pc c s).2 with
  | Some _ => isFetchingUrl (inp (resumeUrlFetch pc c s).1.1) = isFetchingUrl (inp s)
  | None => isFetchingUrl (inp (resumeUrlFetch pc c s).1.1) = false
  end.
Proof. destruct c as [v | msg]; [destruct pc, v |]; url_fetch_cases; reflexivity. Qed.

Lemma spawnGeneration_no_url_fetch r : omap url_fetch (spawnGeneration r).2 = [].
Proof. destruct r as [[[s out] g] [pc |]]; reflexivity. Qed.

Lemma startGeneration_no_url_fetch now s : omap url_fetch (startGeneration now s).2 = [].
Proof.
  unfold startGeneration. destruct (_ || _); [reflexivity |].
  apply spawnGeneration_no_url_fetch.
Qed.

Lemma rerunContinue_no_url_fetch now r selected s :
  omap url_fetch (rerunContinue now r selected s).2 = [].
Proof. apply spawnGeneration_no_url_fetch. Qed.

Lemma rerunImageGenerationStep_url_fetch now s :
  inp (rerunImageGenerationStep now s).1.1 = inp s
  /\ omap url_fetch (rerunImageGenerationStep now s).2 = [].
Proof.
  unfold rerunImageGenerationStep.
  destruct (falCancelUrl (refs s)) as [u |]; [destruct (Js.truthy_string u) |];
    split; try reflexivity;
    first [apply rerunContinue_inputs | apply rerunContinue_no_url_fetch].
Qed.

Lemma cancelContinue_isFetchingUrl r s :
  isFetchingUrl (inp (cancelContinue r s)) = isFetchingUrl (inp s).
Proof.
  pose proof (stopTimer_frame s) as (_ & Hinp & _).
  unfold cancelContinue. cbn. rewrite Hinp. reflexivity.
Qed.

Lemma handleCancelGeneration_isFetchingUrl s :
  isFetchingUrl (inp (handleCancelGeneration s).1.1) = isFetchingUrl (inp s).
Proof.
  unfold handleCancelGeneration.
  destruct (falCancelUrl (refs (set_generationId _ s))) as [u |];
    [destruct (Js.truthy_string u) |]; cbn [fst];
    rewrite ?cancelContinue_isFetchingUrl; reflexivity.
Qed.

Lemma url_fetch_flagged_handler sy r :
  url_fetch_flagged sy ->
  isFetchingUrl (inp r.1.1) = isFetchingUrl (inp (app sy)) ->
  omap url_fetch r.2 = [] ->
  url_fetch_flagged (handler_result sy r).
Proof.
  unfold url_fetch_flagged. cbn. intros H Hflag Hnone.
  rewrite omap_app, Hnone, app_nil_r, Hflag. exact H.
Qed.

Lemma url_fetch_flagged_pure sy s' :
  url_fetch_flagged sy ->
  isFetchingUrl (inp s') = isFetchingUrl (inp (app sy)) ->
  url_fetch_flagged (pure_handler sy s').
Proof. unfold url_fetch_flagged. cbn. intros H ->. exact H. Qed.

Lemma url_fetch_flagged_settle sy i t s' out ts :
  url_fetch_flagged sy -> tasks sy !! i = Some t -> url_fetch t = None ->
  isFetchingUrl (inp s') = isFetchingUrl (inp (app sy)) ->
  omap url_fetch ts = [] ->
  url_fetch_flagged {| app := s'; tasks := delete i (tasks sy) ++ ts;
                       network := network sy ++ out |}.
Proof.
  unfold url_fetch_flagged. cbn. intros H Ht Hnone Hflag Hts.
  destruct (omap_delete url_fetch (tasks sy) i t Ht) as (X & Y & Hall & Hdel).
  rewrite Hnone in Hall. cbn in Hall.
  rewrite omap_app, Hts, app_nil_r, Hdel, <- Hall, Hflag. exact H.
Qed.

Lemma url_fetch_flagged_step sy e :
  url_fetch_flagged sy -> url_fetch_flagged (step sy e).
Proof.
  intros H.
  destruct e as [now | now | | | sel | sel | | | index | v | m | parses | asset |
                 | task c now | h now |]; cbn [step];
    try (apply url_fetch_flagged_pure; [exact H | reflexivity]).
  - apply url_fetch_flagged_handler; [exact H | |].
    + rewrite startGeneration_inputs. reflexivity.
    + apply startGeneration_no_url_fetch.
  - apply url_fetch_flagged_handler; [exact H | |].
    + rewrite (proj1 (rerunImageGenerationStep_url_fetch now (app sy))). reflexivity.
    + apply rerunImageGenerationStep_url_fetch.
  - apply url_fetch_flagged_handler; [exact H | |].
    + apply handleCancelGeneration_isFetchingUrl.
    + apply handleCancelGeneration_spawns.
  - apply url_fetch_flagged_pure; [exact H |]. destruct sel; reflexivity.
  - apply url_fetch_flagged_pure; [exact H |]. destruct sel; reflexivity.
  - unfold url_fetch_flagged in *. unfold handleUrlFetch.
    destruct (negb (Js.truthy_string (productUrl (inp (app sy))))
              || isFetchingUrl (inp (app sy))
              || bool_decide (3 <= length (files (inp (app sy))))%nat) eqn:Hguard.
    + cbn. rewrite app_nil_r. exact H.
    + apply orb_false_elim in Hguard as [Hguard _].
      apply orb_false_elim in Hguard as [_ Hflag].
      destruct (negb parses); cbn.
      * rewrite app_nil_r. exact H.
      * rewrite omap_app, length_app, H, Hflag. reflexivity.
  - unfold url_fetch_flagged in *. cbn. rewrite omap_app. cbn. rewrite app_nil_r. exact H.
  - destruct (tasks sy !! task) as [t |] eqn:Ht; [| exact H].
    destruct t as [g pc | r selected | r | pc | pc]; cbn [settle].
    + pose proof (resumeGeneration_inputs g pc c now (app sy)) as Hinp.
      destruct (resumeGeneration g pc c now (app sy)) as [[s' out] pc'].
      eapply url_fetch_flagged_settle; [exact H | exact Ht | reflexivity | |].
      * cbn in Hinp. rewrite Hinp. reflexivity.
      * destruct pc'; reflexivity.
    + pose proof (rerunContinue_inputs now r selected (app sy)) as Hinp.
      pose proof (rerunContinue_no_url_fetch now r selected (app sy)) as Hnone.
      destruct (rerunContinue now r selected (app sy)) as [[s' out] ts].
      eapply url_fetch_flagged_settle; [exact H | exact Ht | reflexivity | | exact Hnone].
      cbn in Hinp. rewrite Hinp. reflexivity.
    + eapply url_fetch_flagged_settle; [exact H | exact Ht | reflexivity | | reflexivity].
      apply cancelContinue_isFetchingUrl.
    + pose proof (resumeUrlFetch_flag pc c (app sy)) as Hflag.
      destruct (resumeUrlFetch pc c (app sy)) as [[s' out] pc'].
      unfold url_fetch_flagged in *. cbn [fst snd] in Hflag. cbn [app tasks].
      destruct (omap_delete url_fetch (tasks sy) task _ Ht) as (X & Y & Hall & Hdel).
      cbn in Hall. rewrite Hall, length_app in H. cbn [length] in H.
      assert (Hon : isFetchingUrl (inp (app sy)) = true
                    /\ (length X + length Y = 0)%nat).
      { destruct (isFetchingUrl (inp (app sy))); [split; [reflexivity | lia] | lia]. }
      destruct Hon as [Hon Hzero].
      rewrite omap_app, Hdel, !length_app.
      destruct pc' as [pc' |]; cbn; rewrite Hflag, ?Hon; lia.
    + assert (Hinp : isFetchingUrl (inp (resumeDownload pc c (app sy)).1.1)
                     = isFetchingUrl (inp (app sy)))
        by (destruct c, pc; reflexivity).
      assert (Hnone : omap url_fetch
                        (optional_task DownloadTask (resumeDownload pc c (app sy)).2) = [])
        by (destruct c, pc; reflexivity).
      destruct (resumeDownload pc c (app sy)) as [[s' out] pc'].
      eapply url_fetch_flagged_settle; [exact H | exact Ht | reflexivity | exact Hinp
                                       | exact Hnone].
  - apply url_fetch_flagged_pure; [exact H |]. cbn. rewrite tick_inputs. reflexivity.
Qed.

(** In every reachable state at most one URL fetch is suspended, and the
    flag [isFetchingUrl] is set exactly while there is one: a click while a
    fetch is under way starts no second one, and the flag is cleared by every
    way the fetch ends and by nothing else. *)
Theorem one_url_fetch_at_a_time (es : list Event) (parses : bool) :
  let sy := run initialSystem es in
  length (omap url_fetch (tasks sy))
  = (if isFetchingUrl (inp (app sy)) then 1 else 0)%nat
  /\ (isFetchingUrl (inp (app sy)) = true ->
      app (step sy (ClickFetchImage parses)) = app sy
      /\ tasks (step sy (ClickFetchImage parses)) = tasks sy
      /\ network (step sy (ClickFetchImage parses)) = network sy).
Proof.
  intros sy. split.
  - subst sy. induction es as [| e es IH] using rev_ind; [reflexivity |].
    rewrite run_app. cbn [run foldl]. apply url_fetch_flagged_step, IH.
  - intros Hon. cbn [step]. unfold handleUrlFetch. rewrite Hon.
    rewrite orb_true_r. cbn. rewrite !app_nil_r. repeat split.
Qed.

(** Every way a suspended URL fetch ends.  It never touches the cells of
    the generator, the refs or the timers.  When it ends, the flag is
    cleared, and either it failed (a rejected request, no image address in the
    model's answer, an image response that is not ok): the reference images,
    the typed address and the chosen tab are as before and a message that is
    not empty is shown; or the image arrived: it is appended to the reference
    images, cut to three, so that an image arriving when three are already
    there is dropped without a message, the typed address is cleared and the
    upload tab is chosen. *)
Theorem url_fetch_ends_in_message_or_image (pc : UrlPC) (c : Completion) (s : App) :
  let r := resumeUrlFetch pc c s in
  sig r.1.1 = sig s /\ refs r.1.1 = refs s /\ env r.1.1 = env s
  /\ (r.2 = None ->
      isFetchingUrl (inp r.1.1) = false
      /\ ((files (inp r.1.1) = files (inp s)
           /\ productUrl (inp r.1.1) = productUrl (inp s)
           /\ inputMethod (inp r.1.1) = inputMethod (inp s)
           /\ exists msg, urlError (inp r.1.1) = Some msg /\ msg <> "")
          \/ (exists imageUrl blob_type blob_data,
                pc = AwaitImageBlob imageUrl /\ c = Resolved (VBlob blob_type blob_data)
                /\ files (inp r.1.1)
                   = take 3 (files (inp s)
                             ++ [{| file_name := image_filename imageUrl;
                                    file_type := blob_type; file_data := blob_data |}])
                /\ (length (files (inp s)) = 3%nat -> files (inp r.1.1) = files (inp s))
                /\ productUrl (inp r.1.1) = ""
                /\ inputMethod (inp r.1.1) = upload
                /\ urlError (inp r.1.1) = urlError (inp s)))).
Proof.
  intros r. subst r.
  destruct c as [v | msg]; [destruct pc, v |]; url_fetch_cases;
    (split; [reflexivity |]); (split; [reflexivity |]); (split; [reflexivity |]);
    intros Hend; try discriminate Hend; (split; [reflexivity |]);
    try (left; repeat split; eexists; split; [reflexivity |];
         first [discriminate | apply or_string_nonempty; discriminate]).
  right. eexists _, _, _. repeat split.
  intros Hlen. rewrite take_app_length' by (rewrite Hlen; reflexivity). reflexivity.
Qed.

(** ** The busy flag is never left behind *)

Lemma elem_of_delete_other {A} (l : list A) (i : nat) (t x : A) (ts : list A) :
  l !! i = Some t -> x ∈ l -> x <> t -> x ∈ delete i l ++ ts.
Proof.
  intros Ht Hin Hne. rewrite <- (take_drop_middle l i t Ht) in Hin.
  rewrite delete_take_drop. apply elem_of_app. left.
  apply elem_of_app in Hin as [Hin | Hin]; apply elem_of_app; [left; exact Hin |].
  apply elem_of_cons in Hin as [-> | Hin]; [contradiction | right; exact Hin].
Qed.

Lemma resumeUrlFetch_frame pc c s :
  sig (resumeUrlFetch pc c s).1.1 = sig s /\ refs (resumeUrlFetch pc c s).1.1 = refs s.
Proof.
  destruct c as [v | msg]; [destruct pc, v |]; url_fetch_cases; split; reflexivity.
Qed.

Lemma busy_backed_idle s' ts out :
  isLoading (sig s') = false -> busy_backed {| app := s'; tasks := ts; network := out |}.
Proof. unfold busy_backed. cbn. intros ->. discriminate. Qed.

Lemma busy_backed_spawn s' l pc out :
  busy_backed {| app := s';
                 tasks := l ++ [GenerationTask (generationId (refs s')) pc];
                 network := out |}.
Proof.
  intros _. left. exists pc. cbn. apply elem_of_app. right. apply list_elem_of_singleton.
  reflexivity.
Qed.

Lemma busy_backed_append sy s' ts out :
  busy_backed sy ->
  isLoading (sig s') = isLoading (sig (app sy)) ->
  generationId (refs s') = generationId (refs (app sy)) ->
  busy_backed {| app := s'; tasks := tasks sy ++ ts; network := out |}.
Proof.
  unfold busy_backed. cbn. intros H -> -> Hbusy.
  destruct (H Hbusy) as [[pc Hin] | [r Hin]]; [left; exists pc | right; exists r];
    apply elem_of_app; left; exact Hin.
Qed.

Lemma busy_backed_same sy s' :
  busy_backed sy ->
  isLoading (sig s') = isLoading (sig (app sy)) ->
  generationId (refs s') = generationId (refs (app sy)) ->
  busy_backed (pure_handler sy s').
Proof. unfold busy_backed. cbn. intros H -> ->. exact H. Qed.

Lemma busy_backed_other sy i t s' ts out :
  busy_backed sy -> tasks sy !! i = Some t ->
  isLoading (sig s') = isLoading (sig (app sy)) ->
  generationId (refs s') = generationId (refs (app sy)) ->
  (forall r, t <> CancelTask r) ->
  (forall pc, t <> GenerationTask (generationId (refs (app sy))) pc) ->
  busy_backed {| app := s'; tasks := delete i (tasks sy) ++ ts; network := out |}.
Proof.
  unfold busy_backed. cbn. intros H Ht -> -> Hnc Hng Hbusy.
  destruct (H Hbusy) as [[pc Hin] | [r Hin]]; [left; exists pc | right; exists r];
    (eapply elem_of_delete_other; [exact Ht | exact Hin |]).
  - intros Heq. exact (Hng pc (eq_sym Heq)).
  - intros Heq. exact (Hnc r (eq_sym Heq)).
Qed.

Lemma busy_backed_restart sy now r selected l out :
  ledger_named (app sy) ->
  busy_backed {| app := (rerunContinue now r selected (app sy)).1.1;
                 tasks := l ++ (rerunContinue now r selected (app sy)).2;
                 network := out |}.
Proof.
  intros Hl.
  assert (Hnamed : name <$> initialStepsOf r (app sy) = name <$> initialSteps)
    by apply initialStepsOf_named, Hl.
  pose proof (rerunContinue_restarts now r selected (app sy) Hnamed) as Hr.
  destruct Hr as (Hid & _ & _ & _ & _ & _ & _ & _ & _ & _ & _ & Hts).
  rewrite Hts, <- Hid. apply busy_backed_spawn.
Qed.

Lemma busy_backed_step sy e :
  ledger_named (app sy) -> busy_backed sy -> busy_backed (step sy e).
Proof.
  intros Hnamed H.
  destruct e as [now | now | | | sel | sel | | | index | v | m | parses | asset |
                 | task c now | h now |]; cbn [step];
    try (apply busy_backed_same; [exact H | reflexivity | reflexivity]).
  - (* Generate *)
    unfold handler_result.
    destruct (bool_decide (length (files (inp (app sy))) = 0%nat)
              || isLoading (sig (app sy))) eqn:Hguard.
    + unfold startGeneration. rewrite Hguard. cbn [fst snd].
      apply busy_backed_append; [exact H | reflexivity | reflexivity].
    + apply orb_false_elim in Hguard as [Hlen Hidle].
      assert (Hfiles : files (inp (app sy)) <> []).
      { intros Hnil. rewrite Hnil in Hlen. discriminate Hlen. }
      pose proof (start_accepted_state now (app sy) Hfiles Hidle) as (Hts & Hid & _).
      rewrite Hts, <- Hid. apply busy_backed_spawn.
  - (* Rerun *)
    unfold handler_result, rerunImageGenerationStep.
    destruct (falCancelUrl (refs (app sy))) as [u |]; [destruct (Js.truthy_string u) |];
      try (apply busy_backed_restart, Hnamed).
    cbn [fst snd]. apply busy_backed_append; [exact H | reflexivity | reflexivity].
  - (* Cancel *)
    unfold handler_result, handleCancelGeneration.
    destruct (falCancelUrl (refs (set_generationId _ (app sy)))) as [u |];
      [destruct (Js.truthy_string u) |]; cbn [fst snd];
      try (apply busy_backed_idle; reflexivity).
    intros _. right. eexists. cbn. apply elem_of_app. right.
    apply list_elem_of_singleton. reflexivity.
  - (* Create another *)
    apply busy_backed_idle. reflexivity.
  - apply busy_backed_same; [exact H | |]; destruct sel; reflexivity.
  - apply busy_backed_same; [exact H | |]; destruct sel; reflexivity.
  - (* Fetch image *)
    unfold handler_result, handleUrlFetch.
    destruct (_ || _); [| destruct (negb parses)]; cbn [fst snd];
      apply busy_backed_append; try exact H; reflexivity.
  - (* Download *)
    apply busy_backed_append; [exact H | reflexivity | reflexivity].
  - (* Settle *)
    destruct (tasks sy !! task) as [t |] eqn:Ht; [| exact H].
    destruct t as [g pc | r selected | r | pc | pc]; cbn [settle].
    + pose proof (resumeGeneration_generationId g pc c now (app sy)) as Hid.
      destruct (Z.eq_dec (generationId (refs (app sy))) g) as [Hcur | Hstale].
      * destruct (resumeGeneration g pc c now (app sy)) as [[s' out] [pc' |]] eqn:Hr;
          cbn [fst snd] in Hid; cbn [optional_task].
        -- rewrite <- Hcur, <- Hid. apply busy_backed_spawn.
        -- apply busy_backed_idle.
           pose proof (resumeGeneration_ends g pc c now (app sy) Hcur) as He.
           rewrite Hr in He. apply He. reflexivity.
      * pose proof (stale_resume_inert g pc c now (app sy) ltac:(congruence)) as (Hsig & _).
        destruct (resumeGeneration g pc c now (app sy)) as [[s' out] pc'].
        cbn [fst snd] in Hid, Hsig.
        eapply busy_backed_other; [exact H | exact Ht | | exact Hid | discriminate |].
        -- rewrite Hsig. reflexivity.
        -- intros pc0 [= Hg _]. congruence.
    + destruct (rerunContinue now r selected (app sy)) as [[s' out] ts] eqn:Hr.
      pose proof (busy_backed_restart sy now r selected (delete task (tasks sy))
                    (network sy ++ out) Hnamed) as Hb.
      rewrite Hr in Hb. exact Hb.
    + apply busy_backed_idle. reflexivity.
    + pose proof (resumeUrlFetch_frame pc c (app sy)) as [Hsig Hrefs].
      destruct (resumeUrlFetch pc c (app sy)) as [[s' out] pc']. cbn [fst snd] in Hsig, Hrefs.
      eapply busy_backed_other; [exact H | exact Ht | | | discriminate | discriminate].
      * rewrite Hsig. reflexivity.
      * rewrite Hrefs. reflexivity.
    + assert (Hsame : isLoading (sig (resumeDownload pc c (app sy)).1.1)
                      = isLoading (sig (app sy))
                      /\ generationId (refs (resumeDownload pc c (app sy)).1.1)
                         = generationId (refs (app sy)))
        by (destruct c, pc; split; reflexivity).
      destruct Hsame as [Hl Hg].
      destruct (resumeDownload pc c (app sy)) as [[s' out] pc']. cbn [fst snd] in Hl, Hg.
      eapply busy_backed_other; [exact H | exact Ht | exact Hl | exact Hg
                                | discriminate | discriminate].
  - (* Tick *)
    pose proof (tick_frame h now (app sy)) as (_ & Hrefs & _ & _ & _ & _ & Hl & _).
    apply busy_backed_same; [exact H | exact Hl | rewrite Hrefs; reflexivity].
Qed.

(** The busy flag is never left behind.  In every reachable state in which
    [isLoading] is set, a suspended call is there that clears the flag when
    it ends: the [performGeneration] holding the live id, whose [finally]
    block clears it, or a [handleCancelGeneration] waiting for its cancel
    request, which resets the state when the request settles. *)
Theorem busy_flag_is_backed (es : list Event) :
  let sy := run initialSystem es in
  isLoading (sig (app sy)) = true ->
  (exists pc, GenerationTask (generationId (refs (app sy))) pc ∈ tasks sy)
  \/ (exists r, CancelTask r ∈ tasks sy).
Proof.
  intros sy. subst sy. induction es as [| e es IH] using rev_ind.
  - intros Hbusy. discriminate Hbusy.
  - rewrite run_app. cbn [run foldl].
    apply (busy_backed_step (run initialSystem es) e);
      [apply ledger_named_reachable | exact IH].
Qed.

(** While the scenario polls, the run holding id 1 backs the flag; after a
    cancel it is the cancel call. *)
Lemma busy_flag_is_backed_example :
  (exists pc, GenerationTask 1 pc ∈ tasks (run initialSystem Scenario.polling))
  /\ (exists r, CancelTask r ∈ tasks (run initialSystem (Scenario.polling ++ [ClickCancel]))).
Proof.
  assert (Hbusy : isLoading (sig (app (run initialSystem Scenario.polling))) = true)
    by reflexivity.
  assert (Hbusy' : isLoading (sig (app (run initialSystem
                                          (Scenario.polling ++ [ClickCancel])))) = true)
    by reflexivity.
  pose proof (busy_flag_is_backed Scenario.polling Hbusy) as Hgen.
  pose proof (busy_flag_is_backed (Scenario.polling ++ [ClickCancel]) Hbusy') as Hcancel.
  split.
  - destruct Hgen as [Hgen | [r Hc]]; [exact Hgen |].
    exfalso. vm_compute in Hc. inversion Hc as [| ? ? ? Hc']. inversion Hc'.
  - destruct Hcancel as [[pc Hg] | Hcancel]; [| exact Hcancel].
    exfalso. vm_compute in Hg. inversion Hg as [| ? ? ? Hg'].
    inversion Hg' as [| ? ? ? Hg'']. inversion Hg''.
Defined.
